(** * Flowchart generation pipeline of [src/app/api/generate/route.ts]

    A shallow embedding of the route handler: the schema sanitizer
    [validateFlowchart], the structured-text extractor [extractJSON], the
    rule-based [generateLocalFlowchart], the two provider adapters and the
    [POST] fallback chain, followed by the properties the specification
    states about them. *)

From Stdlib Require Import ZArith NArith Ascii String DecimalString.
From stdpp Require Import base option list gmap strings.

Set Warnings "-register-all,-clear-no-such-hyp".

(** ** JavaScript strings

    A JavaScript string is a sequence of UTF-16 code units; [slice],
    [length], [split] and [includes] all count code units.  A code unit is
    kept as an [N]. *)

Abbreviation jsstring := (list N).

(** ASCII literals of the source, as code units. *)
Definition lit (s : string) : jsstring :=
  (fun a => N_of_ascii a) <$> list_ascii_of_string s.

Fixpoint str_eqb (a b : jsstring) : bool :=
  match a, b with
  | [], [] => true
  | x :: a', y :: b' => N.eqb x y && str_eqb a' b'
  | _, _ => false
  end.

(** [s.startsWith(pat)] *)
Fixpoint starts_with (pat s : jsstring) : bool :=
  match pat, s with
  | [], _ => true
  | p :: pat', c :: s' => N.eqb p c && starts_with pat' s'
  | _ :: _, [] => false
  end.

(** [s.indexOf(pat)]: position of the first occurrence. *)
Fixpoint index_of (pat s : jsstring) : option nat :=
  if starts_with pat s then Some 0
  else match s with
       | [] => None
       | _ :: s' => S <$> index_of pat s'
       end.

(** [s.includes(pat)] *)
Definition includes (pat s : jsstring) : bool :=
  match index_of pat s with Some _ => true | None => false end.

(** [s.slice(0, n)] and [s.slice(a, b)] for [0 <= a <= b]. *)
Definition slice0 (n : nat) (s : jsstring) : jsstring := take n s.
Definition slice (a b : nat) (s : jsstring) : jsstring := take (b - a) (drop a s).

(** The code units matched by [\s] in a regular expression, which are also
    the ones [String.prototype.trim] strips: WhiteSpace and LineTerminator
    of ECMAScript. *)
Definition is_space (c : N) : bool :=
  ((9 <=? c) && (c <=? 13) || (c =? 32) || (c =? 160) || (c =? 5760)
   || (8192 <=? c) && (c <=? 8202) || (c =? 8232) || (c =? 8233)
   || (c =? 8239) || (c =? 8287) || (c =? 12288) || (c =? 65279))%N.

Fixpoint trim_start (s : jsstring) : jsstring :=
  match s with
  | c :: s' => if is_space c then trim_start s' else s
  | [] => []
  end.

Definition trim_end (s : jsstring) : jsstring := rev (trim_start (rev s)).

(** [s.trim()] *)
Definition trim (s : jsstring) : jsstring := trim_end (trim_start s).

(** Decimal rendering of a loop index, as a template literal prints it. *)
Definition nat_to_string (n : nat) : jsstring :=
  lit (NilZero.string_of_uint (Nat.to_uint n)).

(** ** JavaScript numbers

    Numbers only pass through this code: they are tested for truthiness and
    for [typeof x === "number"], printed by [String(x)], read from JSON text
    and written as integer constants.  The IEEE-754 arithmetic behind them
    is left to an interface. *)

Class JSNumber (num : Type) := {
  (** an integer constant or integer-valued result of the source *)
  num_of_Z : Z -> num;
  (** [false] exactly on [+0], [-0] and [NaN] *)
  num_truthy : num -> bool;
  (** [Number.prototype.toString] in radix 10 *)
  num_to_string : num -> jsstring;
  (** the number denoted by a JSON number literal *)
  num_of_literal : jsstring -> num;
}.

(** ** Decoded JSON values *)

Inductive JV (num : Type) : Type :=
| JNull
| JBool (b : bool)
| JNum (x : num)
| JStr (s : jsstring)
| JArr (items : list (JV num))
| JObj (fields : list (jsstring * JV num)).

Arguments JNull {num}.
Arguments JBool {num} b.
Arguments JNum {num} x.
Arguments JStr {num} s.
Arguments JArr {num} items.
Arguments JObj {num} fields.

(** Exceptions: a computation either yields a value or raises (every
    exception this code can raise on JSON data is a [TypeError]). *)
Inductive exn (A : Type) : Type :=
| Val (a : A)
| Raise.

Arguments Val {A} a.
Arguments Raise {A}.

Definition exn_bind {A B} (m : exn A) (k : A -> exn B) : exn B :=
  match m with
  | Val a => k a
  | Raise => Raise
  end.

Notation "x <-! m ; k" := (exn_bind m (fun x => k))
  (at level 100, m at next level, right associativity).

(** [xs.map(f)] where [f] may raise: the first exception aborts the map. *)
Fixpoint exn_map {A B} (f : A -> exn B) (xs : list A) : exn (list B) :=
  match xs with
  | [] => Val []
  | x :: xs' => y <-! f x; ys <-! exn_map f xs'; Val (y :: ys)
  end.

(** [xs.filter(p)] where [p] may raise. *)
Fixpoint exn_filter {A} (p : A -> exn bool) (xs : list A) : exn (list A) :=
  match xs with
  | [] => Val []
  | x :: xs' =>
      b <-! p x; ys <-! exn_filter p xs'; Val (if b then x :: ys else ys)
  end.

Section Values.
Context {num : Type} `{JSNumber num}.

(** Own property of an object literal; the first binding of a key is the
    property. *)
Fixpoint own (k : jsstring) (fields : list (jsstring * JV num)) : option (JV num) :=
  match fields with
  | [] => None
  | (k', v) :: rest => if str_eqb k' k then Some v else own k rest
  end.

(** [v.k] for a non-nullish [v] and a key [k] that no prototype defines
    (every key this program reads); [None] is [undefined].  Arrays,
    strings, numbers and booleans have none of these keys. *)
Definition get (k : jsstring) (v : JV num) : option (JV num) :=
  match v with
  | JObj fields => own k fields
  | _ => None
  end.

(** [v?.k] on a possibly undefined or null [v]. *)
Definition get_opt (k : jsstring) (v : option (JV num)) : option (JV num) :=
  match v with
  | None | Some JNull => None
  | Some v' => get k v'
  end.

(** ToBoolean *)
Definition truthy (v : JV num) : bool :=
  match v with
  | JNull => false
  | JBool b => b
  | JNum x => num_truthy x
  | JStr s => match s with [] => false | _ => true end
  | JArr _ | JObj _ => true
  end.

Definition truthy_opt (v : option (JV num)) : bool :=
  match v with
  | None => false
  | Some v' => truthy v'
  end.

(** [xs.join(",")] over already converted elements. *)
Fixpoint join_comma (xs : list jsstring) : jsstring :=
  match xs with
  | [] => []
  | [x] => x
  | x :: rest => x ++ lit "," ++ join_comma rest
  end.

(** [String(v)] (the same conversion a template literal applies).  An
    array prints its elements joined by commas, [null] elements as the
    empty string.  A plain object prints as [[object Object]] through
    [Object.prototype.toString], unless it carries an own [toString]
    property: a JSON value is never callable, so OrdinaryToPrimitive
    falls to [valueOf], which cannot yield a primitive either, and a
    TypeError is raised. *)
Fixpoint to_str (v : JV num) : exn jsstring :=
  match v with
  | JNull => Val (lit "null")
  | JBool true => Val (lit "true")
  | JBool false => Val (lit "false")
  | JNum x => Val (num_to_string x)
  | JStr s => Val s
  | JArr items =>
      parts <-! (fix elems (l : list (JV num)) : exn (list jsstring) :=
                   match l with
                   | [] => Val []
                   | JNull :: l' => ps <-! elems l'; Val ([] :: ps)
                   | x :: l' => p <-! to_str x; ps <-! elems l'; Val (p :: ps)
                   end) items;
      Val (join_comma parts)
  | JObj fields =>
      match own (lit "toString") fields with
      | Some _ => Raise
      | None => Val (lit "[object Object]")
      end
  end.

(** [String(v)] on a possibly undefined [v]. *)
Definition to_str_opt (v : option (JV num)) : exn jsstring :=
  match v with
  | None => Val (lit "undefined")
  | Some v' => to_str v'
  end.
End Values.

(** ** The graph schema *)

(** [type: "process" | "decision" | "startEnd" | "inputOutput"] *)
Inductive NodeType : Type := process | decision | startEnd | inputOutput.

Definition type_name (t : NodeType) : jsstring :=
  match t with
  | process => lit "process"
  | decision => lit "decision"
  | startEnd => lit "startEnd"
  | inputOutput => lit "inputOutput"
  end.

Record Position (num : Type) : Type := { px : num; py : num }.
Arguments px {num} _.
Arguments py {num} _.

Record NodeData : Type := { label : jsstring }.

(** [interface FlowchartNode] *)
Record FlowchartNode (num : Type) : Type := {
  n_id : jsstring;
  n_type : NodeType;
  n_position : Position num;
  n_data : NodeData;
}.
Arguments n_id {num} _.
Arguments n_type {num} _.
Arguments n_position {num} _.
Arguments n_data {num} _.

(** [interface FlowchartEdge]; [label] and [animated] are optional. *)
Record FlowchartEdge : Type := {
  e_id : jsstring;
  e_source : jsstring;
  e_target : jsstring;
  e_label : option jsstring;
  e_animated : option bool;
}.

(** [interface AIGeneratedFlow] *)
Record AIGeneratedFlow (num : Type) : Type := {
  nodes : list (FlowchartNode num);
  edges : list FlowchartEdge;
}.
Arguments nodes {num} _.
Arguments edges {num} _.

Definition node_ids {num} (ns : list (FlowchartNode num)) : list jsstring :=
  n_id <$> ns.

(** ** Schema sanitizer: [validateFlowchart] *)

Section Sanitizer.
Context {num : Type} `{JSNumber num}.

(** [VALID_NODE_TYPES.has(t) ? t : "process"].  [Set.prototype.has]
    compares by SameValueZero, so only the four strings are members. *)
Definition node_type_of (s : jsstring) : option NodeType :=
  if str_eqb s (lit "process") then Some process
  else if str_eqb s (lit "decision") then Some decision
  else if str_eqb s (lit "startEnd") then Some startEnd
  else if str_eqb s (lit "inputOutput") then Some inputOutput
  else None.

Definition coerce_type (t : option (JV num)) : NodeType :=
  match t with
  | Some (JStr s) => default process (node_type_of s)
  | _ => process
  end.

(** [typeof v === "number" ? v : d] *)
Definition number_or (d : Z) (v : option (JV num)) : num :=
  match v with
  | Some (JNum a) => a
  | _ => num_of_Z d
  end.

(** The node filter: [n && n.id && n.data?.label]. *)
Definition keep_node (n : JV num) : bool :=
  truthy n
  && truthy_opt (get (lit "id") n)
  && truthy_opt (get_opt (lit "label") (get (lit "data") n)).

(** [n.data.label], which raises when [n.data] is undefined or null. *)
Definition data_label (n : JV num) : exn (option (JV num)) :=
  match get (lit "data") n with
  | None | Some JNull => Raise
  | Some d => Val (get (lit "label") d)
  end.

(** One call of the [map] callback: adds the id to [nodeIds] and builds
    the sanitized node. *)
Definition sanitize_node (nodeIds : gset jsstring) (n : JV num)
  : exn (gset jsstring * FlowchartNode num) :=
  sid <-! to_str_opt (get (lit "id") n);
  l <-! data_label n;
  lbl <-! to_str_opt l;
  Val (nodeIds ∪ {[ sid ]},
       {| n_id := sid;
          n_type := coerce_type (get (lit "type") n);
          n_position :=
            {| px := number_or 250 (get_opt (lit "x") (get (lit "position") n));
               py := number_or 0 (get_opt (lit "y") (get (lit "position") n)) |};
          n_data := {| label := slice0 40 lbl |} |}).

(** The [map] over the kept nodes, threading the [nodeIds] set. *)
Fixpoint sanitize_nodes (nodeIds : gset jsstring) (ns : list (JV num))
  : exn (gset jsstring * list (FlowchartNode num)) :=
  match ns with
  | [] => Val (nodeIds, [])
  | n :: rest =>
      r <-! sanitize_node nodeIds n;
      rs <-! sanitize_nodes r.1 rest;
      Val (rs.1, r.2 :: rs.2)
  end.

(** The edge filter:
    [e && e.source && e.target && nodeIds.has(String(e.source))
       && nodeIds.has(String(e.target))]. *)
Definition keep_edge (nodeIds : gset jsstring) (e : JV num) : exn bool :=
  if truthy e
     && truthy_opt (get (lit "source") e)
     && truthy_opt (get (lit "target") e)
  then
    s <-! to_str_opt (get (lit "source") e);
    if bool_decide (s ∈ nodeIds)
    then t <-! to_str_opt (get (lit "target") e); Val (bool_decide (t ∈ nodeIds))
    else Val false
  else Val false.

(** The edge [map] callback. *)
Definition sanitize_edge (e : JV num) : exn FlowchartEdge :=
  eid <-! (if truthy_opt (get (lit "id") e)
           then to_str_opt (get (lit "id") e)
           else s <-! to_str_opt (get (lit "source") e);
                t <-! to_str_opt (get (lit "target") e);
                Val (lit "e-" ++ s ++ lit "-" ++ t));
  src <-! to_str_opt (get (lit "source") e);
  tgt <-! to_str_opt (get (lit "target") e);
  lbl <-! (if truthy_opt (get (lit "label") e)
           then l <-! to_str_opt (get (lit "label") e); Val (Some l)
           else Val None);
  Val {| e_id := eid; e_source := src; e_target := tgt;
         e_label := lbl; e_animated := Some true |}.

(** [validateFlowchart(data)]: [Val None] is the [null] result. *)
Definition validateFlowchart (data : JV num) : exn (option (AIGeneratedFlow num)) :=
  if negb (truthy data) then Val None
  else
    match get (lit "nodes") data, get (lit "edges") data with
    | Some (JArr ns), Some (JArr es) =>
        if Nat.eqb (length ns) 0 then Val None
        else
          r <-! sanitize_nodes ∅ (List.filter keep_node ns);
          if Nat.eqb (length r.2) 0 then Val None
          else
            kept <-! exn_filter (keep_edge r.1) es;
            es' <-! exn_map sanitize_edge kept;
            Val (Some {| nodes := r.2; edges := es' |})
    | _, _ => Val None
    end.

(** The returned graph seen again as a plain value, for feeding it back
    into the sanitizer. *)
Definition node_to_value (n : FlowchartNode num) : JV num :=
  JObj [ (lit "id", JStr (n_id n));
         (lit "type", JStr (type_name (n_type n)));
         (lit "position", JObj [ (lit "x", JNum (px (n_position n)));
                                 (lit "y", JNum (py (n_position n))) ]);
         (lit "data", JObj [ (lit "label", JStr (label (n_data n))) ]) ].

Definition edge_to_value (e : FlowchartEdge) : JV num :=
  JObj ([ (lit "id", JStr (e_id e));
          (lit "source", JStr (e_source e));
          (lit "target", JStr (e_target e)) ]
        ++ match e_label e with
           | Some l => [ (lit "label", JStr l) ]
           | None => []
           end
        ++ match e_animated e with
           | Some b => [ (lit "animated", JBool b) ]
           | None => []
           end).

Definition flow_to_value (g : AIGeneratedFlow num) : JV num :=
  JObj [ (lit "nodes", JArr (node_to_value <$> nodes g));
         (lit "edges", JArr (edge_to_value <$> edges g)) ].
End Sanitizer.

(** ** A number instance for closed examples

    Integer-valued numbers of magnitude below [2^53], on which
    [Number.prototype.toString] prints plain decimal digits and a JSON
    integer literal denotes itself.  The closed examples of this file only
    use such numbers; a fraction or an exponent in a literal is outside the
    instance and is not read. *)

Definition Z_to_string (z : Z) : jsstring :=
  lit (NilZero.string_of_int (Z.to_int z)).

Fixpoint digits_value (acc : Z) (s : jsstring) : Z :=
  match s with
  | c :: s' =>
      if ((48 <=? c) && (c <=? 57))%N
      then digits_value (10 * acc + Z.of_N (c - 48)) s'
      else acc
  | [] => acc
  end.

Definition Z_of_literal (s : jsstring) : Z :=
  match s with
  | 45%N :: s' => - digits_value 0 s'
  | _ => digits_value 0 s
  end.

#[export] Instance Z_number : JSNumber Z := {|
  num_of_Z := fun z => z;
  num_truthy := fun z => negb (z =? 0)%Z;
  num_to_string := Z_to_string;
  num_of_literal := Z_of_literal;
|}.

(** ** Local rule-based generator: [generateLocalFlowchart] *)

(** [prompt.split(/→|->|,/)]: the pieces between successive matches of the
    separator, scanning left to right; the text always yields at least one
    piece, and the empty text yields the single empty piece. *)
Fixpoint split_prompt (s : jsstring) : list jsstring :=
  let push (c : N) (ps : list jsstring) : list jsstring :=
    match ps with
    | p :: ps' => (c :: p) :: ps'
    | [] => [[c]]
    end in
  match s with
  | [] => [[]]
  | c :: s' =>
      if ((c =? 8594) || (c =? 44))%N then [] :: split_prompt s'
      else
        match s' with
        | d :: s'' =>
            if ((c =? 45) && (d =? 62))%N then [] :: split_prompt s''
            else push c (split_prompt s')
        | [] => push c (split_prompt s')
        end
  end.

(** [.map((p) => p.trim()).filter((p) => p.length > 0)] *)
Definition prompt_parts (prompt : jsstring) : list jsstring :=
  List.filter (fun p => Nat.ltb 0 (length p)) (trim <$> split_prompt prompt).

(** [part.replace(/[()]/g, "")] *)
Definition remove_parens (s : jsstring) : jsstring :=
  List.filter (fun c => negb ((c =? 40) || (c =? 41))%N) s.

(** [a || b] on strings: the empty string is falsy. *)
Definition str_or (a b : jsstring) : jsstring :=
  match a with
  | [] => b
  | _ => a
  end.

Definition isDecision (part : jsstring) : bool :=
  includes (lit "check") part
  || includes (lit "verify") part
  || includes (lit "validate") part
  || includes (lit "if ") part
  || includes (lit "?") part.

Section LocalGenerator.
Context {num : Type} `{JSNumber num}.

Definition mk_node (id : jsstring) (t : NodeType) (x y : Z) (l : jsstring)
  : FlowchartNode num :=
  {| n_id := id; n_type := t;
     n_position := {| px := num_of_Z x; py := num_of_Z y |};
     n_data := {| label := l |} |}.

(** An edge with the id [`e-${source}-${target}`]. *)
Definition mk_edge (source target : jsstring) (l : option jsstring) : FlowchartEdge :=
  {| e_id := lit "e-" ++ source ++ lit "-" ++ target;
     e_source := source; e_target := target;
     e_label := l; e_animated := Some true |}.

Definition push_nodes (g : AIGeneratedFlow num) (ns : list (FlowchartNode num))
  : AIGeneratedFlow num :=
  {| nodes := nodes g ++ ns; edges := edges g |}.

Definition push_edges (g : AIGeneratedFlow num) (es : list FlowchartEdge)
  : AIGeneratedFlow num :=
  {| nodes := nodes g; edges := edges g ++ es |}.

(** The body of [for (let i = 1; i < Math.min(parts.length, 8); i++)],
    from the loop test on: the state is [i], [currentY], [lastNodeId] and
    the two arrays.  [fuel] bounds the number of iterations. *)
Fixpoint steps (fuel : nat) (parts : list jsstring) (i : nat) (currentY : Z)
         (lastNodeId : jsstring) (g : AIGeneratedFlow num) : AIGeneratedFlow num :=
  match fuel with
  | O => g
  | S fuel' =>
      if Nat.ltb i (Nat.min (length parts) 8) then
        let len := Z.of_nat (length parts) in
        let part := nth i parts [] in
        let nodeId := lit "step-" ++ nat_to_string i in
        if isDecision part && (Z.of_nat i <? len - 1)%Z then
          let yesId := nodeId ++ lit "-yes" in
          let noId := nodeId ++ lit "-no" in
          let isLast := (Z.of_nat i =? len - 2)%Z in
          let mergeId := lit "merge-" ++ nat_to_string i in
          let g1 := push_nodes g
                      [mk_node nodeId decision 250 currentY
                               (slice0 25 (remove_parens part))] in
          let g2 := push_edges g1 [mk_edge lastNodeId nodeId None] in
          let g3 := push_nodes g2
                      [mk_node yesId process 50 (currentY + 120) (lit "Continue")] in
          let g4 := push_edges g3 [mk_edge nodeId yesId (Some (lit "Yes"))] in
          let g5 := push_nodes g4
                      [mk_node noId process 450 (currentY + 120) (lit "Handle")] in
          let g6 := push_edges g5 [mk_edge nodeId noId (Some (lit "No"))] in
          let currentY' := (currentY + 240)%Z in
          let g7 := push_nodes g6
                      [mk_node mergeId (if isLast then startEnd else process)
                               250 currentY'
                               (if isLast then lit "End"
                                else str_or (default [] (slice0 25 <$> parts !! (i + 1)))
                                            (lit "Next"))] in
          let g8 := push_edges g7
                      [mk_edge yesId mergeId None; mk_edge noId mergeId None] in
          steps fuel' parts (i + 1 + 1) currentY' mergeId g8
        else
          let isEnd := (Z.of_nat i =? len - 1)%Z in
          let g1 := push_nodes g
                      [mk_node nodeId (if isEnd then startEnd else process)
                               250 currentY (slice0 25 (remove_parens part))] in
          let g2 := push_edges g1 [mk_edge lastNodeId nodeId None] in
          steps fuel' parts (i + 1) (currentY + 120) nodeId g2
      else g
  end.

(** [generateLocalFlowchart(prompt, type)].  The loop runs at most seven
    times, so eight units of fuel never run out ([steps_fuel] below). *)
Definition generateLocalFlowchart (prompt type : jsstring) : AIGeneratedFlow num :=
  let parts := prompt_parts prompt in
  if Nat.leb 3 (length parts) then
    steps 8 parts 1 120 (lit "start")
          {| nodes := [mk_node (lit "start") startEnd 250 0
                               (slice0 25 (remove_parens (nth 0 parts [])))];
             edges := [] |}
  else
    {| nodes := [ mk_node (lit "start") startEnd 250 0 (lit "Start");
                  mk_node (lit "process") process 250 120
                          (str_or (slice0 25 prompt) (lit "Process"));
                  mk_node (lit "end") startEnd 250 240 (lit "End") ];
       edges := [ {| e_id := lit "e1"; e_source := lit "start";
                     e_target := lit "process"; e_label := None;
                     e_animated := Some true |};
                  {| e_id := lit "e2"; e_source := lit "process";
                     e_target := lit "end"; e_label := None;
                     e_animated := Some true |} ] |}.
End LocalGenerator.

(** ** [JSON.parse]

    The JSON grammar of ECMA-404 as [JSON.parse] reads it: insignificant
    whitespace is space, tab, line feed and carriage return; a string
    holds no raw control character; a repeated key keeps its last value. *)

Definition json_ws (c : N) : bool :=
  ((c =? 32) || (c =? 9) || (c =? 10) || (c =? 13))%N.

Fixpoint skip_ws (s : jsstring) : jsstring :=
  match s with
  | c :: s' => if json_ws c then skip_ws s' else s
  | [] => []
  end.

Definition is_digit (c : N) : bool := ((48 <=? c) && (c <=? 57))%N.

Definition hex_value (c : N) : option N :=
  if is_digit c then Some (c - 48)%N
  else if ((97 <=? c) && (c <=? 102))%N then Some (c - 87)%N
  else if ((65 <=? c) && (c <=? 70))%N then Some (c - 55)%N
  else None.

(** The code unit of a one-letter escape. *)
Definition simple_escape (c : N) : option N :=
  if (c =? 34)%N then Some 34%N          (* quote *)
  else if (c =? 92)%N then Some 92%N     (* backslash *)
  else if (c =? 47)%N then Some 47%N     (* slash *)
  else if (c =? 98)%N then Some 8%N      (* backspace *)
  else if (c =? 102)%N then Some 12%N    (* form feed *)
  else if (c =? 110)%N then Some 10%N    (* line feed *)
  else if (c =? 114)%N then Some 13%N    (* carriage return *)
  else if (c =? 116)%N then Some 9%N     (* tab *)
  else None.

Definition cons_fst {A B} (a : A) (r : option (list A * B)) : option (list A * B) :=
  match r with
  | Some (l, b) => Some (a :: l, b)
  | None => None
  end.

(** The text after an opening quote: the decoded string and what follows
    the closing quote. *)
Fixpoint parse_string_body (s : jsstring) : option (jsstring * jsstring) :=
  match s with
  | [] => None
  | c :: rest =>
      if (c =? 34)%N then Some ([], rest)
      else if (c =? 92)%N then
        match rest with
        | [] => None
        | e :: rest1 =>
            if (e =? 117)%N then
              match rest1 with
              | h1 :: h2 :: h3 :: h4 :: rest2 =>
                  match hex_value h1, hex_value h2, hex_value h3, hex_value h4 with
                  | Some a, Some b, Some c', Some d =>
                      cons_fst (4096 * a + 256 * b + 16 * c' + d)%N
                               (parse_string_body rest2)
                  | _, _, _, _ => None
                  end
              | _ => None
              end
            else
              match simple_escape e with
              | Some u => cons_fst u (parse_string_body rest1)
              | None => None
              end
        end
      else if (c <? 32)%N then None
      else cons_fst c (parse_string_body rest)
  end.

Fixpoint span_digits (s : jsstring) : jsstring * jsstring :=
  match s with
  | c :: s' =>
      if is_digit c then let r := span_digits s' in (c :: r.1, r.2) else ([], s)
  | [] => ([], [])
  end.

(** A number literal [-? int frac? exp?]: its text and the rest. *)
Definition parse_number (s : jsstring) : option (jsstring * jsstring) :=
  let sign := match s with
              | c :: s' => if (c =? 45)%N then ([c], s') else ([], s)
              | [] => ([], s)
              end in
  int ← match sign.2 with
        | c :: s' =>
            if (c =? 48)%N then Some ([c], s')
            else if is_digit c then let r := span_digits s' in Some (c :: r.1, r.2)
            else None
        | [] => None
        end;
  frac ← match int.2 with
         | c :: s' =>
             if (c =? 46)%N then
               let r := span_digits s' in
               match r.1 with [] => None | _ => Some (c :: r.1, r.2) end
             else Some ([], int.2)
         | [] => Some ([], int.2)
         end;
  ex ← match frac.2 with
       | c :: s' =>
           if ((c =? 101) || (c =? 69))%N then
             let sg := match s' with
                       | d :: s'' =>
                           if ((d =? 43) || (d =? 45))%N then ([d], s'') else ([], s')
                       | [] => ([], s')
                       end in
             let r := span_digits sg.2 in
             match r.1 with [] => None | _ => Some (c :: sg.1 ++ r.1, r.2) end
           else Some ([], frac.2)
       | [] => Some ([], frac.2)
       end;
  Some (sign.1 ++ int.1 ++ frac.1 ++ ex.1, ex.2).

Section Extractor.
Context {num : Type} `{JSNumber num}.

(** Defining a property: a key already present keeps its place and takes
    the new value. *)
Fixpoint obj_set (k : jsstring) (v : JV num) (fields : list (jsstring * JV num))
  : list (jsstring * JV num) :=
  match fields with
  | [] => [(k, v)]
  | (k', v') :: rest =>
      if str_eqb k' k then (k', v) :: rest else (k', v') :: obj_set k v rest
  end.

(** Recursive descent.  A call descends only after consuming a code unit,
    so fuel above twice the length of the text never runs out
    ([parse_value_fuel] below). *)
Fixpoint parse_value (fuel : nat) (s : jsstring) : option (JV num * jsstring) :=
  match fuel with
  | O => None
  | S fuel' =>
      match skip_ws s with
      | [] => None
      | c :: r =>
          if (c =? 34)%N then
            match parse_string_body r with
            | Some (str, r') => Some (JStr str, r')
            | None => None
            end
          else if (c =? 123)%N then
            match skip_ws r with
            | d :: r' =>
                if (d =? 125)%N then Some (JObj [], r')
                else parse_members fuel' (d :: r') []
            | [] => None
            end
          else if (c =? 91)%N then
            match skip_ws r with
            | d :: r' =>
                if (d =? 93)%N then Some (JArr [], r')
                else parse_elements fuel' (d :: r') []
            | [] => None
            end
          else if starts_with (lit "true") (c :: r) then Some (JBool true, drop 4 (c :: r))
          else if starts_with (lit "false") (c :: r) then Some (JBool false, drop 5 (c :: r))
          else if starts_with (lit "null") (c :: r) then Some (JNull, drop 4 (c :: r))
          else
            match parse_number (c :: r) with
            | Some (text, r') => Some (JNum (num_of_literal text), r')
            | None => None
            end
      end
  end
with parse_elements (fuel : nat) (s : jsstring) (acc : list (JV num))
  : option (JV num * jsstring) :=
  match fuel with
  | O => None
  | S fuel' =>
      match parse_value fuel' s with
      | Some (v, r) =>
          match skip_ws r with
          | c :: r' =>
              if (c =? 44)%N then parse_elements fuel' r' (acc ++ [v])
              else if (c =? 93)%N then Some (JArr (acc ++ [v]), r')
              else None
          | [] => None
          end
      | None => None
      end
  end
with parse_members (fuel : nat) (s : jsstring) (acc : list (jsstring * JV num))
  : option (JV num * jsstring) :=
  match fuel with
  | O => None
  | S fuel' =>
      match skip_ws s with
      | q :: r =>
          if (q =? 34)%N then
            match parse_string_body r with
            | Some (key, r1) =>
                match skip_ws r1 with
                | colon :: r2 =>
                    if (colon =? 58)%N then
                      match parse_value fuel' r2 with
                      | Some (v, r3) =>
                          match skip_ws r3 with
                          | c :: r4 =>
                              if (c =? 44)%N
                              then parse_members fuel' r4 (obj_set key v acc)
                              else if (c =? 125)%N
                              then Some (JObj (obj_set key v acc), r4)
                              else None
                          | [] => None
                          end
                      | None => None
                      end
                    else None
                | [] => None
                end
            | None => None
            end
          else None
      | [] => None
      end
  end.

(** [JSON.parse(text)]; [None] is the SyntaxError. *)
Definition JSON_parse (text : jsstring) : option (JV num) :=
  match parse_value (S (2 * length text)) text with
  | Some (v, rest) => match skip_ws rest with [] => Some v | _ => None end
  | None => None
  end.

(** ** Structured-text extractor: [extractJSON] *)

(** [parsed.nodes && parsed.edges].  On [null] the property read raises
    inside the [try], which the [catch] turns into "continue", the same
    as a falsy test. *)
Definition graph_shaped (parsed : JV num) : bool :=
  truthy_opt (get (lit "nodes") parsed) && truthy_opt (get (lit "edges") parsed).

(** [try { const parsed = JSON.parse(text); if (...) return parsed } catch {}] *)
Definition try_parse (text : jsstring) : option (JV num) :=
  match JSON_parse text with
  | Some parsed => if graph_shaped parsed then Some parsed else None
  | None => None
  end.

(** Three backticks. *)
Definition fence : jsstring := [96; 96; 96]%N.

(** Capture group 1 of [raw.match(/```(?:json)?\s*\n?([\s\S]*?)```/)].
    A match can only begin at the first fence: a later fence that could
    open a match could also close one begun at the first.  There the
    greedy [(?:json)?] and [\s*] take the tag and the whole whitespace
    run (leaving nothing for [\n?]); the lazy group then ends at the next
    fence.  Giving back some of the tag or whitespace never helps, since
    no fence starts inside them, so without a later fence there is no
    match at all. *)
Definition fenceMatch (raw : jsstring) : option jsstring :=
  i ← index_of fence raw;
  let after := drop (i + 3) raw in
  let untagged := if starts_with (lit "json") after then drop 4 after else after in
  let body := trim_start untagged in
  j ← index_of fence body;
  Some (take j body).

(** The text ["nodes"], quotes included. *)
Definition quoted_nodes : jsstring := [34%N] ++ lit "nodes" ++ [34%N].

(** Whether [raw.match(/(\{[\s\S]*"nodes"[\s\S]*\})/)] matches: an opening
    brace, later the quoted word, later a closing brace. *)
Definition braceMatch (raw : jsstring) : bool :=
  match index_of [123%N] raw with
  | Some a =>
      let r1 := drop (a + 1) raw in
      match index_of quoted_nodes r1 with
      | Some b => includes [125%N] (drop (b + 7) r1)
      | None => false
      end
  | None => false
  end.

(** The depth-tracking loop [for (let i = 0; i < raw.length; i++)];
    [rest] is the text from position [i] on, so its head is [raw[i]]. *)
Fixpoint scan (raw rest : jsstring) (i : nat) (depth start : Z) : option (JV num) :=
  match rest with
  | [] => None
  | c :: rest' =>
      if (c =? 123)%N then
        scan raw rest' (i + 1) (depth + 1)%Z
             (if (depth =? 0)%Z then Z.of_nat i else start)
      else if (c =? 125)%N then
        let depth' := (depth - 1)%Z in
        let hit :=
          if (depth' =? 0)%Z && (0 <=? start)%Z then
            let candidate := slice (Z.to_nat start) (i + 1) raw in
            if includes quoted_nodes candidate then try_parse candidate else None
          else None in
        match hit with
        | Some parsed => Some parsed
        | None => scan raw rest' (i + 1) depth' start
        end
      else scan raw rest' (i + 1) depth start
  end.

(** The three strategies on a string. *)
Definition extract_text (raw : jsstring) : option (JV num) :=
  match try_parse (trim raw) with
  | Some parsed => Some parsed
  | None =>
      match from_option (fun m => try_parse (trim m)) None (fenceMatch raw) with
      | Some parsed => Some parsed
      | None => if braceMatch raw then scan raw raw 0 0 (-1) else None
      end
  end.

(** [extractJSON(raw)]: [!raw || typeof raw !== "string"] gives [null]. *)
Definition extractJSON (raw : JV num) : option (JV num) :=
  match raw with
  | JStr (c :: s) => extract_text (c :: s)
  | _ => None
  end.

(** A payload wrapped in a fence, optionally tagged [json], as in
    [```json\n{...}\n```]. *)
Definition fenced (tagged : bool) (p : jsstring) : jsstring :=
  fence ++ (if tagged then lit "json" else []) ++ [10%N] ++ p ++ [10%N] ++ fence.
End Extractor.

(** ** Provider adapters and the [POST] handler *)

(** [process.env]: the two credentials, absent when not configured. *)
Record Env : Type := {
  NVIDIA_NIM_API_KEY : option jsstring;
  KIMI_API_KEY : option jsstring;
}.

(** What determines a chat-completion request: the endpoint, the bearer
    key, the model, and the two values the messages are built from. *)
Record ChatRequest : Type := {
  url : jsstring;
  bearer : jsstring;
  model : jsstring;
  for_diagramType : jsstring;
  for_prompt : jsstring;
}.

(** The outcomes of [await fetchWithTimeout(...)] followed by
    [await response.json()]. *)
Inductive FetchResult (num : Type) : Type :=
| FetchRejected                      (* network error, or aborted by the 30 s timer *)
| HttpNotOk                          (* [!response.ok] *)
| HttpOk (body : option (JV num)).   (* [None]: [response.json()] rejects *)

Arguments FetchRejected {num}.
Arguments HttpNotOk {num}.
Arguments HttpOk {num} body.

(** [interface GenerateRequest] *)
Record GenerateRequest : Type := {
  prompt : jsstring;
  diagramType : jsstring;
}.

(** The JSON responses of the handler. *)
Inductive Response (num : Type) : Type :=
| Success (flow : AIGeneratedFlow num) (req : GenerateRequest) (usedAI : jsstring)
| BadRequest        (* status 400, "Prompt is required" *)
| ServerError.      (* status 500, "Failed to generate flowchart" *)

Arguments Success {num} flow req usedAI.
Arguments BadRequest {num}.
Arguments ServerError {num}.

Section Handler.
Context {num : Type} `{JSNumber num}.

(** The remote services, as the answers they give. *)
Variable fetchWithTimeout : ChatRequest -> FetchResult num.

(** [v?.[0]]: arrays and strings are indexed, objects read the key "0". *)
Definition get_index0 (v : option (JV num)) : option (JV num) :=
  match v with
  | Some (JArr (x :: _)) => Some x
  | Some (JStr (c :: _)) => Some (JStr [c])
  | Some (JObj fields) => own (lit "0") fields
  | _ => None
  end.

(** From [const data = await response.json()] to the end of the [try]
    block, which both adapters share word for word; every exception is
    caught and yields [null]. *)
Definition flow_of_completion (data : JV num) : option (AIGeneratedFlow num) :=
  match data with
  | JNull => None      (* [data.choices] raises, caught *)
  | _ =>
      let content :=
        get_opt (lit "content")
                (get_opt (lit "message") (get_index0 (get (lit "choices") data))) in
      match content with
      | Some c =>
          if truthy c then
            match extractJSON c with
            | Some extracted =>
                match validateFlowchart extracted with
                | Val (Some validated) => Some validated
                | Val None => None
                | Raise => None
                end
            | None => None
            end
          else None
      | None => None
      end
  end.

Definition flow_of_fetch (r : FetchResult num) : option (AIGeneratedFlow num) :=
  match r with
  | HttpOk (Some data) => flow_of_completion data
  | _ => None
  end.

(** [callNvidiaNIM(prompt, diagramType, model)] *)
Definition callNvidiaNIM (env : Env) (prompt diagramType model : jsstring)
  : option (AIGeneratedFlow num) :=
  match NVIDIA_NIM_API_KEY env with
  | None | Some [] => None
  | Some apiKey =>
      flow_of_fetch
        (fetchWithTimeout
           {| url := lit "https://integrate.api.nvidia.com/v1/chat/completions";
              bearer := apiKey; model := model;
              for_diagramType := diagramType; for_prompt := prompt |})
  end.

(** [callKimi(prompt, diagramType)] *)
Definition callKimi (env : Env) (prompt diagramType : jsstring)
  : option (AIGeneratedFlow num) :=
  match KIMI_API_KEY env with
  | None | Some [] => None
  | Some apiKey =>
      flow_of_fetch
        (fetchWithTimeout
           {| url := lit "https://api.moonshot.ai/v1/chat/completions";
              bearer := apiKey; model := lit "moonshot-v1-8k";
              for_diagramType := diagramType; for_prompt := prompt |})
  end.

(** [POST(request)]; [body] is [None] when [request.json()] rejects. *)
Definition POST (env : Env) (body : option GenerateRequest) : Response num :=
  match body with
  | None => ServerError
  | Some req =>
      match prompt req with
      | [] => BadRequest
      | _ =>
          match callNvidiaNIM env (prompt req) (diagramType req) (lit "z-ai/glm4.7") with
          | Some flowchart => Success flowchart req (lit "nvidia-nim")
          | None =>
              match callNvidiaNIM env (prompt req) (diagramType req)
                                  (lit "moonshotai/kimi-k2-instruct") with
              | Some flowchart => Success flowchart req (lit "kimi-via-nim")
              | None =>
                  match callKimi env (prompt req) (diagramType req) with
                  | Some flowchart => Success flowchart req (lit "kimi")
                  | None =>
                      Success (generateLocalFlowchart (prompt req) (diagramType req))
                              req (lit "local")
                  end
              end
          end
      end
  end.
End Handler.

(** ** Vocabulary of the statements *)

Section Statements.
Context {num : Type} `{JSNumber num}.

(** The result of a possibly raising test, an exception counting as a
    failed test. *)
Definition holds {A} (p : A -> exn bool) (a : A) : bool :=
  match p a with
  | Val b => b
  | Raise => false
  end.

(** The string form of a raw field is one of [ids]. *)
Definition in_ids (ids : list jsstring) (v : option (JV num)) : bool :=
  match to_str_opt v with
  | Val s => bool_decide (s ∈ ids)
  | Raise => false
  end.

(** A raw edge entry has a truthy source and target whose string forms
    are both among [ids]. *)
Definition edge_survives (ids : list jsstring) (raw : JV num) : bool :=
  truthy_opt (get (lit "source") raw)
  && truthy_opt (get (lit "target") raw)
  && in_ids ids (get (lit "source") raw)
  && in_ids ids (get (lit "target") raw).

(** A raw node entry has a truthy id and a truthy label. *)
Definition node_survives (raw : JV num) : bool :=
  truthy_opt (get (lit "id") raw)
  && truthy_opt (get_opt (lit "label") (get (lit "data") raw)).

(** How a sanitized node relates to the raw entry it was kept from. *)
Record node_pass (raw : JV num) (n : FlowchartNode num) : Prop := {
  pass_id : to_str_opt (get (lit "id") raw) = Val (n_id n);
  pass_type_known :
    forall t, get (lit "type") raw = Some (JStr (type_name t)) -> n_type n = t;
  pass_type_other :
    (forall t, get (lit "type") raw <> Some (JStr (type_name t))) ->
    n_type n = process;
  pass_x_number :
    forall a, get_opt (lit "x") (get (lit "position") raw) = Some (JNum a) ->
              px (n_position n) = a;
  pass_x_default :
    (forall a, get_opt (lit "x") (get (lit "position") raw) <> Some (JNum a)) ->
    px (n_position n) = num_of_Z 250;
  pass_y_number :
    forall a, get_opt (lit "y") (get (lit "position") raw) = Some (JNum a) ->
              py (n_position n) = a;
  pass_y_default :
    (forall a, get_opt (lit "y") (get (lit "position") raw) <> Some (JNum a)) ->
    py (n_position n) = num_of_Z 0;
  pass_label :
    exists l, to_str_opt (get_opt (lit "label") (get (lit "data") raw)) = Val l
              /\ label (n_data n) = take 40 l;
  pass_label_length : length (label (n_data n)) <= 40;
}.

(** No string of the graph that the sanitizer tests for truthiness is
    empty. *)
Definition strings_nonempty (g : AIGeneratedFlow num) : Prop :=
  Forall (fun n => n_id n <> [] /\ label (n_data n) <> []) (nodes g)
  /\ Forall (fun e => e_id e <> [] /\ e_label e <> Some []) (edges g).

(** The Graph invariants of the specification: some node, every edge
    between listed nodes, every edge animated. *)
Record graph_invariants (g : AIGeneratedFlow num) : Prop := {
  inv_nonempty : nodes g <> [];
  inv_endpoints :
    forall e, e ∈ edges g ->
              e_source e ∈ node_ids (nodes g) /\ e_target e ∈ node_ids (nodes g);
  inv_animated : forall e, e ∈ edges g -> e_animated e = Some true;
}.

(** *** The local generator's loop, one iteration at a time *)

Definition step_id (i : nat) : jsstring := lit "step-" ++ nat_to_string i.
Definition merge_id (i : nat) : jsstring := lit "merge-" ++ nat_to_string i.

(** The loop bound [Math.min(parts.length, 8)]. *)
Definition bound (parts : list jsstring) : nat := Nat.min (length parts) 8.

(** The test [isDecision && i < parts.length - 1]. *)
Definition fans_out (parts : list jsstring) (i : nat) : bool :=
  isDecision (nth i parts []) && (Z.of_nat i <? Z.of_nat (length parts) - 1)%Z.

(** The four nodes a decision step pushes. *)
Definition decision_nodes (parts : list jsstring) (i : nat) (y : Z)
  : list (FlowchartNode num) :=
  let isLast := (Z.of_nat i =? Z.of_nat (length parts) - 2)%Z in
  [ mk_node (step_id i) decision 250 y (slice0 25 (remove_parens (nth i parts [])));
    mk_node (step_id i ++ lit "-yes") process 50 (y + 120) (lit "Continue");
    mk_node (step_id i ++ lit "-no") process 450 (y + 120) (lit "Handle");
    mk_node (merge_id i) (if isLast then startEnd else process) 250 (y + 240)
            (if isLast then lit "End"
             else str_or (default [] (slice0 25 <$> parts !! (i + 1))) (lit "Next")) ].

(** The five edges a decision step pushes. *)
Definition decision_edges (last : jsstring) (i : nat) : list FlowchartEdge :=
  [ mk_edge last (step_id i) None;
    mk_edge (step_id i) (step_id i ++ lit "-yes") (Some (lit "Yes"));
    mk_edge (step_id i) (step_id i ++ lit "-no") (Some (lit "No"));
    mk_edge (step_id i ++ lit "-yes") (merge_id i) None;
    mk_edge (step_id i ++ lit "-no") (merge_id i) None ].

(** The node a plain step pushes. *)
Definition plain_node (parts : list jsstring) (i : nat) (y : Z) : FlowchartNode num :=
  mk_node (step_id i)
          (if (Z.of_nat i =? Z.of_nat (length parts) - 1)%Z then startEnd else process)
          250 y (slice0 25 (remove_parens (nth i parts []))).

(** [reach parts i j]: started with the loop variable at [i], the loop
    later tests its condition with the variable at [j].  A plain step
    moves on by one, a decision step by two (its [i++] and the loop's). *)
Inductive reach (parts : list jsstring) : nat -> nat -> Prop :=
| reach_here i : reach parts i i
| reach_plain i j :
    i < bound parts -> fans_out parts i = false ->
    reach parts (i + 1) j -> reach parts i j
| reach_decision i j :
    i < bound parts -> fans_out parts i = true ->
    reach parts (i + 1 + 1) j -> reach parts i j.

(** Segment [i] is handled as a step of the loop: the loop, started at 1,
    runs its body with the variable at [i]. *)
Definition is_step (parts : list jsstring) (i : nat) : Prop :=
  reach parts 1 i /\ i < bound parts.

(** The fan-out of a decision step [i] over segment text [part]: the
    decision node, its two labelled branches, and the merge node that
    both branches rejoin. *)
Record decision_fanout (g : AIGeneratedFlow num) (i : nat) (part : jsstring)
  : Prop := {
  fan_decision :
    exists y, mk_node (step_id i) decision 250 y (slice0 25 (remove_parens part))
              ∈ nodes g
              /\ mk_node (step_id i ++ lit "-yes") process 50 (y + 120) (lit "Continue")
                 ∈ nodes g
              /\ mk_node (step_id i ++ lit "-no") process 450 (y + 120) (lit "Handle")
                 ∈ nodes g;
  fan_merge : exists m, m ∈ nodes g /\ n_id m = merge_id i;
  fan_yes :
    mk_edge (step_id i) (step_id i ++ lit "-yes") (Some (lit "Yes")) ∈ edges g;
  fan_no :
    mk_edge (step_id i) (step_id i ++ lit "-no") (Some (lit "No")) ∈ edges g;
  fan_yes_merge : mk_edge (step_id i ++ lit "-yes") (merge_id i) None ∈ edges g;
  fan_no_merge : mk_edge (step_id i ++ lit "-no") (merge_id i) None ∈ edges g;
}.

(** The fixed three-node skeleton around a process label. *)
Definition skeleton (text : jsstring) : AIGeneratedFlow num :=
  {| nodes := [ mk_node (lit "start") startEnd 250 0 (lit "Start");
                mk_node (lit "process") process 250 120 text;
                mk_node (lit "end") startEnd 250 240 (lit "End") ];
     edges := [ {| e_id := lit "e1"; e_source := lit "start";
                   e_target := lit "process"; e_label := None;
                   e_animated := Some true |};
                {| e_id := lit "e2"; e_source := lit "process";
                   e_target := lit "end"; e_label := None;
                   e_animated := Some true |} ] |}.

(** Each edge joins a node to the next one of the node list, in order. *)
Definition linear_chain (g : AIGeneratedFlow num) : Prop :=
  (fun e => (e_source e, e_target e)) <$> edges g
  = zip (node_ids (nodes g)) (tail (node_ids (nodes g))).
End Statements.

(** ** Closed inputs used by the examples *)

(** A literal in which an apostrophe stands for a double quote. *)
Definition dq (s : string) : jsstring :=
  (fun c => if (c =? 39)%N then 34%N else c) <$> lit s.

(** [{nodes: [{id: "a", type: "decision", position: {x: 10, y: 20},
               data: {label: "A"}},
              {id: "b", data: {label: "B"}},
              {id: "", data: {label: "C"}}],
      edges: [{source: "a", target: "b"}, {source: "a", target: "zz"}]}] *)
Definition two_node_input : JV Z :=
  JObj [ (lit "nodes",
          JArr [ JObj [ (lit "id", JStr (lit "a"));
                        (lit "type", JStr (lit "decision"));
                        (lit "position", JObj [ (lit "x", JNum 10%Z); (lit "y", JNum 20%Z) ]);
                        (lit "data", JObj [ (lit "label", JStr (lit "A")) ]) ];
                 JObj [ (lit "id", JStr (lit "b"));
                        (lit "data", JObj [ (lit "label", JStr (lit "B")) ]) ];
                 JObj [ (lit "id", JStr []);
                        (lit "data", JObj [ (lit "label", JStr (lit "C")) ]) ] ]);
         (lit "edges",
          JArr [ JObj [ (lit "source", JStr (lit "a")); (lit "target", JStr (lit "b")) ];
                 JObj [ (lit "source", JStr (lit "a")); (lit "target", JStr (lit "zz")) ] ]) ].

(** The two arrays of [two_node_input]. *)
Definition two_node_raws : list (JV Z) :=
  [ JObj [ (lit "id", JStr (lit "a"));
           (lit "type", JStr (lit "decision"));
           (lit "position", JObj [ (lit "x", JNum 10%Z); (lit "y", JNum 20%Z) ]);
           (lit "data", JObj [ (lit "label", JStr (lit "A")) ]) ];
    JObj [ (lit "id", JStr (lit "b"));
           (lit "data", JObj [ (lit "label", JStr (lit "B")) ]) ];
    JObj [ (lit "id", JStr []);
           (lit "data", JObj [ (lit "label", JStr (lit "C")) ]) ] ].

Definition two_node_edges : list (JV Z) :=
  [ JObj [ (lit "source", JStr (lit "a")); (lit "target", JStr (lit "b")) ];
    JObj [ (lit "source", JStr (lit "a")); (lit "target", JStr (lit "zz")) ] ].

Definition two_node_graph : AIGeneratedFlow Z :=
  {| nodes := [ mk_node (lit "a") decision 10 20 (lit "A");
                mk_node (lit "b") process 250 0 (lit "B") ];
     edges := [ mk_edge (lit "a") (lit "b") None ] |}.

(** [{nodes: [{data: {label: "A"}}, {id: "b"}, null], edges: []}]: no entry
    has both an id and a label. *)
Definition no_valid_node_input : JV Z :=
  JObj [ (lit "nodes",
          JArr [ JObj [ (lit "data", JObj [ (lit "label", JStr (lit "A")) ]) ];
                 JObj [ (lit "id", JStr (lit "b")) ];
                 JNull ]);
         (lit "edges", JArr []) ].

(** [{nodes: [{id: [], data: {label: "a"}}], edges: []}]: the id is an
    empty array, which is truthy and prints as the empty string. *)
Definition empty_array_id_input : JV Z :=
  JObj [ (lit "nodes",
          JArr [ JObj [ (lit "id", JArr []);
                        (lit "data", JObj [ (lit "label", JStr (lit "a")) ]) ] ]);
         (lit "edges", JArr []) ].

Definition empty_id_graph : AIGeneratedFlow Z :=
  {| nodes := [ mk_node [] process 250 0 (lit "a") ]; edges := [] |}.

(** The text [{"nodes":[{"id":[],"data":{"label":"a"}}],"edges":[]}], which
    decodes to [empty_array_id_input]. *)
Definition empty_array_id_text : jsstring :=
  dq "{'nodes':[{'id':[],'data':{'label':'a'}}],'edges':[]}".

(** A chat completion whose content is [empty_array_id_text]. *)
Definition empty_array_id_reply : JV Z :=
  JObj [ (lit "choices",
          JArr [ JObj [ (lit "message",
                         JObj [ (lit "content", JStr empty_array_id_text) ]) ] ]) ].

Definition receive_order_prompt : jsstring :=
  lit "receive order, check stock, ship order".

(** What the generator builds for [receive_order_prompt]: the second
    segment holds the keyword "check" and is not the last one. *)
Definition receive_order_graph {num} `{JSNumber num} : AIGeneratedFlow num :=
  {| nodes := [ mk_node (lit "start") startEnd 250 0 (lit "receive order");
                mk_node (lit "step-1") decision 250 120 (lit "check stock");
                mk_node (lit "step-1-yes") process 50 240 (lit "Continue");
                mk_node (lit "step-1-no") process 450 240 (lit "Handle");
                mk_node (lit "merge-1") startEnd 250 360 (lit "End") ];
     edges := [ mk_edge (lit "start") (lit "step-1") None;
                mk_edge (lit "step-1") (lit "step-1-yes") (Some (lit "Yes"));
                mk_edge (lit "step-1") (lit "step-1-no") (Some (lit "No"));
                mk_edge (lit "step-1-yes") (lit "merge-1") None;
                mk_edge (lit "step-1-no") (lit "merge-1") None ] |}.

Definition visit_site_prompt : jsstring :=
  lit "visit site, verify email, create profile".

Definition launch_prompt : jsstring := lit "launch product".

(** The keyword sits in the first segment, which becomes the start node. *)
Definition check_first_prompt : jsstring := lit "check stock, pack, ship".

(** The third segment holds a keyword but follows a decision step, which
    takes it as the label of its merge node. *)
Definition check_then_verify_prompt : jsstring := lit "a, check b, verify c, d".



(** The claim of the specification's first example, as it is worded: a
    chain of three or more nodes from a [startEnd] node labelled [seg0] to
    a [startEnd] node, each edge animated and joining a node to the next,
    and no decision node. *)
Definition linear_startEnd_chain {num} (seg0 : jsstring) (g : AIGeneratedFlow num)
  : Prop :=
  3 <= length (nodes g)
  /\ (exists n, head (nodes g) = Some n
                /\ n_type n = startEnd /\ label (n_data n) = seg0)
  /\ (exists n, last (nodes g) = Some n /\ n_type n = startEnd)
  /\ linear_chain g
  /\ Forall (fun e => e_animated e = Some true) (edges g)
  /\ Forall (fun n => n_type n <> decision) (nodes g).



(** Every edge joins listed nodes and is animated. *)
Definition edges_ok {num} (g : AIGeneratedFlow num) : Prop :=
  forall e, e ∈ edges g ->
            (e_source e ∈ node_ids (nodes g) /\ e_target e ∈ node_ids (nodes g))
            /\ e_animated e = Some true.

(** No credential is configured. *)
Definition no_credentials : Env :=
  {| NVIDIA_NIM_API_KEY := None; KIMI_API_KEY := None |}.

(** Remote services that cannot be reached. *)
Definition unreachable : ChatRequest -> FetchResult Z := fun _ => FetchRejected.

Definition launch_request : GenerateRequest :=
  {| prompt := launch_prompt; diagramType := lit "process" |}.

(** [{"nodes":[{"id":"a","data":{"label":"A"}}],"edges":[]}] *)
Definition plain_payload : jsstring :=
  dq "{'nodes':[{'id':'a','data':{'label':'A'}}],'edges':[]}".

(** [{"nodes":[{"id":"a","data":{"label":"```{"}}],"edges":[]}]: valid JSON
    whose label holds a fence and an opening brace. *)
Definition backtick_payload : jsstring :=
  dq "{'nodes':[{'id':'a','data':{'label':'```{'}}],'edges':[]}".

Definition backtick_value : JV Z :=
  JObj [ (lit "nodes",
          JArr [ JObj [ (lit "id", JStr (lit "a"));
                        (lit "data", JObj [ (lit "label", JStr (lit "```{")) ]) ] ]);
         (lit "edges", JArr []) ].

(** ** Vocabulary of the further properties *)

Section MoreStatements.
Context {num : Type} `{JSNumber num}.

(** How a sanitized edge relates to the raw entry it was kept from. *)
Record edge_pass (raw : JV num) (e : FlowchartEdge) : Prop := {
  epass_source : to_str_opt (get (lit "source") raw) = Val (e_source e);
  epass_target : to_str_opt (get (lit "target") raw) = Val (e_target e);
  epass_id_given :
    truthy_opt (get (lit "id") raw) = true ->
    to_str_opt (get (lit "id") raw) = Val (e_id e);
  epass_id_made :
    truthy_opt (get (lit "id") raw) = false ->
    e_id e = lit "e-" ++ e_source e ++ lit "-" ++ e_target e;
  epass_label_given :
    truthy_opt (get (lit "label") raw) = true ->
    exists l, to_str_opt (get (lit "label") raw) = Val l /\ e_label e = Some l;
  epass_label_absent :
    truthy_opt (get (lit "label") raw) = false -> e_label e = None;
  epass_animated : e_animated e = Some true;
}.

(** The object [{nodes: raws, edges: es}]. *)
Definition graph_value (raws es : list (JV num)) : JV num :=
  JObj [ (lit "nodes", JArr raws); (lit "edges", JArr es) ].

(** Some object inside the value has an own property named [toString]. *)
Fixpoint has_toString (v : JV num) : bool :=
  match v with
  | JArr items => existsb has_toString items
  | JObj fields =>
      match own (lit "toString") fields with
      | Some _ => true
      | None => existsb (fun kv => has_toString kv.2) fields
      end
  | _ => false
  end.
End MoreStatements.

(** [text] is a contiguous piece of [raw]. *)
Definition piece_of (text raw : jsstring) : Prop :=
  exists before after, raw = before ++ text ++ after.

(** Read with the brace depth at [depth], the text brings it back to zero
    at its last character and not before. *)
Fixpoint closes (depth : Z) (s : jsstring) : bool :=
  match s with
  | [] => false
  | c :: s' =>
      if (c =? 123)%N then closes (depth + 1) s'
      else if (c =? 125)%N then
        if (depth - 1 =? 0)%Z then match s' with [] => true | _ => false end
        else closes (depth - 1) s'
      else closes depth s'
  end.

(** The ids a loop turn at index [i] can give to nodes. *)
Definition ids_at (i : nat) : list jsstring :=
  [ lit "step-" ++ nat_to_string i;
    lit "step-" ++ nat_to_string i ++ lit "-yes";
    lit "step-" ++ nat_to_string i ++ lit "-no";
    lit "merge-" ++ nat_to_string i ].

(** The ids of the turns from index [i] up to the cap. *)
Definition ids_from (i : nat) : list jsstring := concat (ids_at <$> seq i (8 - i)).

(** The most nodes and edges the loop can still push with its variable at
    [i]: a decision turn pushes four nodes and five edges and moves on by
    two, a plain turn pushes one of each and moves on by one. *)
Definition node_budget (i : nat) : nat := nth i [17; 16; 13; 12; 9; 8; 5; 4] 0.
Definition edge_budget (i : nat) : nat := nth i [21; 20; 16; 15; 11; 10; 6; 5] 0.

(** Every listed node id is [start] or the target of an edge. *)
Definition reached {num} (g : AIGeneratedFlow num) : Prop :=
  forall id, id ∈ node_ids (nodes g) ->
             id = lit "start" \/ id ∈ (e_target <$> edges g).

(** A text holds none of the separators of the prompt: no comma, no arrow
    character and no "->". *)
Definition sep_free (p : jsstring) : Prop :=
  ~ In 44%N p /\ ~ In 8594%N p /\ includes [45; 62]%N p = false.

(** A segment as [prompt_parts] returns them: not empty, trimmed, and
    free of separators. *)
Definition segment (p : jsstring) : Prop := p <> [] /\ trim p = p /\ sep_free p.

(** The segments written one after the other, a comma and a space between
    them. *)
Fixpoint join_segments (parts : list jsstring) : jsstring :=
  match parts with
  | [] => []
  | [p] => p
  | p :: rest => p ++ lit ", " ++ join_segments rest
  end.

(** [handleGenerate] of the builder page, up to the request it sends: the
    guard [if (!prompt.trim()) return] and the body
    [JSON.stringify({ prompt, diagramType })]. *)
Definition handleGenerate_request (prompt diagramType : jsstring)
  : option GenerateRequest :=
  match trim prompt with
  | [] => None
  | _ => Some {| prompt := prompt; diagramType := diagramType |}
  end.

(** The local [push] of [split_prompt]: a character put in front of the
    first piece. *)
Definition push_char (c : N) (ps : list jsstring) : list jsstring :=
  match ps with
  | p :: ps' => (c :: p) :: ps'
  | [] => [[c]]
  end.


(** The provenance line of the builder page: the state is set by
    [setUsedAI(data.usedAI || "")], nothing is shown for the empty
    string, and the name shown is chosen by the chain of [===] tests. *)
Definition provenance_badge (usedAI : jsstring) : option jsstring :=
  match usedAI with
  | [] => None
  | _ =>
      Some (if str_eqb usedAI (lit "nvidia-nim") then lit "NVIDIA NIM (GLM 4.7)"
            else if str_eqb usedAI (lit "kimi-via-nim") then lit "Kimi K2 (via NIM)"
            else if str_eqb usedAI (lit "kimi") then lit "Kimi (Moonshot)"
            else lit "Local engine")
  end.

(** ** Closed inputs of the further properties *)

(** [[{id: "a", type: "decision", position: {x: 10, y: 20}, data: {label: "A"}},
      {id: "b", data: {label: "B"}},
      {id: "", data: {label: "C"}}]] *)
Definition three_raw_nodes : list (JV Z) :=
  [ JObj [ (lit "id", JStr (lit "a"));
           (lit "type", JStr (lit "decision"));
           (lit "position", JObj [ (lit "x", JNum 10%Z); (lit "y", JNum 20%Z) ]);
           (lit "data", JObj [ (lit "label", JStr (lit "A")) ]) ];
    JObj [ (lit "id", JStr (lit "b"));
           (lit "data", JObj [ (lit "label", JStr (lit "B")) ]) ];
    JObj [ (lit "id", JStr []);
           (lit "data", JObj [ (lit "label", JStr (lit "C")) ]) ] ].

(** [{id: 7, source: "a", target: "b", label: "go"}] *)
Definition edge_a_b : JV Z :=
  JObj [ (lit "id", JNum 7%Z); (lit "source", JStr (lit "a"));
         (lit "target", JStr (lit "b")); (lit "label", JStr (lit "go")) ].

(** [{source: "a", target: "zz"}]: no node is called [zz]. *)
Definition edge_a_zz : JV Z :=
  JObj [ (lit "source", JStr (lit "a")); (lit "target", JStr (lit "zz")) ].

(** [{source: "b", target: "a", label: ""}] *)
Definition edge_b_a : JV Z :=
  JObj [ (lit "source", JStr (lit "b")); (lit "target", JStr (lit "a"));
         (lit "label", JStr []) ].

Definition labelled_edges_input : JV Z :=
  graph_value three_raw_nodes ([edge_a_b] ++ edge_a_zz :: [edge_b_a]).

Definition labelled_edges_graph : AIGeneratedFlow Z :=
  {| nodes := [ mk_node (lit "a") decision 10 20 (lit "A");
                mk_node (lit "b") process 250 0 (lit "B") ];
     edges := [ {| e_id := lit "7"; e_source := lit "a"; e_target := lit "b";
                   e_label := Some (lit "go"); e_animated := Some true |};
                mk_edge (lit "b") (lit "a") None ] |}.

(** The part of [plain_payload] between the quoted word "nodes" and the
    last closing brace. *)
Definition plain_payload_rest : jsstring :=
  dq ":[{'id':'a','data':{'label':'A'}}],'edges':[]".

(** The value that [plain_payload] decodes to. *)
Definition plain_value : JV Z :=
  JObj [ (lit "nodes",
          JArr [ JObj [ (lit "id", JStr (lit "a"));
                        (lit "data", JObj [ (lit "label", JStr (lit "A")) ]) ] ]);
         (lit "edges", JArr []) ].

(** The graph the sanitizer makes of [plain_value]. *)
Definition plain_graph : AIGeneratedFlow Z :=
  {| nodes := [ mk_node (lit "a") process 250 0 (lit "A") ]; edges := [] |}.

(** A provider's answer in which prose surrounds the payload. *)
Definition prose_answer : jsstring :=
  lit "Here you go: " ++ plain_payload ++ lit " done".

Definition three_segments : list jsstring :=
  [ lit "receive order"; lit "check stock"; lit "ship order" ].

(** The NVIDIA NIM credential is configured, the Kimi one is not. *)
Definition nim_configured : Env :=
  {| NVIDIA_NIM_API_KEY := Some (lit "nvapi-example"); KIMI_API_KEY := None |}.

(** Remote services that answer every request with a completion whose
    content is [prose_answer]. *)
Definition answering : ChatRequest -> FetchResult Z := fun _ =>
  HttpOk (Some (JObj [ (lit "choices",
                        JArr [ JObj [ (lit "message",
                                       JObj [ (lit "content", JStr prose_answer) ]) ] ]) ])).

(** The values [lastNodeId] can hold when the loop variable is [i]: its
    initial value, the id of a plain step just before, or the merge id of
    a decision step two before. *)
Definition last_ids (i : nat) : list jsstring :=
  [ lit "start"; step_id (i - 1); merge_id (i - 2) ].

(** The ids a loop turn at index [i] can give to edges. *)
Definition edge_ids_at (i : nat) : list jsstring :=
  ((fun last => e_id (mk_edge last (step_id i) None)) <$> last_ids i)
  ++ (e_id <$> drop 1 (decision_edges [] i)).

Definition edge_ids_from (i : nat) : list jsstring :=
  concat (edge_ids_at <$> seq i (8 - i)).

(** [path es a b]: the edges [es] lead from the node [a] to the node [b]. *)
Inductive path (es : list FlowchartEdge) (a : jsstring) : jsstring -> Prop :=
| path_here : path es a a
| path_step e : path es a (e_source e) -> e ∈ es -> path es a (e_target e).

(** Every listed node can be reached from [start] along the edges. *)
Definition connected {num} (g : AIGeneratedFlow num) : Prop :=
  forall id, id ∈ node_ids (nodes g) -> path (edges g) (lit "start") id.

(** Every edge leads from a listed node to one listed after it. *)
Definition forward {num} (g : AIGeneratedFlow num) : Prop :=
  forall e, e ∈ edges g ->
    exists i j, i < j
                /\ node_ids (nodes g) !! i = Some (e_source e)
                /\ node_ids (nodes g) !! j = Some (e_target e).

(** * Properties *)

(** ** The model on small inputs *)

Example split_on_arrows_and_commas :
  prompt_parts (lit "a -> b" ++ [8594%N] ++ lit "c - > d,,e, ")
  = [lit "a"; lit "b"; lit "c - > d"; lit "e"].
Proof. reflexivity. Qed.

Example trim_strips_both_ends :
  trim ([160; 9]%N ++ lit " a b " ++ [10; 8233]%N) = lit "a b".
Proof. reflexivity. Qed.

Example array_prints_joined :
  to_str (JArr [JNum 1%Z; JNull; JArr [JStr (lit "a"); JBool true]; JArr []])
  = Val (lit "1,,a,true,").
Proof. reflexivity. Qed.

Example object_with_own_toString_raises :
  to_str (JObj [(lit "toString", JNum 1%Z)]) = Raise
  /\ to_str (JObj [(lit "id", JNum 1%Z)]) = Val (lit "[object Object]").
Proof. split; reflexivity. Qed.

Example parse_escapes_and_duplicates :
  JSON_parse (dq " {'a': 'xA\n', 'b': [1, -20], 'a': null} ")
  = Some (JObj [(lit "a", JNull); (lit "b", JArr [JNum 1%Z; JNum (-20)%Z])]).
Proof. vm_compute. reflexivity. Qed.

Example parse_rejects :
  JSON_parse (num:=Z) (dq "[1,]") = None
  /\ JSON_parse (num:=Z) (dq "{'a':1,}") = None
  /\ JSON_parse (num:=Z) (dq "01") = None
  /\ JSON_parse (num:=Z) (dq "'a") = None
  /\ JSON_parse (num:=Z) (dq "1 2") = None.
Proof. repeat split; vm_compute; reflexivity. Qed.

Example fence_capture :
  fenceMatch (lit "Sure: ```json  {1} ``` and ``` more") = Some (lit "{1} ").
Proof. reflexivity. Qed.

Example brace_scan_skips_prose :
  extractJSON (num:=Z)
    (JStr (lit "Here {it} is: " ++ plain_payload ++ lit " done"))
  = JSON_parse plain_payload.
Proof. vm_compute. reflexivity. Qed.

(** ** The exception helpers *)

Lemma exn_map_Forall2 {A B} (f : A -> exn B) xs ys :
  exn_map f xs = Val ys -> Forall2 (fun x y => f x = Val y) xs ys.
Proof.
  revert ys. induction xs as [|x xs IH]; intros ys; simpl.
  - intros [= <-]. constructor.
  - destruct (f x) as [y|] eqn:Hx; simpl; [|discriminate].
    destruct (exn_map f xs) as [ys'|]; simpl; [|discriminate].
    intros [= <-]. constructor; auto.
Qed.

Lemma exn_filter_holds {A} (p : A -> exn bool) xs ys :
  exn_filter p xs = Val ys -> ys = List.filter (holds p) xs.
Proof.
  revert ys. induction xs as [|x xs IH]; intros ys; simpl.
  - by intros [= <-].
  - unfold holds at 1. destruct (p x) as [b|]; simpl; [|discriminate].
    destruct (exn_filter p xs) as [ys'|]; simpl; [|discriminate].
    intros [= <-]. rewrite (IH ys' eq_refl). by destruct b.
Qed.

Lemma filter_agree {A} (p q : A -> bool) xs :
  (forall x, p x = q x) -> List.filter p xs = List.filter q xs.
Proof.
  intros E. induction xs as [|x xs IH]; simpl; [done|]. by rewrite E, IH.
Qed.

(** ** String helpers *)

Lemma str_eqb_eq a b : str_eqb a b = true <-> a = b.
Proof.
  revert b. induction a as [|x a IH]; intros [|y b]; simpl; try easy.
  rewrite andb_true_iff, N.eqb_eq, IH. split.
  - by intros [-> ->].
  - by intros [= -> ->].
Qed.

Section SanitizerFacts.
Context {num : Type} `{JSNumber num}.
Implicit Types (raw data : JV num) (n : FlowchartNode num) (g : AIGeneratedFlow num).

Lemma falsy_no_property k raw : truthy raw = false -> get k raw = None.
Proof. by destruct raw. Qed.

Lemma keep_node_survives raw : keep_node raw = node_survives raw.
Proof.
  unfold keep_node, node_survives. destruct (truthy raw) eqn:T; [done|].
  by rewrite (falsy_no_property _ _ T).
Qed.

Lemma node_type_of_name t : node_type_of (type_name t) = Some t.
Proof. by destruct t. Qed.

Lemma node_type_of_Some s t : node_type_of s = Some t -> s = type_name t.
Proof.
  unfold node_type_of.
  repeat (destruct (str_eqb s _) eqn:E;
          [apply str_eqb_eq in E; intros [= <-]; exact E|clear E]).
  discriminate.
Qed.

Lemma data_label_inv raw l :
  data_label raw = Val l -> l = get_opt (lit "label") (get (lit "data") raw).
Proof.
  unfold data_label.
  destruct (get (lit "data") raw) as [[]|]; simpl; congruence.
Qed.

(** One callback call: the set gains the node's id, and the node is the
    raw entry's sanitized form. *)
Lemma sanitize_node_inv S raw S' n :
  sanitize_node S raw = Val (S', n) ->
  S' = S ∪ {[ n_id n ]} /\ node_pass raw n.
Proof.
  unfold sanitize_node.
  destruct (to_str_opt (get (lit "id") raw)) as [sid|] eqn:Hid; simpl; [|discriminate].
  destruct (data_label raw) as [l|] eqn:Hd; simpl; [|discriminate].
  apply data_label_inv in Hd. subst l.
  destruct (to_str_opt (get_opt _ _)) as [lbl|] eqn:Hl; simpl; [|discriminate].
  intros [= <- <-]. split; [done|].
  split; simpl.
  - done.
  - intros t ->. simpl. by rewrite node_type_of_name.
  - intros Hno. destruct (get (lit "type") raw) as [[]|]; simpl; try done.
    destruct (node_type_of s) as [t|] eqn:Ht; [|done].
    apply node_type_of_Some in Ht. subst s. by destruct (Hno t).
  - by intros a ->.
  - intros Hno. destruct (get_opt (lit "x") _) as [[]|]; simpl; try done.
    by destruct (Hno x).
  - by intros a ->.
  - intros Hno. destruct (get_opt (lit "y") _) as [[]|]; simpl; try done.
    by destruct (Hno x).
  - by exists lbl.
  - change (length (take 40 lbl) <= 40). rewrite length_take. lia.
Qed.

Lemma sanitize_nodes_inv S raws S' ns :
  sanitize_nodes S raws = Val (S', ns) ->
  S' = S ∪ list_to_set (node_ids ns) /\ Forall2 node_pass raws ns.
Proof.
  revert S S' ns. induction raws as [|raw raws IH]; intros S S' ns; simpl.
  - intros [= <- <-]. split; [set_solver|constructor].
  - destruct (sanitize_node S raw) as [[S1 n]|] eqn:Hn; simpl; [|discriminate].
    destruct (sanitize_nodes S1 raws) as [[S2 ns']|] eqn:Hns; simpl; [|discriminate].
    intros [= <- <-].
    apply sanitize_node_inv in Hn as [-> Hn]. apply IH in Hns as [-> Hns].
    split; [set_solver|by constructor].
Qed.

Lemma keep_edge_survives (S : gset jsstring) ids raw :
  (forall s, s ∈ S <-> s ∈ ids) ->
  holds (keep_edge S) raw = edge_survives ids raw.
Proof.
  intros HS. unfold holds, keep_edge, edge_survives, in_ids.
  destruct (truthy raw) eqn:T; simpl.
  2:{ by rewrite (falsy_no_property _ _ T). }
  destruct (truthy_opt (get (lit "source") raw)); simpl; [|done].
  destruct (truthy_opt (get (lit "target") raw)); simpl; [|done].
  destruct (to_str_opt (get (lit "source") raw)) as [s|]; simpl; [|done].
  rewrite (bool_decide_ext _ _ (HS s)).
  destruct (bool_decide (s ∈ ids)); simpl; [|done].
  destruct (to_str_opt (get (lit "target") raw)) as [t|]; simpl; [|done].
  by rewrite (bool_decide_ext _ _ (HS t)).
Qed.

Lemma sanitize_edge_inv raw e :
  sanitize_edge raw = Val e ->
  to_str_opt (get (lit "source") raw) = Val (e_source e)
  /\ to_str_opt (get (lit "target") raw) = Val (e_target e)
  /\ e_animated e = Some true.
Proof.
  unfold sanitize_edge.
  destruct (to_str_opt (get (lit "source") raw)) as [s|]; simpl.
  2:{ destruct (truthy_opt (get (lit "id") raw)); simpl; [|discriminate].
      destruct (to_str_opt (get (lit "id") raw)); simpl; discriminate. }
  destruct (to_str_opt (get (lit "target") raw)) as [t|]; simpl.
  2:{ destruct (truthy_opt (get (lit "id") raw)); simpl; [|discriminate].
      destruct (to_str_opt (get (lit "id") raw)); simpl; discriminate. }
  destruct (if truthy_opt (get (lit "id") raw) then _ else _) as [eid|];
    simpl; [|discriminate].
  destruct (if truthy_opt (get (lit "label") raw) then _ else _) as [lbl|];
    simpl; [|discriminate].
  by intros [= <-].
Qed.

(** What an accepted input tells: both arrays, the kept nodes and the
    kept edges. *)
Lemma validateFlowchart_inv data g :
  validateFlowchart data = Val (Some g) ->
  exists raws es,
    get (lit "nodes") data = Some (JArr raws)
    /\ get (lit "edges") data = Some (JArr es)
    /\ nodes g <> []
    /\ Forall2 node_pass (List.filter node_survives raws) (nodes g)
    /\ exn_map sanitize_edge (List.filter (edge_survives (node_ids (nodes g))) es)
       = Val (edges g).
Proof.
  unfold validateFlowchart.
  destruct (negb (truthy data)); [discriminate|].
  destruct (get (lit "nodes") data) as [[| | | |raws|]|]; try discriminate.
  destruct (get (lit "edges") data) as [[| | | |es|]|]; try discriminate.
  destruct (Nat.eqb (length raws) 0); [discriminate|].
  destruct (sanitize_nodes ∅ (List.filter keep_node raws)) as [[S ns]|] eqn:Hns;
    simpl; [|discriminate].
  destruct (Nat.eqb (length ns) 0) eqn:Hlen; [discriminate|].
  destruct (exn_filter (keep_edge S) es) as [kept|] eqn:Hk; simpl; [|discriminate].
  destruct (exn_map sanitize_edge kept) as [es'|] eqn:Hes; simpl; [|discriminate].
  intros [= <-]. simpl.
  apply sanitize_nodes_inv in Hns as [-> Hns].
  apply exn_filter_holds in Hk.
  exists raws, es. repeat split; try done.
  - intros ->. discriminate.
  - by rewrite <- (filter_agree _ _ raws keep_node_survives).
  - rewrite <- Hes, Hk. f_equal. apply filter_agree. intros raw.
    symmetry. apply keep_edge_survives. set_solver.
Qed.
End SanitizerFacts.

(** ** When the sanitizer raises *)

Lemma exn_map_total {A B} (f : A -> exn B) xs :
  Forall (fun x => exists y, f x = Val y) xs -> exists ys, exn_map f xs = Val ys.
Proof.
  induction 1 as [|x xs [y Hy] _ [ys IH]]; simpl; [eauto|].
  rewrite Hy, IH. simpl. eauto.
Qed.

Lemma exn_filter_total {A} (p : A -> exn bool) xs :
  Forall (fun x => exists b, p x = Val b) xs ->
  exists ys, exn_filter p xs = Val ys /\ forall y, In y ys -> In y xs.
Proof.
  induction 1 as [|x xs [b Hb] _ (ys & IH & Hin)]; simpl; [by exists []|].
  rewrite Hb, IH. simpl. eexists. split; [done|].
  destruct b; simpl; intros y; [intros [?|?]|]; auto.
Qed.

Lemma existsb_false_Forall {A} (f : A -> bool) xs :
  existsb f xs = false -> Forall (fun x => f x = false) xs.
Proof.
  induction xs as [|x xs IH]; simpl; [constructor|].
  intros [??]%orb_false_iff. constructor; auto.
Qed.

Section NoThrow.
Context {num : Type} `{JSNumber num}.
Implicit Types (raw data v : JV num).

(** Printing raises only on a value that holds an own [toString]. *)
Lemma to_str_plain : forall v, has_toString v = false -> exists s, to_str v = Val s.
Proof.
  fix IH 1. intros [|b|x|s|items|fields] Hv.
  - by eexists.
  - destruct b; by eexists.
  - by eexists.
  - by eexists.
  - cbn [to_str].
    assert (exists ps,
              (fix elems (l : list (JV num)) : exn (list jsstring) :=
                 match l with
                 | [] => Val []
                 | JNull :: l' => ps <-! elems l'; Val ([] :: ps)
                 | x :: l' => p <-! to_str x; ps <-! elems l'; Val (p :: ps)
                 end) items = Val ps) as [ps ->]; [|simpl; eauto].
    cbn [has_toString] in Hv. revert Hv.
    induction items as [|a items IHl]; [by eexists|].
    cbn [existsb]. intros [Ha Hl]%orb_false_iff.
    destruct (IHl Hl) as [ps Hps]. destruct (IH a Ha) as [p Hp].
    destruct a; rewrite ?Hps, ?Hp; simpl; eauto;
      simpl in Hp; rewrite ?Hp; simpl; eauto.
  - cbn [to_str]. cbn [has_toString] in Hv.
    destruct (own (lit "toString") fields); [discriminate|eauto].
Qed.

Lemma own_plain k fields v :
  existsb (fun kv : jsstring * JV num => has_toString kv.2) fields = false ->
  own k fields = Some v -> has_toString v = false.
Proof.
  induction fields as [|[k' v'] fields IH]; simpl; [discriminate|].
  intros [Hv Hf]%orb_false_iff. destruct (str_eqb k' k); [|by apply IH].
  by intros [= <-].
Qed.

Lemma get_plain k v v' :
  has_toString v = false -> get k v = Some v' -> has_toString v' = false.
Proof.
  destruct v as [| | | | |fields]; try discriminate. cbn [has_toString get].
  destruct (own (lit "toString") fields); [discriminate|]. apply own_plain.
Qed.

Lemma to_str_opt_get_plain k v :
  has_toString v = false -> exists s, to_str_opt (get k v) = Val s.
Proof.
  intros Hv. destruct (get k v) as [v'|] eqn:Hg; [|by eexists].
  apply to_str_plain. by eapply get_plain.
Qed.

Lemma sanitize_node_total S raw :
  has_toString raw = false -> keep_node raw = true ->
  exists r, sanitize_node S raw = Val r.
Proof.
  intros Hp Hk. unfold sanitize_node.
  destruct (to_str_opt_get_plain (lit "id") raw Hp) as [sid ->]. cbn [exn_bind].
  unfold keep_node in Hk. apply andb_true_iff in Hk as [_ Hl].
  unfold data_label.
  destruct (get (lit "data") raw) as [d|] eqn:Hd; [|discriminate].
  assert (has_toString d = false) as Hdp by (by eapply get_plain).
  destruct (to_str_opt_get_plain (lit "label") d Hdp) as [lbl Hlbl].
  destruct d; try discriminate; cbn [exn_bind]; rewrite ?Hlbl; cbn [exn_bind];
    eauto.
Qed.

Lemma sanitize_nodes_total S raws :
  Forall (fun raw => has_toString raw = false /\ keep_node raw = true) raws ->
  exists r, sanitize_nodes S raws = Val r.
Proof.
  intros HF. revert S. induction HF as [|raw raws [Hp Hk] _ IH]; intros S.
  - by eexists.
  - cbn [sanitize_nodes]. destruct (sanitize_node_total S raw Hp Hk) as [r ->].
    cbn [exn_bind]. destruct (IH r.1) as [rs ->]. cbn [exn_bind]. eauto.
Qed.

Lemma keep_edge_total S raw :
  has_toString raw = false -> exists b, keep_edge S raw = Val b.
Proof.
  intros Hp. unfold keep_edge.
  destruct (_ && _ && _); [|eauto].
  destruct (to_str_opt_get_plain (lit "source") raw Hp) as [s ->]. cbn [exn_bind].
  destruct (bool_decide (s ∈ S)); [|eauto].
  destruct (to_str_opt_get_plain (lit "target") raw Hp) as [t ->]. cbn [exn_bind].
  eauto.
Qed.

Lemma sanitize_edge_total raw :
  has_toString raw = false -> exists e, sanitize_edge raw = Val e.
Proof.
  intros Hp. unfold sanitize_edge.
  destruct (to_str_opt_get_plain (lit "source") raw Hp) as [s ->].
  destruct (to_str_opt_get_plain (lit "target") raw Hp) as [t ->].
  destruct (to_str_opt_get_plain (lit "id") raw Hp) as [i ->].
  destruct (to_str_opt_get_plain (lit "label") raw Hp) as [l ->].
  destruct (truthy_opt (get (lit "id") raw)),
    (truthy_opt (get (lit "label") raw)); cbn [exn_bind]; eauto.
Qed.

Lemma sanitize_nodes_length S raws r :
  sanitize_nodes (num:=num) S raws = Val r -> length r.2 = length raws.
Proof.
  destruct r as [S' ns]. intros [_ HF]%sanitize_nodes_inv.
  symmetry. by apply Forall2_length in HF.
Qed.

(** An input with both arrays and a node entry that has a truthy id and a
    truthy label is accepted, unless printing raises. *)
Lemma validateFlowchart_accepts data raws es :
  get (lit "nodes") data = Some (JArr raws) ->
  get (lit "edges") data = Some (JArr es) ->
  List.filter node_survives raws <> [] ->
  has_toString data = false ->
  exists g, validateFlowchart data = Val (Some g).
Proof.
  intros Hr He Hne Hp. unfold validateFlowchart.
  assert (truthy data = true) as -> by (by destruct data).
  rewrite Hr, He. cbn [negb].
  assert (Nat.eqb (length raws) 0 = false) as -> by (by destruct raws).
  apply (get_plain _ _ _ Hp) in Hr. apply (get_plain _ _ _ Hp) in He.
  cbn [has_toString] in Hr, He.
  apply existsb_false_Forall in Hr. apply existsb_false_Forall in He.
  destruct (sanitize_nodes_total ∅ (List.filter keep_node raws)) as [r Hs].
  { rewrite Forall_forall in Hr. apply Forall_forall.
    intros raw [Hin Hk]%list_elem_of_In%List.filter_In.
    split; [apply Hr; by apply list_elem_of_In|done]. }
  rewrite Hs. cbn [exn_bind].
  apply sanitize_nodes_length in Hs.
  rewrite (filter_agree _ _ _ keep_node_survives) in Hs.
  assert (Nat.eqb (length r.2) 0 = false) as ->.
  { rewrite Hs. by destruct (List.filter node_survives raws). }
  destruct (exn_filter_total (keep_edge r.1) es) as (kept & -> & Hin).
  { eapply Forall_impl; [exact He|]. intros raw. apply keep_edge_total. }
  cbn [exn_bind].
  destruct (exn_map_total sanitize_edge kept) as [out ->]; [|cbn; eauto].
  rewrite Forall_forall in He. apply Forall_forall.
  intros raw Hraw%list_elem_of_In%Hin. apply sanitize_edge_total, He.
  by apply list_elem_of_In.
Qed.
End NoThrow.

(** ** Re-sanitizing a returned graph *)

Lemma filter_all {A} (p : A -> bool) xs :
  Forall (fun x => p x = true) xs -> List.filter p xs = xs.
Proof.
  induction 1 as [|x xs Hx _ IH]; simpl; [done|]. by rewrite Hx, IH.
Qed.

Lemma filter_length_all {A} (p : A -> bool) xs :
  length (List.filter p xs) = length xs -> Forall (fun x => p x = true) xs.
Proof.
  induction xs as [|x xs IH]; simpl; [constructor|].
  pose proof (List.filter_length_le p xs) as Hle.
  destruct (p x) eqn:Hx; simpl; intros Hlen.
  - constructor; [done|]. apply IH. lia.
  - lia.
Qed.

Lemma Forall2_fmap_same {A B} (P : B -> A -> Prop) (f : A -> B) xs :
  Forall2 P (f <$> xs) xs -> Forall (fun x => P (f x) x) xs.
Proof.
  induction xs as [|x xs IH]; simpl; [constructor|].
  intros HF. inversion HF; subst. constructor; auto.
Qed.

Lemma exn_map_fmap_id {A B} (f : B -> exn A) (v : A -> B) xs :
  Forall (fun x => f (v x) = Val x) xs -> exn_map f (v <$> xs) = Val xs.
Proof.
  induction 1 as [|x xs Hx _ IH]; [done|].
  rewrite fmap_cons. cbn [exn_map]. rewrite Hx. cbn [exn_bind]. by rewrite IH.
Qed.

Lemma holds_true {A} (p : A -> exn bool) x : holds p x = true -> p x = Val true.
Proof. unfold holds. destruct (p x) as [[]|]; congruence. Qed.

Lemma exn_filter_all {A} (p : A -> exn bool) xs :
  Forall (fun x => p x = Val true) xs -> exn_filter p xs = Val xs.
Proof.
  induction 1 as [|x xs Hx _ IH]; [done|].
  cbn [exn_filter]. rewrite Hx. cbn [exn_bind]. by rewrite IH.
Qed.

Section Resanitize.
Context {num : Type} `{JSNumber num}.
Implicit Types (n : FlowchartNode num) (g : AIGeneratedFlow num) (e : FlowchartEdge).

Lemma flow_value_nodes g :
  get (lit "nodes") (flow_to_value g) = Some (JArr (node_to_value <$> nodes g)).
Proof. reflexivity. Qed.

Lemma flow_value_edges g :
  get (lit "edges") (flow_to_value g) = Some (JArr (edge_to_value <$> edges g)).
Proof. reflexivity. Qed.

Lemma node_value_survives n :
  node_survives (node_to_value n) = true <->
  n_id n <> [] /\ label (n_data n) <> [].
Proof.
  change (node_survives (node_to_value n))
    with (truthy (JStr (n_id n)) && truthy (JStr (label (n_data n)))).
  simpl. destruct (n_id n), (label (n_data n)); simpl; split;
    (try discriminate); (try by intros [??]); done.
Qed.

Lemma sanitize_node_value S n :
  length (label (n_data n)) <= 40 ->
  sanitize_node S (node_to_value n) = Val (S ∪ {[ n_id n ]}, n).
Proof.
  intros Hlen. destruct n as [i t [x y] [l]]. simpl in Hlen.
  change (sanitize_node S _)
    with (Val (S ∪ {[ i ]},
               {| n_id := i;
                  n_type := default process (node_type_of (type_name t));
                  n_position := {| px := x; py := y |};
                  n_data := {| label := take 40 l |} |})).
  by rewrite node_type_of_name, take_ge.
Qed.

Lemma sanitize_nodes_values S ns :
  Forall (fun n => length (label (n_data n)) <= 40) ns ->
  sanitize_nodes S (node_to_value <$> ns) = Val (S ∪ list_to_set (node_ids ns), ns).
Proof.
  intros HF. revert S. induction HF as [|n ns Hn _ IH]; intros S.
  - simpl. f_equal. f_equal. set_solver.
  - rewrite fmap_cons. cbn [sanitize_nodes].
    rewrite (sanitize_node_value _ _ Hn). cbn [exn_bind fst snd]. rewrite IH.
    cbn [exn_bind fst snd]. f_equal. f_equal. unfold node_ids. rewrite fmap_cons.
    set_solver.
Qed.

Lemma edge_value_fields e :
  get (lit "id") (edge_to_value (num:=num) e) = Some (JStr (e_id e))
  /\ get (lit "source") (edge_to_value (num:=num) e) = Some (JStr (e_source e))
  /\ get (lit "target") (edge_to_value (num:=num) e) = Some (JStr (e_target e))
  /\ get (lit "label") (edge_to_value (num:=num) e) = JStr <$> e_label e.
Proof. destruct e as [i s t [l|] [b|]]; repeat split; reflexivity. Qed.

Lemma edge_value_survives ids e :
  edge_survives (num:=num) ids (edge_to_value e) = true <->
  e_source e <> [] /\ e_target e <> []
  /\ e_source e ∈ ids /\ e_target e ∈ ids.
Proof.
  destruct (edge_value_fields e) as (_ & Hs & Ht & _).
  unfold edge_survives, in_ids. rewrite Hs, Ht. simpl.
  rewrite !andb_true_iff, !bool_decide_eq_true.
  destruct (e_source e), (e_target e); simpl; split;
    (try by intros [[[??]?]?]); (try by intros (?&?&?&?)).
Qed.

Lemma sanitize_edge_value e :
  sanitize_edge (num:=num) (edge_to_value e) =
  Val {| e_id := str_or (e_id e) (lit "e-" ++ e_source e ++ lit "-" ++ e_target e);
         e_source := e_source e; e_target := e_target e;
         e_label := match e_label e with Some [] => None | l => l end;
         e_animated := Some true |}.
Proof.
  destruct (edge_value_fields e) as (Hi & Hs & Ht & Hl).
  unfold sanitize_edge. rewrite Hi, Hs, Ht, Hl.
  destruct e as [i s t l a]. simpl.
  destruct i; destruct l as [[|]|]; reflexivity.
Qed.

Lemma sanitize_edge_value_id e :
  sanitize_edge (num:=num) (edge_to_value e) = Val e <->
  e_id e <> [] /\ e_label e <> Some [] /\ e_animated e = Some true.
Proof.
  rewrite sanitize_edge_value. destruct e as [i s t l a]. simpl. split.
  - intros [= Hi Hl Ha]. repeat split; [| |done].
    + intros ->. discriminate.
    + intros ->. discriminate.
  - intros (Hi & Hl & ->). do 2 f_equal.
    + by destruct i.
    + by destruct l as [[|]|].
Qed.

(** What every returned graph satisfies. *)
Lemma validateFlowchart_sanitized data g :
  validateFlowchart data = Val (Some g) ->
  graph_invariants g
  /\ Forall (fun n => length (label (n_data n)) <= 40) (nodes g).
Proof.
  intros Hv. apply validateFlowchart_inv in Hv
    as (raws & es & _ & _ & Hne & Hns & Hes).
  apply exn_map_Forall2 in Hes.
  assert (forall e, e ∈ edges g ->
            e_source e ∈ node_ids (nodes g) /\ e_target e ∈ node_ids (nodes g)
            /\ e_animated e = Some true) as He.
  { intros e [i Hi]%list_elem_of_lookup.
    destruct (Forall2_lookup_r _ _ _ _ _ Hes Hi) as (raw & Hraw & Hs).
    apply list_elem_of_lookup_2, list_elem_of_In, List.filter_In in Hraw as [_ Hk].
    apply sanitize_edge_inv in Hs as (Hsrc & Htgt & Han).
    unfold edge_survives, in_ids in Hk. rewrite Hsrc, Htgt in Hk.
    rewrite !andb_true_iff, !bool_decide_eq_true in Hk. naive_solver. }
  split; [split|].
  - done.
  - intros e He'. destruct (He e He') as (?&?&?). done.
  - intros e He'. destruct (He e He') as (?&?&?). done.
  - clear -Hns. induction Hns as [|raw n ? ? Hp]; constructor; [|done].
    by destruct Hp.
Qed.

Lemma resanitize_accepts g :
  graph_invariants g ->
  Forall (fun n => length (label (n_data n)) <= 40) (nodes g) ->
  strings_nonempty g ->
  validateFlowchart (flow_to_value g) = Val (Some g).
Proof.
  intros [Hne Hend Han] Hlen [Hn He].
  unfold validateFlowchart. rewrite flow_value_nodes, flow_value_edges.
  cbn [truthy flow_to_value negb]. rewrite length_fmap.
  destruct (nodes g) as [|n0 ns0] eqn:Hnodes; [done|]. rewrite <- Hnodes in *.
  replace (length (nodes g) =? 0) with false by (by rewrite Hnodes).
  rewrite (filter_agree _ _ _ keep_node_survives), filter_all.
  2:{ apply Forall_fmap. eapply Forall_impl; [exact Hn|].
      intros n Hn'. by apply node_value_survives. }
  rewrite (sanitize_nodes_values _ _ Hlen). cbn [exn_bind fst snd].
  replace (length (nodes g) =? 0) with false by (by rewrite Hnodes).
  assert (forall s, s ∈ node_ids (nodes g) -> s <> []) as Hids.
  { intros s (n & -> & Hin)%list_elem_of_fmap.
    rewrite Forall_forall in Hn. by apply Hn. }
  assert (exn_filter (keep_edge (∅ ∪ list_to_set (node_ids (nodes g))))
                     (edge_to_value <$> edges g)
          = Val (edge_to_value <$> edges g)) as ->.
  { apply exn_filter_all, Forall_fmap, Forall_forall. intros e He'.
    apply holds_true. unfold compose.
    rewrite (keep_edge_survives _ (node_ids (nodes g))) by set_solver.
    apply edge_value_survives. destruct (Hend e He') as [Hs Ht]. auto. }
  cbn [exn_bind]. rewrite (exn_map_fmap_id sanitize_edge edge_to_value).
  - simpl. by destruct g.
  - rewrite Forall_forall in He. apply Forall_forall. intros e Hin.
    apply sanitize_edge_value_id. destruct (He e Hin). auto.
Qed.

Lemma resanitize_identity_nonempty g :
  validateFlowchart (flow_to_value g) = Val (Some g) -> strings_nonempty g.
Proof.
  intros Hv. apply validateFlowchart_inv in Hv
    as (raws & es & Hr & He & _ & Hns & Hes).
  rewrite flow_value_nodes in Hr. rewrite flow_value_edges in He.
  injection Hr as <-. injection He as <-.
  split.
  - pose proof (Forall2_length _ _ _ Hns) as Hlen.
    rewrite <- (length_fmap node_to_value (nodes g)) in Hlen.
    apply filter_length_all in Hlen. apply Forall_fmap in Hlen.
    eapply Forall_impl; [exact Hlen|]. intros n Hn. by apply node_value_survives.
  - pose proof (exn_map_Forall2 _ _ _ Hes) as HF.
    pose proof (Forall2_length _ _ _ HF) as Hlen.
    rewrite <- (length_fmap (edge_to_value (num:=num)) (edges g)) in Hlen.
    apply filter_length_all, filter_all in Hlen. rewrite Hlen in HF.
    apply Forall2_fmap_same in HF.
    eapply Forall_impl; [exact HF|]. intros e Hs.
    apply sanitize_edge_value_id in Hs. naive_solver.
Qed.
End Resanitize.

(** ** The sanitizer's claims *)

Section SanitizerClaims.
Context {num : Type} `{JSNumber num}.

(** C2. Referential integrity of sanitization: whenever
    [validateFlowchart] accepts an input, every edge of the returned
    graph has its source and its target among the ids of the returned
    nodes, and the returned edges come, in order, from exactly the raw
    entries whose (truthy) source and target print to such ids: any
    other entry is dropped. *)
Theorem validateFlowchart_referential_integrity
        (data : JV num) (g : AIGeneratedFlow num) :
  validateFlowchart data = Val (Some g) ->
  (forall e, e ∈ edges g ->
             e_source e ∈ node_ids (nodes g) /\ e_target e ∈ node_ids (nodes g))
  /\ exists es,
      get (lit "edges") data = Some (JArr es)
      /\ Forall2 (fun raw e =>
                    to_str_opt (get (lit "source") raw) = Val (e_source e)
                    /\ to_str_opt (get (lit "target") raw) = Val (e_target e))
                 (List.filter (edge_survives (node_ids (nodes g))) es)
                 (edges g).
Proof.
  intros Hv. split.
  - apply validateFlowchart_sanitized in Hv as [[_ Hend _] _]. exact Hend.
  - apply validateFlowchart_inv in Hv as (raws & es & _ & He & _ & _ & Hes).
    exists es. split; [exact He|].
    apply exn_map_Forall2 in Hes.
    eapply Forall2_impl; [exact Hes|].
    intros raw e Hs. apply sanitize_edge_inv in Hs. tauto.
Qed.

(** C5. Node pass: the returned nodes are, in order, the sanitized forms
    of exactly the raw entries that have a truthy id and a truthy label
    (kind coerced to [process] unless one of the four tags, each axis
    defaulted on its own, label cut to 40 code units), every other entry
    being dropped; when no raw entry survives, the call returns [null];
    and when some entry survives the call does not return [null]: it
    returns a graph with the surviving entries, or raises where printing
    a field raises, which needs an own [toString] in the input. *)
Theorem validateFlowchart_node_pass (data : JV num) :
  (forall g, validateFlowchart data = Val (Some g) ->
     exists raws,
       get (lit "nodes") data = Some (JArr raws)
       /\ Forall2 node_pass (List.filter node_survives raws) (nodes g))
  /\ (forall raws,
        get (lit "nodes") data = Some (JArr raws) ->
        List.filter node_survives raws = [] ->
        validateFlowchart data = Val None)
  /\ (forall raws es,
        get (lit "nodes") data = Some (JArr raws) ->
        get (lit "edges") data = Some (JArr es) ->
        List.filter node_survives raws <> [] ->
        validateFlowchart data <> Val None
        /\ (has_toString data = false ->
            exists g,
              validateFlowchart data = Val (Some g)
              /\ Forall2 node_pass (List.filter node_survives raws) (nodes g)
              /\ length (nodes g) = length (List.filter node_survives raws))).
Proof.
  split; [|split].
  - intros g Hv.
    apply validateFlowchart_inv in Hv as (raws & es & Hr & _ & _ & Hns & _).
    by exists raws.
  - intros raws Hr Hnone. unfold validateFlowchart. rewrite Hr.
    destruct (negb (truthy data)); [done|].
    destruct (get (lit "edges") data) as [[| | | |es|]|]; try done.
    destruct (Nat.eqb (length raws) 0); [done|].
    by rewrite (filter_agree _ _ _ keep_node_survives), Hnone.
  - intros raws es Hr He Hne. split.
    + unfold validateFlowchart.
      assert (truthy data = true) as -> by (by destruct data).
      rewrite Hr, He. cbn [negb].
      assert (Nat.eqb (length raws) 0 = false) as -> by (by destruct raws).
      rewrite (filter_agree _ _ _ keep_node_survives).
      destruct (sanitize_nodes ∅ _) as [r|] eqn:Hs; cbn [exn_bind]; [|done].
      apply sanitize_nodes_length in Hs.
      destruct (List.filter node_survives raws) as [|k ks]; [done|].
      destruct r.2 as [|n ns]; [done|]. cbn [length Nat.eqb].
      destruct (exn_filter _ es) as [kept|]; cbn [exn_bind]; [|done].
      by destruct (exn_map sanitize_edge kept).
    + intros Hp.
      destruct (validateFlowchart_accepts data raws es Hr He Hne Hp) as [g Hv].
      exists g. split; [exact Hv|].
      apply validateFlowchart_inv in Hv as (raws' & _ & Hr' & _ & _ & Hns & _).
      rewrite Hr in Hr'. injection Hr' as <-.
      split; [exact Hns|]. symmetry. by apply Forall2_length in Hns.
Qed.

(** Re-sanitizing a returned graph gives the identical graph exactly when
    no node id, node label, edge id or edge label of that graph is the
    empty string. *)
Theorem validateFlowchart_idempotent_iff_nonempty
        (data : JV num) (g : AIGeneratedFlow num) :
  validateFlowchart data = Val (Some g) ->
  (validateFlowchart (flow_to_value g) = Val (Some g) <-> strings_nonempty g).
Proof.
  intros Hv. split.
  - apply resanitize_identity_nonempty.
  - apply validateFlowchart_sanitized in Hv as [Hinv Hlen].
    by apply resanitize_accepts.
Qed.
End SanitizerClaims.

Lemma validateFlowchart_referential_integrity_witness :
  validateFlowchart two_node_input = Val (Some two_node_graph)
  /\ (forall e, e ∈ edges two_node_graph ->
        e_source e ∈ node_ids (nodes two_node_graph)
        /\ e_target e ∈ node_ids (nodes two_node_graph)).
Proof.
  split; [vm_compute; reflexivity|].
  apply (validateFlowchart_referential_integrity two_node_input two_node_graph).
  vm_compute; reflexivity.
Defined.

Lemma validateFlowchart_node_pass_witness :
  validateFlowchart two_node_input = Val (Some two_node_graph)
  /\ (exists raws,
        get (lit "nodes") two_node_input = Some (JArr raws)
        /\ Forall2 node_pass (List.filter node_survives raws) (nodes two_node_graph))
  /\ validateFlowchart no_valid_node_input = Val None
  /\ validateFlowchart two_node_input <> Val None
  /\ (exists g,
        validateFlowchart two_node_input = Val (Some g)
        /\ Forall2 node_pass (List.filter node_survives two_node_raws) (nodes g)
        /\ length (nodes g) = length (List.filter node_survives two_node_raws)).
Proof.
  destruct (validateFlowchart_node_pass two_node_input) as (Hpass & _ & Hkept).
  destruct (validateFlowchart_node_pass no_valid_node_input) as (_ & Hnone & _).
  split; [vm_compute; reflexivity|]. split.
  { apply Hpass. vm_compute; reflexivity. }
  split.
  { eapply Hnone; vm_compute; reflexivity. }
  destruct (Hkept two_node_raws two_node_edges) as [Hnot Hsome].
  - vm_compute; reflexivity.
  - vm_compute; reflexivity.
  - vm_compute; discriminate.
  - split; [exact Hnot|]. apply Hsome. vm_compute; reflexivity.
Defined.

(** C4. The sanitizer is not idempotent.  A provider's reply whose
    content is the text
    [{"nodes":[{"id":[],"data":{"label":"a"}}],"edges":[]}] is decoded by
    [extractJSON]; the sanitizer accepts the decoded value, since the
    empty array is truthy, and returns a node whose id is the empty
    string, the printed form of the empty array; the adapter hands that
    graph on; and the sanitizer rejects that same graph when it is fed
    back, since the empty string is falsy. *)
Lemma validateFlowchart_not_idempotent :
  extractJSON (JStr empty_array_id_text) = Some empty_array_id_input
  /\ validateFlowchart empty_array_id_input = Val (Some empty_id_graph)
  /\ flow_of_completion empty_array_id_reply = Some empty_id_graph
  /\ validateFlowchart (flow_to_value empty_id_graph) = Val None
  /\ ~ (forall (data : JV Z) g,
          validateFlowchart data = Val (Some g) ->
          validateFlowchart (flow_to_value g) = Val (Some g)).
Proof.
  assert (validateFlowchart empty_array_id_input = Val (Some empty_id_graph)) as H1
    by (vm_compute; reflexivity).
  assert (validateFlowchart (flow_to_value empty_id_graph) = Val None) as H2
    by (vm_compute; reflexivity).
  split; [vm_compute; reflexivity|]. split; [exact H1|].
  split; [vm_compute; reflexivity|]. split; [exact H2|].
  intros Hall. specialize (Hall _ _ H1). rewrite H2 in Hall. discriminate.
Qed.

Lemma validateFlowchart_idempotent_iff_nonempty_witness :
  validateFlowchart (flow_to_value two_node_graph) = Val (Some two_node_graph)
  <-> strings_nonempty two_node_graph.
Proof.
  apply (validateFlowchart_idempotent_iff_nonempty two_node_input two_node_graph).
  vm_compute; reflexivity.
Defined.

(** ** The local generator's loop *)

Section LocalFacts.
Context {num : Type} `{JSNumber num}.
Implicit Types (g : AIGeneratedFlow num) (parts : list jsstring).

(** One turn of the loop, with what it pushes spelled out. *)
Lemma steps_unfold fuel parts i y last g :
  steps (S fuel) parts i y last g =
  if Nat.ltb i (bound parts) then
    if fans_out parts i then
      steps fuel parts (i + 1 + 1) (y + 240) (merge_id i)
            {| nodes := nodes g ++ decision_nodes parts i y;
               edges := edges g ++ decision_edges last i |}
    else
      steps fuel parts (i + 1) (y + 120) (step_id i)
            {| nodes := nodes g ++ [plain_node parts i y];
               edges := edges g ++ [mk_edge last (step_id i) None] |}
  else g.
Proof.
  cbn [steps]. unfold bound, fans_out.
  destruct (Nat.ltb i (Nat.min (length parts) 8)); [|done].
  destruct (isDecision (nth i parts []) && _);
    unfold push_nodes, push_edges; cbn [nodes edges];
    rewrite <- ?app_assoc; reflexivity.
Qed.

(** The loop ends by its own test before the fuel does. *)
Lemma steps_fuel fuel parts i y last g :
  bound parts - i <= fuel ->
  steps (S fuel) parts i y last g = steps fuel parts i y last g.
Proof.
  revert i y last g. induction fuel as [|fuel IH]; intros i y last g Hf.
  - rewrite steps_unfold. destruct (Nat.ltb_spec i (bound parts)); [lia|done].
  - rewrite (steps_unfold (S fuel) parts i y last g), (steps_unfold fuel parts i y last g).
    destruct (Nat.ltb_spec i (bound parts)); [|done].
    destruct (fans_out parts i); apply IH; lia.
Qed.

Lemma steps_fuel_any fuel extra parts i y last g :
  bound parts - i <= fuel ->
  steps (fuel + extra) parts i y last g = steps fuel parts i y last g.
Proof.
  intros Hf. induction extra as [|k IH].
  - by rewrite Nat.add_0_r.
  - rewrite Nat.add_succ_r, steps_fuel; [done|lia].
Qed.

(** The eight units of fuel that [generateLocalFlowchart] gives the loop
    are all it can use. *)
Lemma steps_eight_suffice extra parts y last g :
  steps (8 + extra) parts 1 y last g = steps 8 parts 1 y last g.
Proof. apply steps_fuel_any. unfold bound. lia. Qed.

(** The loop only appends. *)
Lemma steps_extends fuel parts i y last g :
  exists ns es,
    nodes (steps fuel parts i y last g) = nodes g ++ ns
    /\ edges (steps fuel parts i y last g) = edges g ++ es.
Proof.
  revert i y last g. induction fuel as [|fuel IH]; intros i y last g.
  - exists [], []. by rewrite !app_nil_r.
  - rewrite steps_unfold. destruct (Nat.ltb i (bound parts)).
    2:{ exists [], []. by rewrite !app_nil_r. }
    destruct (fans_out parts i).
    + destruct (IH (i + 1 + 1) (y + 240)%Z (merge_id i)
                   {| nodes := nodes g ++ decision_nodes parts i y;
                      edges := edges g ++ decision_edges last i |})
        as (ns & es & -> & ->).
      cbn [nodes edges]. rewrite <- !app_assoc. eauto.
    + destruct (IH (i + 1) (y + 120)%Z (step_id i)
                   {| nodes := nodes g ++ [plain_node parts i y];
                      edges := edges g ++ [mk_edge last (step_id i) None] |})
        as (ns & es & -> & ->).
      cbn [nodes edges]. rewrite <- !app_assoc. eauto.
Qed.

(** The loop keeps every edge between listed nodes and animated, as long
    as the last node id it carries is listed. *)
Lemma steps_edges_ok fuel parts i y last g :
  last ∈ node_ids (nodes g) -> edges_ok g ->
  edges_ok (steps fuel parts i y last g).
Proof.
  revert i y last g. induction fuel as [|fuel IH]; intros i y last g Hl Hg; [done|].
  rewrite steps_unfold. destruct (Nat.ltb i (bound parts)); [|done].
  destruct (fans_out parts i); apply IH.
  - unfold node_ids. cbn [nodes]. rewrite fmap_app. set_solver.
  - intros e. unfold node_ids. cbn [nodes edges]. rewrite fmap_app.
    intros [He|He]%elem_of_app.
    + destruct (Hg e He) as [[??]?]. set_solver.
    + apply list_elem_of_In in He. cbn [decision_edges In] in He.
      cbn [decision_nodes fmap list_fmap n_id mk_node].
      repeat (destruct He as [<-|He]; [cbn; set_solver|]). done.
  - unfold node_ids. cbn [nodes]. rewrite fmap_app. set_solver.
  - intros e. unfold node_ids. cbn [nodes edges]. rewrite fmap_app.
    intros [He|He]%elem_of_app.
    + destruct (Hg e He) as [[??]?]. set_solver.
    + apply list_elem_of_In in He. cbn [In] in He.
      destruct He as [<-|[]]. cbn. set_solver.
Qed.
End LocalFacts.

Section LocalInvariants.
Context {num : Type} `{JSNumber num}.
Implicit Types (g : AIGeneratedFlow num) (parts : list jsstring).

Lemma steps_keeps_node fuel parts i y last g n :
  n ∈ nodes g -> n ∈ nodes (steps fuel parts i y last g).
Proof.
  destruct (steps_extends fuel parts i y last g) as (ns & es & -> & _).
  set_solver.
Qed.

Lemma steps_keeps_edge fuel parts i y last g e :
  e ∈ edges g -> e ∈ edges (steps fuel parts i y last g).
Proof.
  destruct (steps_extends fuel parts i y last g) as (ns & es & _ & ->).
  set_solver.
Qed.

(** The local generator always returns a graph satisfying the invariants. *)
Lemma generateLocalFlowchart_invariants prompt t :
  graph_invariants (generateLocalFlowchart (num:=num) prompt t).
Proof.
  unfold generateLocalFlowchart.
  destruct (Nat.leb 3 (length (prompt_parts prompt))).
  - set (g0 := {| nodes := [_]; edges := [] |}).
    assert (edges_ok (steps 8 (prompt_parts prompt) 1 120 (lit "start") g0)) as Hok.
    { apply steps_edges_ok.
      - subst g0. cbn. set_solver.
      - intros e He. subst g0. cbn in He. set_solver. }
    split.
    + destruct (steps_extends 8 (prompt_parts prompt) 1 120 (lit "start") g0)
        as (ns & es & -> & _).
      subst g0. cbn. discriminate.
    + intros e He. by destruct (Hok e He).
    + intros e He. by destruct (Hok e He).
  - split.
    + discriminate.
    + intros e He. apply list_elem_of_In in He. cbn [edges In] in He.
      destruct He as [<-|[<-|[]]]; cbn; set_solver.
    + intros e He. apply list_elem_of_In in He. cbn [edges In] in He.
      by destruct He as [<-|[<-|[]]].
Qed.

Lemma reach_le parts i j : reach parts i j -> i <= j.
Proof. induction 1; lia. Qed.

(** A decision step reached by the loop leaves its whole fan-out in the
    result. *)
Lemma steps_fanout fuel parts i j y last g :
  reach parts i j -> bound parts - i <= fuel ->
  j < bound parts -> fans_out parts j = true ->
  decision_fanout (steps fuel parts i y last g) j (nth j parts []).
Proof.
  intros Hr. revert fuel y last g.
  induction Hr as [i|i j Hi Hp _ IH|i j Hi Hd _ IH];
    intros fuel y last g Hf Hj Hfan.
  - destruct fuel as [|fuel]; [lia|].
    rewrite steps_unfold.
    destruct (Nat.ltb_spec i (bound parts)); [|lia]. rewrite Hfan.
    set (g' := {| nodes := _; edges := _ |}).
    assert (forall n, n ∈ decision_nodes parts i y ->
              n ∈ nodes (steps fuel parts (i + 1 + 1) (y + 240) (merge_id i) g'))
      as Hn.
    { intros n Hn. apply steps_keeps_node. subst g'. cbn. set_solver. }
    assert (forall e, e ∈ decision_edges last i ->
              e ∈ edges (steps fuel parts (i + 1 + 1) (y + 240) (merge_id i) g'))
      as He.
    { intros e He. apply steps_keeps_edge. subst g'. cbn. set_solver. }
    split.
    + exists y. repeat split; apply Hn; unfold decision_nodes; set_solver.
    + eexists. split; [apply Hn; unfold decision_nodes; do 3 right; left|].
      reflexivity.
    + apply He. unfold decision_edges. set_solver.
    + apply He. unfold decision_edges. set_solver.
    + apply He. unfold decision_edges. set_solver.
    + apply He. unfold decision_edges. set_solver.
  - destruct fuel as [|fuel]; [lia|].
    rewrite steps_unfold.
    destruct (Nat.ltb_spec i (bound parts)); [|lia]. rewrite Hp.
    apply IH; [lia|done|done].
  - destruct fuel as [|fuel]; [lia|].
    rewrite steps_unfold.
    destruct (Nat.ltb_spec i (bound parts)); [|lia]. rewrite Hd.
    apply IH; [lia|done|done].
Qed.


End LocalInvariants.

(** ** The local generator's claims *)

Section LocalClaims.
Context {num : Type} `{JSNumber num}.

(** C3, amended. For the prompt "receive order, check stock, ship order"
    and any diagram type the generator returns five nodes: the
    [startEnd] node labelled "receive order", the decision node "check
    stock" (the segment holds the keyword "check" and is not the last),
    its branches "Continue" and "Handle", and the [startEnd] merge node
    "End"; the five edges are animated, the two leaving the decision node
    labelled "Yes" and "No". *)
Theorem generateLocalFlowchart_receive_order (t : jsstring) :
  isDecision (nth 1 (prompt_parts receive_order_prompt) []) = true
  /\ generateLocalFlowchart (num:=num) receive_order_prompt t = receive_order_graph.
Proof. split; vm_compute; reflexivity. Qed.

(** C6. A prompt with fewer than three segments gives the skeleton
    Start / process / End, chained by two edges, whose process node
    carries the first 25 code units of the prompt.  The prompt is not
    empty there: the handler answers an empty prompt before the generator
    is called.  (Called on the empty text all the same, the generator
    labels the process node "Process".) *)
Theorem generateLocalFlowchart_skeleton (prompt t : jsstring) :
  length (prompt_parts prompt) < 3 ->
  (prompt <> [] ->
   generateLocalFlowchart (num:=num) prompt t = skeleton (take 25 prompt))
  /\ (prompt = [] ->
      generateLocalFlowchart (num:=num) prompt t = skeleton (lit "Process")).
Proof.
  intros Hlen. unfold generateLocalFlowchart.
  destruct (Nat.leb_spec 3 (length (prompt_parts prompt))); [lia|].
  split.
  - intros Hne. by destruct prompt.
  - by intros ->.
Qed.

(** C7, amended. A segment that the loop handles as a step (so not
    segment 0, not one beyond the cap of eight, and not the segment taken
    as the merge label of the decision before it), that contains one of
    the keywords and is not the final segment, produces a decision node
    with outgoing edges labelled "Yes" and "No" to process nodes
    "Continue" and "Handle", both of which rejoin at a merge node.  The
    prompt "visit site, verify email, create profile" does so at
    segment 1. *)
Theorem decision_step_fans_out (prompt t : jsstring) (i : nat) :
  (is_step (prompt_parts prompt) i ->
   isDecision (nth i (prompt_parts prompt) []) = true ->
   i + 1 < length (prompt_parts prompt) ->
   decision_fanout (generateLocalFlowchart (num:=num) prompt t) i
                   (nth i (prompt_parts prompt) []))
  /\ decision_fanout (generateLocalFlowchart (num:=num) visit_site_prompt t) 1
                     (lit "verify email").
Proof.
  assert (forall p j,
            is_step (prompt_parts p) j ->
            isDecision (nth j (prompt_parts p) []) = true ->
            j + 1 < length (prompt_parts p) ->
            decision_fanout (generateLocalFlowchart (num:=num) p t) j
                            (nth j (prompt_parts p) [])) as Hgen.
  { intros p j [Hr Hb] Hdec Hnf.
    pose proof (reach_le _ _ _ Hr) as Hge.
    unfold generateLocalFlowchart.
    destruct (Nat.leb_spec 3 (length (prompt_parts p))); [|lia].
    apply steps_fanout; try done.
    - unfold bound. lia.
    - unfold fans_out. rewrite Hdec. apply Z.ltb_lt. lia. }
  split; [apply Hgen|].
  apply (Hgen visit_site_prompt 1).
  - split; [apply reach_here|]. vm_compute. lia.
  - vm_compute. reflexivity.
  - vm_compute. lia.
Qed.

(** C9. The diagram type has no influence on the local generator. *)
Theorem generateLocalFlowchart_ignores_type (prompt t1 t2 : jsstring) :
  generateLocalFlowchart (num:=num) prompt t1
  = generateLocalFlowchart (num:=num) prompt t2.
Proof. reflexivity. Qed.

End LocalClaims.

(** C3 as stated fails: the graph built for the example prompt is not a
    linear chain free of decision nodes. *)
Lemma receive_order_not_linear :
  ~ linear_startEnd_chain (lit "receive order")
      (generateLocalFlowchart (num:=Z) receive_order_prompt (lit "process")).
Proof.
  intros (_ & _ & _ & _ & _ & Hd). vm_compute in Hd.
  inversion Hd as [|? ? _ Hd']. inversion Hd' as [|? ? Hn _]. by apply Hn.
Qed.

Lemma generateLocalFlowchart_skeleton_witness :
  generateLocalFlowchart (num:=Z) launch_prompt (lit "process")
  = skeleton (lit "launch product").
Proof.
  apply (generateLocalFlowchart_skeleton launch_prompt (lit "process")).
  - vm_compute. lia.
  - discriminate.
Defined.

(** C7 as stated fails.  The first segment of "check stock, pack, ship"
    contains "check" and is not the final segment, but it becomes the start
    node; the third segment of "a, check b, verify c, d" contains "verify"
    and is not the final segment, but the decision step before it takes it
    as the label of its merge node.  Neither gets a decision node. *)
Lemma keyword_segment_without_decision :
  (isDecision (nth 0 (prompt_parts check_first_prompt) []) = true
   /\ 0 + 1 < length (prompt_parts check_first_prompt)
   /\ ~ decision_fanout
         (generateLocalFlowchart (num:=Z) check_first_prompt (lit "process")) 0
         (nth 0 (prompt_parts check_first_prompt) []))
  /\ (isDecision (nth 2 (prompt_parts check_then_verify_prompt) []) = true
      /\ 2 + 1 < length (prompt_parts check_then_verify_prompt)
      /\ ~ decision_fanout
            (generateLocalFlowchart (num:=Z) check_then_verify_prompt (lit "process")) 2
            (nth 2 (prompt_parts check_then_verify_prompt) [])).
Proof.
  split; (split; [vm_compute; reflexivity|]); (split; [vm_compute; lia|]).
  - intros [(y & Hd & _) _ _ _ _ _].
    apply list_elem_of_In in Hd. vm_compute in Hd.
    repeat (destruct Hd as [Hd|Hd]; [discriminate|]). exact Hd.
  - intros [(y & Hd & _) _ _ _ _ _].
    apply list_elem_of_In in Hd. vm_compute in Hd.
    repeat (destruct Hd as [Hd|Hd]; [discriminate|]). exact Hd.
Qed.

Lemma decision_step_fans_out_witness :
  decision_fanout (generateLocalFlowchart (num:=Z) visit_site_prompt (lit "process")) 1
                  (nth 1 (prompt_parts visit_site_prompt) []).
Proof.
  apply (proj1 (decision_step_fans_out visit_site_prompt (lit "process") 1)).
  - split; [apply reach_here|]. vm_compute. lia.
  - vm_compute. reflexivity.
  - vm_compute. lia.
Defined.



(** ** The fallback chain *)

Section HandlerClaims.
Context {num : Type} `{JSNumber num}.
Variable fetchWithTimeout : ChatRequest -> FetchResult num.

(** C1. On a request with a non-empty prompt: when no credential is
    configured both NVIDIA NIM variants and Kimi yield nothing; and
    whenever the three adapter calls yield nothing, the handler answers
    with the local generator's graph under the tag "local", and that
    graph has a node, has every edge between listed nodes, and has every
    edge animated. *)
Theorem POST_falls_back_to_local (env : Env) (req : GenerateRequest) :
  prompt req <> [] ->
  (NVIDIA_NIM_API_KEY env = None -> KIMI_API_KEY env = None ->
   (forall m, callNvidiaNIM fetchWithTimeout env (prompt req) (diagramType req) m = None)
   /\ callKimi fetchWithTimeout env (prompt req) (diagramType req) = None)
  /\ (callNvidiaNIM fetchWithTimeout env (prompt req) (diagramType req)
                    (lit "z-ai/glm4.7") = None ->
      callNvidiaNIM fetchWithTimeout env (prompt req) (diagramType req)
                    (lit "moonshotai/kimi-k2-instruct") = None ->
      callKimi fetchWithTimeout env (prompt req) (diagramType req) = None ->
      POST fetchWithTimeout env (Some req)
      = Success (generateLocalFlowchart (prompt req) (diagramType req))
                req (lit "local")
      /\ graph_invariants
           (generateLocalFlowchart (num:=num) (prompt req) (diagramType req))).
Proof.
  intros Hp. split.
  - intros Hnim Hkimi. unfold callNvidiaNIM, callKimi. by rewrite Hnim, Hkimi.
  - intros H1 H2 H3. split.
    + unfold POST. rewrite H1, H2, H3. by destruct (prompt req).
    + apply generateLocalFlowchart_invariants.
Qed.
End HandlerClaims.

Lemma POST_falls_back_to_local_witness :
  POST unreachable no_credentials (Some launch_request)
  = Success (generateLocalFlowchart launch_prompt (lit "process"))
            launch_request (lit "local")
  /\ graph_invariants (generateLocalFlowchart (num:=Z) launch_prompt (lit "process")).
Proof.
  destruct (POST_falls_back_to_local unreachable no_credentials launch_request)
    as [Hskip Hlocal]; [discriminate|].
  destruct Hskip as [Hnim Hkimi]; [reflexivity|reflexivity|].
  apply Hlocal; [apply Hnim|apply Hnim|apply Hkimi].
Defined.

(** ** The parser's fuel *)

Lemma skip_ws_length s : length (skip_ws s) <= length s.
Proof.
  induction s as [|c s IH]; simpl; [lia|]. destruct (json_ws c); simpl; lia.
Qed.

Lemma cons_fst_rest {A B} (a : A) (r : option (list A * B)) l b :
  cons_fst a r = Some (l, b) -> exists l', r = Some (l', b).
Proof. destruct r as [[l' b']|]; simpl; [|discriminate]. intros [= _ <-]. eauto. Qed.

Lemma parse_string_body_length s str rest :
  parse_string_body s = Some (str, rest) -> length rest < length s.
Proof.
  revert str rest. induction s as [s IH] using (induction_ltof1 _ (@length N)).
  unfold ltof in IH. intros str rest. destruct s as [|c s]; simpl; [discriminate|].
  destruct (c =? 34)%N.
  { intros [= _ <-]. lia. }
  destruct (c =? 92)%N.
  - destruct s as [|e s]; [discriminate|].
    destruct (e =? 117)%N.
    + destruct s as [|h1 [|h2 [|h3 [|h4 s]]]]; try discriminate.
      destruct (hex_value h1), (hex_value h2), (hex_value h3), (hex_value h4);
        try discriminate.
      intros [l' Hr]%cons_fst_rest. apply IH in Hr; simpl in *; lia.
    + destruct (simple_escape e); [|discriminate].
      intros [l' Hr]%cons_fst_rest. apply IH in Hr; simpl in *; lia.
  - destruct (c <? 32)%N; [discriminate|].
    intros [l' Hr]%cons_fst_rest. apply IH in Hr; simpl in *; lia.
Qed.

Lemma span_digits_length s : length (span_digits s).2 <= length s.
Proof.
  induction s as [|c s IH]; simpl; [lia|]. destruct (is_digit c); simpl; lia.
Qed.

Lemma parse_number_length s text rest :
  parse_number s = Some (text, rest) -> length rest < length s.
Proof.
  unfold parse_number.
  set (sign := match s with
               | c :: s' => if (c =? 45)%N then ([c], s') else ([], s)
               | [] => ([], s)
               end).
  assert (length sign.2 <= length s) as Hsign.
  { subst sign. destruct s as [|c s]; simpl; [lia|].
    destruct (c =? 45)%N; simpl; lia. }
  destruct (match sign.2 with
            | c :: s' =>
                if (c =? 48)%N then Some ([c], s')
                else if is_digit c
                     then let r := span_digits s' in Some (c :: r.1, r.2)
                     else None
            | [] => None
            end) as [int|] eqn:Hint; simpl; [|discriminate].
  assert (length int.2 < length sign.2) as Hi.
  { destruct sign.2 as [|c s']; [discriminate|]. simpl.
    destruct (c =? 48)%N; [injection Hint as <-; simpl; lia|].
    destruct (is_digit c); [|discriminate]. injection Hint as <-. simpl.
    pose proof (span_digits_length s'). lia. }
  destruct (match int.2 with
            | c :: s' =>
                if (c =? 46)%N
                then let r := span_digits s' in
                     match r.1 with [] => None | _ => Some (c :: r.1, r.2) end
                else Some ([], int.2)
            | [] => Some ([], int.2)
            end) as [frac|] eqn:Hfrac; simpl; [|discriminate].
  assert (length frac.2 <= length int.2) as Hf.
  { destruct int.2 as [|c s']; [injection Hfrac as <-; simpl; lia|].
    destruct (c =? 46)%N; [|injection Hfrac as <-; simpl; lia].
    pose proof (span_digits_length s'). simpl in Hfrac.
    destruct (span_digits s').1; [discriminate|]. injection Hfrac as <-. simpl. lia. }
  destruct (match frac.2 with
            | c :: s' =>
                if ((c =? 101) || (c =? 69))%N
                then let sg := match s' with
                               | d :: s'' =>
                                   if ((d =? 43) || (d =? 45))%N
                                   then ([d], s'') else ([], s')
                               | [] => ([], s')
                               end in
                     let r := span_digits sg.2 in
                     match r.1 with [] => None | _ => Some (c :: sg.1 ++ r.1, r.2) end
                else Some ([], frac.2)
            | [] => Some ([], frac.2)
            end) as [ex|] eqn:Hex; simpl; [|discriminate].
  assert (length ex.2 <= length frac.2) as He.
  { destruct frac.2 as [|c s']; [injection Hex as <-; simpl; lia|].
    destruct ((c =? 101) || (c =? 69))%N; [|injection Hex as <-; simpl; lia].
    simpl in Hex.
    set (sg := match s' with
               | d :: s'' => if ((d =? 43) || (d =? 45))%N then ([d], s'') else ([], s')
               | [] => ([], s')
               end) in *.
    assert (length sg.2 <= length s') as Hsg.
    { subst sg. destruct s' as [|d s'']; simpl; [lia|].
      destruct ((d =? 43) || (d =? 45))%N; simpl; lia. }
    pose proof (span_digits_length sg.2).
    destruct (span_digits sg.2).1; [discriminate|]. injection Hex as <-. simpl. lia. }
  intros [= _ <-]. lia.
Qed.

Section ParserFuel.
Context {num : Type} `{JSNumber num}.

(** One level of each of the three mutually recursive functions. *)
Lemma parse_value_S fuel s :
  parse_value (num:=num) (S fuel) s =
  (match skip_ws s with
   | [] => None
   | c :: r =>
       if (c =? 34)%N then
         match parse_string_body r with
         | Some (str, r') => Some (JStr (num:=num) str, r')
         | None => None
         end
       else if (c =? 123)%N then
         match skip_ws r with
         | d :: r' =>
             if (d =? 125)%N then Some (JObj [], r')
             else parse_members fuel (d :: r') []
         | [] => None
         end
       else if (c =? 91)%N then
         match skip_ws r with
         | d :: r' =>
             if (d =? 93)%N then Some (JArr [], r')
             else parse_elements fuel (d :: r') []
         | [] => None
         end
       else if starts_with (lit "true") (c :: r) then Some (JBool true, drop 4 (c :: r))
       else if starts_with (lit "false") (c :: r) then Some (JBool false, drop 5 (c :: r))
       else if starts_with (lit "null") (c :: r) then Some (JNull, drop 4 (c :: r))
       else
         match parse_number (c :: r) with
         | Some (text, r') => Some (JNum (num_of_literal text), r')
         | None => None
         end
   end).
Proof. reflexivity. Qed.

Lemma parse_elements_S fuel s acc :
  parse_elements (num:=num) (S fuel) s acc =
  (match parse_value (num:=num) fuel s with
   | Some (v, r) =>
       match skip_ws r with
       | c :: r' =>
           if (c =? 44)%N then parse_elements fuel r' (acc ++ [v])
           else if (c =? 93)%N then Some (JArr (acc ++ [v]), r')
           else None
       | [] => None
       end
   | None => None
   end).
Proof. reflexivity. Qed.

Lemma parse_members_S fuel s acc :
  parse_members (num:=num) (S fuel) s acc =
  (match skip_ws s with
   | q :: r =>
       if (q =? 34)%N then
         match parse_string_body r with
         | Some (key, r1) =>
             match skip_ws r1 with
             | colon :: r2 =>
                 if (colon =? 58)%N then
                   match parse_value (num:=num) fuel r2 with
                   | Some (v, r3) =>
                       match skip_ws r3 with
                       | c :: r4 =>
                           if (c =? 44)%N
                           then parse_members fuel r4 (obj_set key v acc)
                           else if (c =? 125)%N
                           then Some (JObj (obj_set key v acc), r4)
                           else None
                       | [] => None
                       end
                   | None => None
                   end
                 else None
             | [] => None
             end
         | None => None
         end
       else None
   | [] => None
   end).
Proof. reflexivity. Qed.

(** Every successful parse consumes at least one code unit. *)
Lemma parse_consumes fuel :
  (forall s v r, parse_value (num:=num) fuel s = Some (v, r) -> length r < length s)
  /\ (forall s acc v r,
         parse_elements (num:=num) fuel s acc = Some (v, r) -> length r < length s)
  /\ (forall s acc v r,
         parse_members (num:=num) fuel s acc = Some (v, r) -> length r < length s).
Proof.
  induction fuel as [|fuel (IHv & IHe & IHm)]; [by repeat split|].
  repeat split.
  - intros s v r. rewrite parse_value_S.
    pose proof (skip_ws_length s) as Hs.
    destruct (skip_ws s) as [|c r0]; [discriminate|]. simpl in Hs.
    destruct (c =? 34)%N.
    { destruct (parse_string_body r0) as [[str r']|] eqn:Hb; [|discriminate].
      apply parse_string_body_length in Hb. intros [= _ <-]. lia. }
    destruct (c =? 123)%N.
    { pose proof (skip_ws_length r0) as Hr.
      destruct (skip_ws r0) as [|d r']; [discriminate|]. simpl in Hr.
      destruct (d =? 125)%N; [intros [= _ <-]; lia|].
      intros Hm%IHm. simpl in Hm. lia. }
    destruct (c =? 91)%N.
    { pose proof (skip_ws_length r0) as Hr.
      destruct (skip_ws r0) as [|d r']; [discriminate|]. simpl in Hr.
      destruct (d =? 93)%N; [intros [= _ <-]; lia|].
      intros He%IHe. simpl in He. lia. }
    destruct (starts_with (lit "true") (c :: r0)).
    { intros [= _ <-]. rewrite length_drop. simpl. lia. }
    destruct (starts_with (lit "false") (c :: r0)).
    { intros [= _ <-]. rewrite length_drop. simpl. lia. }
    destruct (starts_with (lit "null") (c :: r0)).
    { intros [= _ <-]. rewrite length_drop. simpl. lia. }
    destruct (parse_number (c :: r0)) as [[text r']|] eqn:Hn; [|discriminate].
    apply parse_number_length in Hn. intros [= _ <-]. simpl in Hn. lia.
  - intros s acc v r. rewrite parse_elements_S.
    destruct (parse_value fuel s) as [[v0 r0]|] eqn:Hv; [|discriminate].
    apply IHv in Hv. pose proof (skip_ws_length r0) as Hr.
    destruct (skip_ws r0) as [|c r1]; [discriminate|]. simpl in Hr.
    destruct (c =? 44)%N; [intros He%IHe; lia|].
    destruct (c =? 93)%N; [|discriminate]. intros [= _ <-]. lia.
  - intros s acc v r. rewrite parse_members_S.
    pose proof (skip_ws_length s) as Hs.
    destruct (skip_ws s) as [|q r0]; [discriminate|]. simpl in Hs.
    destruct (q =? 34)%N; [|discriminate].
    destruct (parse_string_body r0) as [[key r1]|] eqn:Hb; [|discriminate].
    apply parse_string_body_length in Hb.
    pose proof (skip_ws_length r1) as Hr1.
    destruct (skip_ws r1) as [|colon r2]; [discriminate|]. simpl in Hr1.
    destruct (colon =? 58)%N; [|discriminate].
    destruct (parse_value fuel r2) as [[v0 r3]|] eqn:Hv; [|discriminate].
    apply IHv in Hv. pose proof (skip_ws_length r3) as Hr3.
    destruct (skip_ws r3) as [|c r4]; [discriminate|]. simpl in Hr3.
    destruct (c =? 44)%N; [intros Hm%IHm; lia|].
    destruct (c =? 125)%N; [|discriminate]. intros [= _ <-]. lia.
Qed.

(** Fuel above twice the length of the text is as good as any more. *)
Lemma parse_fuel_stable fuel :
  (forall s, 2 * length s < fuel ->
             parse_value (num:=num) (S fuel) s = parse_value fuel s)
  /\ (forall s acc, 2 * length s + 1 < fuel ->
                    parse_elements (num:=num) (S fuel) s acc = parse_elements fuel s acc)
  /\ (forall s acc, 2 * length s + 1 < fuel ->
                    parse_members (num:=num) (S fuel) s acc = parse_members fuel s acc).
Proof.
  induction fuel as [|fuel (IHv & IHe & IHm)]; [repeat split; intros; lia|].
  repeat split.
  - intros s Hf.
    rewrite (parse_value_S (S fuel)).
    rewrite (parse_value_S fuel).
    pose proof (skip_ws_length s) as Hs.
    destruct (skip_ws s) as [|c r0]; [done|]. simpl in Hs.
    destruct (c =? 34)%N; [done|].
    pose proof (skip_ws_length r0) as Hr.
    destruct (c =? 123)%N.
    { destruct (skip_ws r0) as [|d r']; [done|]. simpl in Hr.
      destruct (d =? 125)%N; [done|]. apply IHm. simpl. lia. }
    destruct (c =? 91)%N; [|done].
    destruct (skip_ws r0) as [|d r']; [done|]. simpl in Hr.
    destruct (d =? 93)%N; [done|]. apply IHe. simpl. lia.
  - intros s acc Hf.
    rewrite (parse_elements_S (S fuel)).
    rewrite (parse_elements_S fuel), IHv by lia.
    destruct (parse_value fuel s) as [[v0 r0]|] eqn:Hv; [|done].
    apply (proj1 (parse_consumes fuel)) in Hv.
    pose proof (skip_ws_length r0) as Hr.
    destruct (skip_ws r0) as [|c r1]; [done|]. simpl in Hr.
    destruct (c =? 44)%N; [|done]. apply IHe. lia.
  - intros s acc Hf.
    rewrite (parse_members_S (S fuel)).
    rewrite (parse_members_S fuel).
    pose proof (skip_ws_length s) as Hs.
    destruct (skip_ws s) as [|q r0]; [done|]. simpl in Hs.
    destruct (q =? 34)%N; [|done].
    destruct (parse_string_body r0) as [[key r1]|] eqn:Hb; [|done].
    apply parse_string_body_length in Hb.
    pose proof (skip_ws_length r1) as Hr1.
    destruct (skip_ws r1) as [|colon r2]; [done|]. simpl in Hr1.
    destruct (colon =? 58)%N; [|done].
    rewrite IHv by lia.
    destruct (parse_value fuel r2) as [[v0 r3]|] eqn:Hv; [|done].
    apply (proj1 (parse_consumes fuel)) in Hv.
    pose proof (skip_ws_length r3) as Hr3.
    destruct (skip_ws r3) as [|c r4]; [done|]. simpl in Hr3.
    destruct (c =? 44)%N; [|done]. apply IHm. lia.
Qed.

(** [JSON_parse] gives the parser all the fuel it can use. *)
Lemma parse_value_fuel text extra :
  parse_value (num:=num) (S (2 * length text) + extra) text
  = parse_value (S (2 * length text)) text.
Proof.
  induction extra as [|k IH]; [by rewrite Nat.add_0_r|].
  rewrite Nat.add_succ_r, <- IH.
  apply (proj1 (parse_fuel_stable _)). lia.
Qed.
End ParserFuel.

(** ** Fences around a payload *)

(** What follows the payload in a fenced text: a line feed and the fence. *)
Lemma index_of_cons pat c s :
  index_of pat (c :: s)
  = if starts_with pat (c :: s) then Some 0 else S <$> index_of pat s.
Proof. reflexivity. Qed.

Lemma includes_cons pat c s :
  includes pat (c :: s) = false ->
  starts_with pat (c :: s) = false /\ includes pat s = false.
Proof.
  unfold includes. rewrite index_of_cons.
  destruct (starts_with pat (c :: s)); [discriminate|].
  by destruct (index_of pat s).
Qed.

Lemma includes_index_None pat s : includes pat s = false -> index_of pat s = None.
Proof. unfold includes. by destruct (index_of pat s). Qed.

Lemma index_of_bound pat s a : index_of pat s = Some a -> a + length pat <= length s.
Proof.
  revert a. induction s as [|c s IH]; intros a.
  - destruct pat; simpl; [intros [= <-]; simpl; lia|discriminate].
  - rewrite index_of_cons. destruct (starts_with pat (c :: s)) eqn:Hs.
    + intros [= <-]. clear IH. revert Hs. generalize (c :: s). clear.
      induction pat as [|x pat IH]; intros l; simpl; [lia|].
      destruct l as [|y l]; [discriminate|].
      intros [_ Hs]%andb_true_iff. apply IH in Hs. simpl in *. lia.
    + destruct (index_of pat s) as [b|]; [|discriminate].
      intros [= <-]. specialize (IH b eq_refl). simpl. lia.
Qed.

Lemma trim_start_idem s : trim_start (trim_start s) = trim_start s.
Proof.
  induction s as [|c s IH]; [done|]. simpl.
  destruct (is_space c) eqn:Hc; [done|]. simpl. by rewrite Hc.
Qed.

Lemma trim_start_app_keep a c b :
  is_space c = false -> trim_start (a ++ c :: b) = trim_start a ++ c :: b.
Proof.
  intros Hc. induction a as [|x a IH]; simpl.
  - by rewrite Hc.
  - by destruct (is_space x).
Qed.

Lemma trim_start_snoc_space s c :
  is_space c = true ->
  trim_start (s ++ [c])
  = match trim_start s with [] => [] | _ => trim_start s ++ [c] end.
Proof.
  intros Hc. induction s as [|x s IH]; simpl.
  - by rewrite Hc.
  - by destruct (is_space x).
Qed.

Lemma trim_end_snoc_space s c : is_space c = true -> trim_end (s ++ [c]) = trim_end s.
Proof.
  intros Hc. unfold trim_end. rewrite rev_app_distr. simpl. by rewrite Hc.
Qed.

Lemma trim_snoc_space s c : is_space c = true -> trim (s ++ [c]) = trim s.
Proof.
  intros Hc. unfold trim. rewrite (trim_start_snoc_space _ _ Hc).
  destruct (trim_start s) eqn:Hs; [done|]. by rewrite trim_end_snoc_space.
Qed.

Lemma trim_trim_start s : trim (trim_start s) = trim s.
Proof. unfold trim. by rewrite trim_start_idem. Qed.

Lemma trim_start_no_fence s :
  includes fence s = false -> includes fence (trim_start s) = false.
Proof.
  induction s as [|c s IH]; [done|]. intros Hs. simpl.
  destruct (is_space c); [|done]. apply IH. by apply includes_cons in Hs as [_ ?].
Qed.

(** A text without a fence, then a line feed and a fence: the first fence
    is the final one. *)
Lemma index_of_fence_end q :
  includes fence q = false ->
  index_of fence (q ++ 10%N :: fence) = Some (S (length q)).
Proof.
  induction q as [|c q IH]; [reflexivity|].
  intros [Hs Hq]%includes_cons.
  change ((c :: q) ++ 10%N :: fence) with (c :: (q ++ 10%N :: fence)).
  rewrite index_of_cons, (IH Hq).
  assert (starts_with fence (c :: q ++ 10%N :: fence) = false) as ->; [|done].
  destruct q as [|d [|e q]]; simpl in *.
  - by rewrite andb_false_r.
  - by rewrite !andb_false_r.
  - exact Hs.
Qed.

(** The suffix [10 :: fence] holds no brace and no double quote, so it
    neither completes nor adds an occurrence of the patterns searched by
    the third strategy. *)
Lemma index_of_suffix pat suf :
  index_of pat suf = None ->
  (forall s, starts_with pat (s ++ suf) = starts_with pat s) ->
  forall s, index_of pat (s ++ suf) = index_of pat s.
Proof.
  intros Hsuf Hsw s. induction s as [|c s IH].
  - simpl. rewrite Hsuf. specialize (Hsw []). simpl in Hsw.
    destruct pat; simpl in *; [|done].
    destruct suf; simpl in *; discriminate.
  - change ((c :: s) ++ suf) with (c :: (s ++ suf)).
    rewrite !index_of_cons, IH.
    change (c :: (s ++ suf)) with ((c :: s) ++ suf). by rewrite Hsw.
Qed.

Lemma starts_with_char_suffix (x : N) s :
  x <> 10%N -> x <> 96%N ->
  starts_with [x] (s ++ 10%N :: fence) = starts_with [x] s.
Proof.
  intros H10 H96. destruct s as [|c s]; [|done].
  simpl. rewrite andb_true_r. by apply N.eqb_neq.
Qed.

Lemma starts_with_quoted_suffix s :
  starts_with quoted_nodes (s ++ 10%N :: fence) = starts_with quoted_nodes s.
Proof.
  change quoted_nodes with [34; 110; 111; 100; 101; 115; 34]%N.
  do 7 (destruct s as [|? s]; [cbn; rewrite ?andb_false_r; reflexivity|]).
  reflexivity.
Qed.

Lemma index_of_char_suffix (x : N) s :
  x <> 10%N -> x <> 96%N ->
  index_of [x] (s ++ 10%N :: fence) = index_of [x] s.
Proof.
  intros H10 H96. apply index_of_suffix.
  - cbn. rewrite !andb_true_r.
    destruct (N.eqb_spec x 10); [done|]. by destruct (N.eqb_spec x 96).
  - intros s'. by apply starts_with_char_suffix.
Qed.

Lemma index_of_quoted_suffix s :
  index_of quoted_nodes (s ++ 10%N :: fence) = index_of quoted_nodes s.
Proof.
  apply index_of_suffix; [reflexivity|]. apply starts_with_quoted_suffix.
Qed.

(** A prefix without the character searched for only shifts the index. *)
Lemma index_of_char_prefix (x : N) pre s :
  Forall (fun c => c <> x) pre ->
  index_of [x] (pre ++ s) = (fun a => length pre + a) <$> index_of [x] s.
Proof.
  induction 1 as [|c pre Hc _ IH]; simpl app.
  - by destruct (index_of [x] s).
  - rewrite index_of_cons, IH.
    assert (starts_with [x] (c :: pre ++ s) = false) as ->.
    { simpl. rewrite andb_true_r. apply N.eqb_neq. congruence. }
    by destruct (index_of [x] s).
Qed.

Lemma fenced_split tagged p :
  fenced tagged p
  = (fence ++ (if tagged then lit "json" else []) ++ [10%N]) ++ p ++ 10%N :: fence.
Proof. unfold fenced. by rewrite <- !app_assoc. Qed.

Lemma trim_fenced tagged p : trim (fenced tagged p) = fenced tagged p.
Proof.
  assert (exists s, fenced tagged p = 96%N :: s ++ [96%N]) as [s ->].
  { exists ([96; 96]%N ++ (if tagged then lit "json" else []) ++ [10%N] ++ p
            ++ [10; 96; 96]%N).
    unfold fenced, fence. rewrite <- !app_assoc. reflexivity. }
  unfold trim, trim_end. change (trim_start (96%N :: s ++ [96%N])) with (96%N :: s ++ [96%N]).
  change (96%N :: s ++ [96%N]) with ((96%N :: s) ++ [96%N]).
  rewrite rev_app_distr. change (trim_start (rev [96%N] ++ rev (96%N :: s)))
    with (96%N :: rev (96%N :: s)).
  change (96%N :: rev (96%N :: s)) with (rev [96%N] ++ rev (96%N :: s)).
  by rewrite <- rev_app_distr, rev_involutive.
Qed.

Section FenceFacts.
Context {num : Type} `{JSNumber num}.

Lemma JSON_parse_backtick rest : JSON_parse (num:=num) (96%N :: rest) = None.
Proof. reflexivity. Qed.

Lemma try_parse_fenced tagged p : try_parse (num:=num) (trim (fenced tagged p)) = None.
Proof.
  rewrite trim_fenced. unfold try_parse, fenced, fence. cbn [app].
  by rewrite JSON_parse_backtick.
Qed.

(** The fence expression captures the payload, give or take whitespace. *)
Lemma fenceMatch_fenced tagged p :
  includes fence p = false ->
  exists m, fenceMatch (fenced tagged p) = Some m /\ trim m = trim p.
Proof.
  intros Hp. unfold fenceMatch.
  assert (trim_start (if starts_with (lit "json") (drop (0 + 3) (fenced tagged p))
                      then drop 4 (drop (0 + 3) (fenced tagged p))
                      else drop (0 + 3) (fenced tagged p))
          = trim_start (p ++ [10%N]) ++ fence) as Hbody.
  { replace (if starts_with (lit "json") (drop (0 + 3) (fenced tagged p))
             then drop 4 (drop (0 + 3) (fenced tagged p))
             else drop (0 + 3) (fenced tagged p))
      with (10%N :: (p ++ [10%N]) ++ 96%N :: [96; 96]%N).
    - change (trim_start (10%N :: ?s)) with (trim_start s).
      by rewrite trim_start_app_keep.
    - rewrite <- app_assoc. by destruct tagged. }
  change (index_of fence (fenced tagged p)) with (Some 0).
  cbn [mbind option_bind]. rewrite Hbody.
  rewrite (trim_start_snoc_space p 10) by done.
  destruct (trim_start p) as [|c q] eqn:Hq.
  - exists []. split; [reflexivity|]. unfold trim. by rewrite Hq.
  - exists (trim_start p ++ [10%N]). rewrite <- Hq, <- app_assoc.
    change ([10%N] ++ fence) with (10%N :: fence).
    rewrite index_of_fence_end by (by apply trim_start_no_fence).
    cbn [mbind option_bind]. split.
    + f_equal. change (10%N :: fence) with ([10%N] ++ fence). rewrite app_assoc.
      replace (S (length (trim_start p))) with (length (trim_start p ++ [10%N]))
        by (rewrite length_app; simpl; lia).
      apply take_app_length.
    + by rewrite trim_snoc_space, trim_trim_start.
Qed.

Lemma fenceMatch_no_fence p : includes fence p = false -> fenceMatch p = None.
Proof. intros Hp. unfold fenceMatch. by rewrite (includes_index_None _ _ Hp). Qed.

(** The brace expression matches the fenced text exactly when it matches
    the payload. *)
Lemma braceMatch_fenced tagged p : braceMatch (fenced tagged p) = braceMatch p.
Proof.
  rewrite fenced_split. set (pre := fence ++ _ ++ [10%N]).
  unfold braceMatch.
  rewrite (index_of_char_prefix 123 pre).
  2:{ subst pre. destruct tagged; repeat constructor; discriminate. }
  rewrite index_of_char_suffix by done.
  destruct (index_of [123%N] p) as [a|] eqn:Ha; [|done].
  apply index_of_bound in Ha. simpl in Ha. cbn [fmap option_fmap option_map].
  rewrite drop_app_ge by lia.
  replace (length pre + a + 1 - length pre) with (a + 1) by lia.
  rewrite drop_app_le by lia.
  rewrite index_of_quoted_suffix.
  destruct (index_of quoted_nodes (drop (a + 1) p)) as [b|] eqn:Hb; [|done].
  apply index_of_bound in Hb. change (length quoted_nodes) with 7 in Hb.
  rewrite drop_app_le by lia.
  unfold includes. by rewrite index_of_char_suffix.
Qed.

(** The depth-tracking loop over the fenced text: the prefix and the suffix
    hold no brace, and inside the payload the loop sees the same braces and
    cuts the same candidates, at shifted positions. *)
Lemma scan_prefix raw pre rest i depth start :
  Forall (fun c => c <> 123%N /\ c <> 125%N) pre ->
  scan (num:=num) raw (pre ++ rest) i depth start
  = scan raw rest (i + length pre) depth start.
Proof.
  intros Hpre. revert i. induction Hpre as [|c pre [H1 H2] _ IH]; intros i.
  - by rewrite Nat.add_0_r.
  - cbn [app scan length].
    destruct (N.eqb_spec c 123); [done|]. destruct (N.eqb_spec c 125); [done|].
    rewrite IH. f_equal. lia.
Qed.

Lemma slice_shift (pre p suf : jsstring) a b :
  a <= b -> b <= length p ->
  slice (length pre + a) (length pre + b) (pre ++ p ++ suf) = slice a b p.
Proof.
  intros Hab Hb. unfold slice.
  rewrite drop_app_ge by lia.
  replace (length pre + a - length pre) with a by lia.
  rewrite drop_app_le by lia.
  replace (length pre + b - (length pre + a)) with (b - a) by lia.
  rewrite take_app_le; [done|]. rewrite length_drop. lia.
Qed.

Lemma scan_shift pre p rest i depth start :
  i + length rest <= length p ->
  (-1 <= start <= Z.of_nat i)%Z ->
  scan (num:=num) (pre ++ p ++ 10%N :: fence) (rest ++ 10%N :: fence)
       (length pre + i) depth
       (if (0 <=? start)%Z then start + Z.of_nat (length pre) else start)%Z
  = scan p rest i depth start.
Proof.
  revert i depth start. induction rest as [|c rest IH]; intros i depth start Hi Hs.
  - reflexivity.
  - cbn [app scan]. cbn [length] in Hi.
    replace (length pre + i + 1) with (length pre + (i + 1)) by lia.
    destruct (N.eqb_spec c 123).
    + rewrite <- IH by (destruct (depth =? 0)%Z; lia). f_equal.
      destruct (depth =? 0)%Z; [|done].
      destruct (Z.leb_spec 0 (Z.of_nat i)); [|lia].
      destruct (Z.leb_spec 0 start); lia.
    + destruct (N.eqb_spec c 125).
      * rewrite <- IH by lia.
        assert ((0 <=? (if (0 <=? start)%Z then start + Z.of_nat (length pre) else start))%Z
                = (0 <=? start)%Z) as ->.
        { destruct (Z.leb_spec 0 start); [apply Z.leb_le|apply Z.leb_gt]; lia. }
        destruct ((depth - 1 =? 0)%Z && (0 <=? start)%Z) eqn:Hhit; [|done].
        apply andb_true_iff in Hhit as [_ Hpos%Z.leb_le].
        destruct (Z.leb_spec 0 start) as [_|]; [|lia].
        replace (Z.to_nat (start + Z.of_nat (length pre)))
          with (length pre + Z.to_nat start) by lia.
        by rewrite slice_shift by lia.
      * by rewrite <- IH by lia.
Qed.

Lemma scan_fenced tagged p :
  scan (num:=num) (fenced tagged p) (fenced tagged p) 0 0 (-1) = scan p p 0 0 (-1).
Proof.
  rewrite fenced_split. set (pre := fence ++ _ ++ [10%N]).
  rewrite scan_prefix.
  2:{ subst pre. destruct tagged; repeat constructor; discriminate. }
  rewrite <- (scan_shift pre p p 0 0 (-1)) by lia.
  simpl. by rewrite Nat.add_0_r.
Qed.

Lemma extractJSON_text p : extractJSON (num:=num) (JStr p) = extract_text p.
Proof. by destruct p. Qed.

(** C8, amended. For every payload that contains no triple backtick,
    [extractJSON] returns on the payload wrapped in a fence, tagged [json]
    or not, exactly what it returns on the payload itself; when the
    payload is valid JSON decoding to an object whose [nodes] and [edges]
    fields are both truthy, that common result is the decoded object. *)
Theorem extractJSON_fence_invariant (tagged : bool) (p : jsstring) :
  includes fence p = false ->
  extractJSON (num:=num) (JStr (fenced tagged p)) = extractJSON (JStr p)
  /\ forall parsed,
      JSON_parse (trim p) = Some parsed -> graph_shaped parsed = true ->
      extractJSON (JStr (fenced tagged p)) = Some parsed
      /\ extractJSON (JStr p) = Some parsed.
Proof.
  intros Hp.
  assert (extractJSON (num:=num) (JStr (fenced tagged p)) = extractJSON (JStr p)) as Heq.
  { rewrite !extractJSON_text. unfold extract_text.
    rewrite try_parse_fenced, (fenceMatch_no_fence p Hp).
    destruct (fenceMatch_fenced tagged p Hp) as (m & -> & Hm).
    cbn [from_option]. rewrite Hm.
    destruct (try_parse (trim p)); [done|].
    by rewrite braceMatch_fenced, scan_fenced. }
  split; [exact Heq|].
  intros parsed Hparse Hshape.
  rewrite Heq, extractJSON_text. unfold extract_text, try_parse.
  by rewrite Hparse, Hshape.
Qed.
End FenceFacts.

Lemma extractJSON_fence_invariant_witness :
  extractJSON (num:=Z) (JStr (fenced true plain_payload))
  = extractJSON (JStr plain_payload).
Proof.
  destruct (extractJSON_fence_invariant (num:=Z) true plain_payload) as [Heq _].
  - vm_compute. reflexivity.
  - exact Heq.
Defined.

(** C8 as stated fails: the payload below is valid JSON decoding to an
    object with a [nodes] and an [edges] field, and [extractJSON] returns
    that object; wrapped in a fence, tagged or not, nothing is extracted.
    The fence inside the label ends the fenced block early, and the brace
    inside the label unbalances the depth count. *)
Lemma extractJSON_fence_not_invariant :
  JSON_parse backtick_payload = Some backtick_value
  /\ extractJSON (JStr backtick_payload) = Some backtick_value
  /\ extractJSON (num:=Z) (JStr (fenced true backtick_payload)) = None
  /\ extractJSON (num:=Z) (JStr (fenced false backtick_payload)) = None.
Proof. repeat split; vm_compute; reflexivity. Qed.

(** * Further properties *)

(** ** The sanitizer *)

Lemma exn_filter_app {A} (p : A -> exn bool) xs ys :
  exn_filter p (xs ++ ys)
  = (a <-! exn_filter p xs; b <-! exn_filter p ys; Val (a ++ b)).
Proof.
  induction xs as [|x xs IH]; simpl.
  - by destruct (exn_filter p ys).
  - destruct (p x) as [b|]; simpl; [|done]. rewrite IH.
    destruct (exn_filter p xs) as [a|]; simpl; [|done].
    destruct (exn_filter p ys) as [c|]; simpl; [|done]. by destruct b.
Qed.

Section MoreSanitizer.
Context {num : Type} `{JSNumber num}.
Implicit Types (raw data : JV num) (g : AIGeneratedFlow num).

Lemma sanitize_edge_pass raw e : sanitize_edge raw = Val e -> edge_pass raw e.
Proof.
  intros Hs.
  split; revert Hs; unfold sanitize_edge;
    destruct (to_str_opt (get (lit "source") raw)) as [src|];
    destruct (to_str_opt (get (lit "target") raw)) as [tgt|];
    destruct (truthy_opt (get (lit "id") raw)) eqn:Hid;
    destruct (truthy_opt (get (lit "label") raw)) eqn:Hl;
    destruct (to_str_opt (get (lit "id") raw)) as [i|];
    destruct (to_str_opt (get (lit "label") raw)) as [l|];
    cbn [exn_bind]; try discriminate;
    intros [= <-]; cbn [e_id e_source e_target e_label e_animated];
    try done; eauto.
Qed.

(** X1. A graph returned by the sanitizer has at least one node and never
    more nodes or edges than the input arrays hold; every returned edge is
    animated and every returned label has at most 40 code units. *)
Theorem validateFlowchart_output_shape data g :
  validateFlowchart data = Val (Some g) ->
  nodes g <> []
  /\ Forall (fun e => e_animated e = Some true) (edges g)
  /\ Forall (fun n => length (label (n_data n)) <= 40) (nodes g)
  /\ exists raws es,
      get (lit "nodes") data = Some (JArr raws)
      /\ get (lit "edges") data = Some (JArr es)
      /\ length (nodes g) <= length raws
      /\ length (edges g) <= length es.
Proof.
  intros Hv.
  destruct (validateFlowchart_sanitized data g Hv) as [[Hne _ Han] Hlen].
  apply validateFlowchart_inv in Hv as (raws & es & Hr & He & _ & Hns & Hes).
  split; [done|]. split; [by apply Forall_forall|]. split; [done|].
  exists raws, es. split; [done|]. split; [done|].
  apply Forall2_length in Hns. apply exn_map_Forall2, Forall2_length in Hes.
  pose proof (List.filter_length_le node_survives raws).
  pose proof (List.filter_length_le (edge_survives (node_ids (nodes g))) es).
  lia.
Qed.

(** X2. Edge pass of the sanitizer: the returned edges are, in order, the
    kept raw entries with source and target printed as strings, the id
    printed when truthy and otherwise made up as e-<source>-<target>, the
    label carried over only when truthy, and [animated] forced to true. *)
Theorem validateFlowchart_edge_pass data g :
  validateFlowchart data = Val (Some g) ->
  exists es,
    get (lit "edges") data = Some (JArr es)
    /\ Forall2 edge_pass (List.filter (edge_survives (node_ids (nodes g))) es)
               (edges g).
Proof.
  intros Hv.
  apply validateFlowchart_inv in Hv as (raws & es & _ & He & _ & _ & Hes).
  exists es. split; [done|].
  apply exn_map_Forall2 in Hes. eapply Forall2_impl; [exact Hes|].
  intros raw e. apply sanitize_edge_pass.
Qed.

(** X3. The sanitizer answers [null] exactly when the input lacks an array
    [nodes] or an array [edges], or no entry of [nodes] has both a truthy
    id and a truthy label. *)
Theorem validateFlowchart_null_iff data :
  validateFlowchart data = Val None <->
  ~ exists raws es,
      get (lit "nodes") data = Some (JArr raws)
      /\ get (lit "edges") data = Some (JArr es)
      /\ List.filter node_survives raws <> [].
Proof.
  unfold validateFlowchart. split.
  - intros Hv (raws & es & Hr & He & Hne). revert Hv.
    assert (truthy data = true) as -> by (by destruct data).
    rewrite Hr, He. cbn [negb].
    destruct raws as [|raw0 raws']; [done|]. cbn [length Nat.eqb].
    rewrite (filter_agree _ _ _ keep_node_survives).
    destruct (sanitize_nodes ∅ _) as [r|] eqn:Hs; cbn [exn_bind]; [|done].
    apply sanitize_nodes_length in Hs.
    destruct (List.filter node_survives (raw0 :: raws')) as [|k ks]; [done|].
    destruct r.2 as [|n ns]; [done|]. cbn [length Nat.eqb].
    destruct (exn_filter _ es) as [kept|]; cbn [exn_bind]; [|done].
    by destruct (exn_map sanitize_edge kept).
  - intros Hno. destruct (negb (truthy data)); [done|].
    destruct (get (lit "nodes") data) as [[| | | |raws|]|]; try done.
    destruct (get (lit "edges") data) as [[| | | |es|]|]; try done.
    destruct (Nat.eqb (length raws) 0); [done|].
    rewrite (filter_agree _ _ _ keep_node_survives).
    destruct (List.filter node_survives raws) as [|k ks] eqn:Hk; [done|].
    destruct Hno. exists raws, es. by rewrite Hk.
Qed.

Lemma graph_value_nodes raws es :
  get (lit "nodes") (graph_value (num:=num) raws es) = Some (JArr raws).
Proof. reflexivity. Qed.

Lemma graph_value_edges raws es :
  get (lit "edges") (graph_value (num:=num) raws es) = Some (JArr es).
Proof. reflexivity. Qed.

(** X4. Dropping is local: when [{nodes, edges}] is accepted and one edge
    entry is among the dropped ones, removing that entry from [edges]
    gives the same graph. *)
Theorem validateFlowchart_dropped_edge_is_inert raws es1 bad es2 g :
  validateFlowchart (graph_value raws (es1 ++ bad :: es2)) = Val (Some g) ->
  edge_survives (node_ids (nodes g)) bad = false ->
  validateFlowchart (graph_value raws (es1 ++ es2)) = Val (Some g).
Proof.
  intros Hv Hbad.
  pose proof (validateFlowchart_inv _ _ Hv) as (raws' & es' & Hr & He & _ & _ & _).
  rewrite graph_value_nodes in Hr. injection Hr as <-. clear es' He.
  revert Hv. unfold validateFlowchart.
  rewrite !graph_value_nodes, !graph_value_edges.
  change (truthy (graph_value raws ?es)) with true. cbn [negb].
  destruct (Nat.eqb (length raws) 0); [done|].
  destruct (sanitize_nodes ∅ _) as [[S ns]|] eqn:Hs; cbn [exn_bind fst snd]; [|done].
  destruct (Nat.eqb (length ns) 0); [done|].
  apply sanitize_nodes_inv in Hs as [-> _].
  rewrite !exn_filter_app. cbn [exn_filter].
  destruct (exn_filter _ es1) as [k1|]; cbn [exn_bind]; [|done].
  destruct (keep_edge _ bad) as [b|] eqn:Hb; cbn [exn_bind]; [|done].
  destruct (exn_filter _ es2) as [k2|]; cbn [exn_bind]; [|done].
  destruct b; [|done].
  destruct (exn_map sanitize_edge (k1 ++ bad :: k2)) as [out|]; cbn [exn_bind]; [|done].
  intros [= <-]. cbn [nodes] in Hbad.
  rewrite <- (keep_edge_survives (∅ ∪ list_to_set (node_ids ns))) in Hbad
    by set_solver.
  unfold holds in Hbad. rewrite Hb in Hbad. discriminate.
Qed.
End MoreSanitizer.

(** ** The sanitizer on plain values *)

Section PlainValues.
Context {num : Type} `{JSNumber num}.
Implicit Types (raw data v : JV num).

(** X5. The sanitizer raises no exception on a value in which no object
    carries an own property named [toString]; it answers with a graph or
    with [null]. *)
Theorem validateFlowchart_raises_only_on_toString data :
  has_toString data = false -> exists r, validateFlowchart data = Val r.
Proof.
  intros Hp. unfold validateFlowchart.
  destruct (negb (truthy data)); [eauto|].
  destruct (get (lit "nodes") data) as [[| | | |raws|]|] eqn:Hr; eauto.
  destruct (get (lit "edges") data) as [[| | | |es|]|] eqn:He; eauto.
  destruct (Nat.eqb (length raws) 0); [eauto|].
  apply (get_plain _ _ _ Hp) in Hr. apply (get_plain _ _ _ Hp) in He.
  cbn [has_toString] in Hr, He.
  apply existsb_false_Forall in Hr. apply existsb_false_Forall in He.
  destruct (sanitize_nodes_total ∅ (List.filter keep_node raws)) as [r ->].
  { rewrite Forall_forall in Hr. apply Forall_forall.
    intros raw [Hin Hk]%list_elem_of_In%List.filter_In.
    split; [apply Hr; by apply list_elem_of_In|done]. }
  cbn [exn_bind]. destruct (Nat.eqb (length r.2) 0); [eauto|].
  destruct (exn_filter_total (keep_edge r.1) es) as (kept & -> & Hin).
  { eapply Forall_impl; [exact He|]. intros raw. apply keep_edge_total. }
  cbn [exn_bind].
  destruct (exn_map_total sanitize_edge kept) as [out ->]; [|cbn; eauto].
  rewrite Forall_forall in He. apply Forall_forall.
  intros raw Hraw%list_elem_of_In%Hin. apply sanitize_edge_total, He.
  by apply list_elem_of_In.
Qed.
End PlainValues.

(** ** The extractor *)

Lemma piece_of_refl s : piece_of s s.
Proof. exists [], []. by rewrite app_nil_r. Qed.

Lemma piece_of_trans a b c : piece_of a b -> piece_of b c -> piece_of a c.
Proof.
  intros (x & y & ->) (x' & y' & ->). exists (x' ++ x), (y ++ y').
  by rewrite <- !app_assoc.
Qed.

Lemma piece_of_drop n s : piece_of (drop n s) s.
Proof. exists (take n s), []. by rewrite app_nil_r, take_drop. Qed.

Lemma piece_of_take n s : piece_of (take n s) s.
Proof. exists [], (drop n s). by rewrite take_drop. Qed.

Lemma piece_of_trim_start s : piece_of (trim_start s) s.
Proof.
  induction s as [|c s IH]; simpl; [apply piece_of_refl|].
  destruct (is_space c); [|apply piece_of_refl].
  eapply piece_of_trans; [exact IH|]. exists [c], []. by rewrite app_nil_r.
Qed.

Lemma piece_of_rev a b : piece_of a b -> piece_of (rev a) (rev b).
Proof.
  intros (x & y & ->). exists (rev y), (rev x).
  by rewrite !rev_app_distr, <- app_assoc.
Qed.

Lemma piece_of_trim s : piece_of (trim s) s.
Proof.
  unfold trim, trim_end. eapply piece_of_trans; [|apply piece_of_trim_start].
  rewrite <- (rev_involutive (trim_start s)) at 2.
  apply piece_of_rev, piece_of_trim_start.
Qed.

Lemma piece_of_slice a b s : piece_of (slice a b s) s.
Proof.
  unfold slice. eapply piece_of_trans; [apply piece_of_take|apply piece_of_drop].
Qed.

Lemma piece_of_In (c : N) a b : piece_of a b -> In c a -> In c b.
Proof. intros (x & y & ->) Hin. apply in_or_app. right. apply in_or_app. by left. Qed.

Lemma skip_ws_piece s : piece_of (skip_ws s) s.
Proof.
  induction s as [|c s IH]; simpl; [apply piece_of_refl|].
  destruct (json_ws c); [|apply piece_of_refl].
  eapply piece_of_trans; [exact IH|]. exists [c], []. by rewrite app_nil_r.
Qed.

Section ExtractorSound.
Context {num : Type} `{JSNumber num}.

Lemma try_parse_Some text v :
  try_parse (num:=num) text = Some v ->
  JSON_parse text = Some v /\ graph_shaped v = true.
Proof.
  unfold try_parse. destruct (JSON_parse text) as [p|]; [|discriminate].
  destruct (graph_shaped p) eqn:Hg; [|discriminate]. by intros [= <-].
Qed.

Lemma fenceMatch_piece raw m : fenceMatch raw = Some m -> piece_of m raw.
Proof.
  unfold fenceMatch. destruct (index_of fence raw) as [i|]; [|discriminate].
  cbn [mbind option_bind].
  set (after := drop (i + 3) raw).
  set (untagged := if starts_with (lit "json") after then drop 4 after else after).
  destruct (index_of fence (trim_start untagged)) as [j|]; [|discriminate].
  cbn [mbind option_bind]. intros [= <-].
  eapply piece_of_trans; [apply piece_of_take|].
  eapply piece_of_trans; [apply piece_of_trim_start|].
  assert (piece_of untagged after) as Hu.
  { subst untagged. destruct (starts_with _ after);
      [apply piece_of_drop|apply piece_of_refl]. }
  eapply piece_of_trans; [exact Hu|apply piece_of_drop].
Qed.

Lemma scan_Some raw rest i depth start v :
  scan (num:=num) raw rest i depth start = Some v ->
  graph_shaped v = true
  /\ exists text, piece_of text raw /\ JSON_parse text = Some v.
Proof.
  revert i depth start. induction rest as [|c rest IH]; intros i depth start.
  { discriminate. }
  cbn [scan]. destruct (c =? 123)%N; [apply IH|].
  destruct (c =? 125)%N; [|apply IH].
  destruct (_ && _); [|apply IH].
  destruct (includes quoted_nodes _); [|apply IH].
  destruct (try_parse _) as [p|] eqn:Hp; [|apply IH].
  intros [= <-]. apply try_parse_Some in Hp as [Hp Hg].
  split; [done|]. eexists. split; [apply piece_of_slice|exact Hp].
Qed.

(** Each of the three strategies hands [JSON.parse] a piece of the text. *)
Lemma extract_text_piece (raw : jsstring) (v : JV num) :
  extract_text raw = Some v ->
  graph_shaped v = true
  /\ exists text, piece_of text raw /\ JSON_parse text = Some v.
Proof.
  unfold extract_text.
  destruct (try_parse (trim raw)) as [p|] eqn:H1.
  { intros [= <-]. apply try_parse_Some in H1 as [Hp Hg].
    split; [done|]. eexists. split; [apply piece_of_trim|exact Hp]. }
  destruct (fenceMatch raw) as [m|] eqn:Hm; cbn [from_option].
  - destruct (try_parse (trim m)) as [p|] eqn:H2.
    + intros [= <-]. apply try_parse_Some in H2 as [Hp Hg].
      split; [done|]. eexists. split; [|exact Hp].
      eapply piece_of_trans; [apply piece_of_trim|by apply fenceMatch_piece].
    + destruct (braceMatch raw); [apply scan_Some|discriminate].
  - destruct (braceMatch raw); [apply scan_Some|discriminate].
Qed.

(** X6. Whatever [extractJSON] returns was decoded by [JSON.parse] from a
    contiguous piece of the text and has truthy [nodes] and [edges]
    fields. *)
Theorem extractJSON_sound (raw : jsstring) (v : JV num) :
  extractJSON (JStr raw) = Some v ->
  graph_shaped v = true
  /\ exists text, piece_of text raw /\ JSON_parse text = Some v.
Proof. rewrite extractJSON_text. apply extract_text_piece. Qed.

(** The parser gives an object only for a text whose first significant
    character is an opening brace. *)
Lemma parse_elements_array fuel s acc v r :
  parse_elements (num:=num) fuel s acc = Some (v, r) -> exists l, v = JArr l.
Proof.
  revert s acc. induction fuel as [|fuel IH]; intros s acc; [discriminate|].
  rewrite parse_elements_S.
  destruct (parse_value fuel s) as [[v0 r0]|]; [|discriminate].
  destruct (skip_ws r0) as [|c r1]; [discriminate|].
  destruct (c =? 44)%N; [apply IH|].
  destruct (c =? 93)%N; [|discriminate]. intros [= <- _]. eauto.
Qed.

Lemma parse_object_brace fuel s fields r :
  parse_value (num:=num) fuel s = Some (JObj fields, r) -> In 123%N s.
Proof.
  destruct fuel as [|fuel]; [discriminate|]. rewrite parse_value_S.
  pose proof (skip_ws_piece s) as Hp.
  destruct (skip_ws s) as [|c r0]; [discriminate|].
  destruct (c =? 34)%N.
  { destruct (parse_string_body r0) as [[??]|]; discriminate. }
  destruct (N.eqb_spec c 123) as [->|_].
  { intros _. eapply piece_of_In; [exact Hp|]. by left. }
  destruct (c =? 91)%N.
  { destruct (skip_ws r0) as [|d r']; [discriminate|].
    destruct (d =? 93)%N; [discriminate|].
    intros [l [=]]%parse_elements_array. }
  destruct (starts_with (lit "true") (c :: r0)); [discriminate|].
  destruct (starts_with (lit "false") (c :: r0)); [discriminate|].
  destruct (starts_with (lit "null") (c :: r0)); [discriminate|].
  destruct (parse_number (c :: r0)) as [[??]|]; discriminate.
Qed.

(** X7. A text without an opening brace yields nothing. *)
Theorem extractJSON_needs_brace (raw : jsstring) :
  ~ In 123%N raw -> extractJSON (num:=num) (JStr raw) = None.
Proof.
  intros Hno. destruct (extractJSON (JStr raw)) as [v|] eqn:He; [|done].
  destruct Hno.
  rewrite extractJSON_text in He.
  apply extract_text_piece in He as (Hg & text & Hpiece & Hparse).
  eapply piece_of_In; [exact Hpiece|].
  unfold JSON_parse in Hparse.
  destruct (parse_value _ text) as [[v' r]|] eqn:Hv; [|discriminate].
  destruct (skip_ws r); [|discriminate]. injection Hparse as ->.
  destruct v as [| | | | |fields]; try discriminate.
  by eapply parse_object_brace.
Qed.
End ExtractorSound.

(** ** A payload inside prose *)

Lemma starts_with_self pat s : starts_with pat (pat ++ s) = true.
Proof. induction pat as [|c pat IH]; simpl; [done|]. by rewrite N.eqb_refl. Qed.

Lemma index_of_occurs pat x y :
  exists b, index_of pat (x ++ pat ++ y) = Some b /\ b <= length x.
Proof.
  induction x as [|c x (b & IH & Hb)].
  - exists 0. split; [|done]. simpl app.
    destruct pat as [|p pat]; [by destruct y|].
    change ((p :: pat) ++ y) with (p :: (pat ++ y)).
    rewrite index_of_cons.
    change (p :: (pat ++ y)) with ((p :: pat) ++ y). by rewrite starts_with_self.
  - change ((c :: x) ++ pat ++ y) with (c :: (x ++ pat ++ y)).
    rewrite index_of_cons, IH.
    destruct (starts_with pat _); [exists 0|exists (S b)]; simpl; split; (done || lia).
Qed.

Lemma includes_occurs pat x y : includes pat (x ++ pat ++ y) = true.
Proof.
  unfold includes. by destruct (index_of_occurs pat x y) as (b & -> & _).
Qed.

Lemma braceMatch_occurs a b c d :
  braceMatch (a ++ 123%N :: b ++ quoted_nodes ++ c ++ 125%N :: d) = true.
Proof.
  unfold braceMatch.
  destruct (index_of_occurs [123%N] a (b ++ quoted_nodes ++ c ++ 125%N :: d))
    as (i & Hi & Hle).
  change ([123%N] ++ ?s) with (123%N :: s) in Hi. rewrite Hi.
  assert (exists x, drop (i + 1) (a ++ 123%N :: b ++ quoted_nodes ++ c ++ 125%N :: d)
                    = x ++ quoted_nodes ++ c ++ 125%N :: d) as [x ->].
  { exists (drop (i + 1) (a ++ 123%N :: b)).
    change (a ++ 123%N :: b ++ ?s) with (a ++ (123%N :: b) ++ s).
    rewrite (app_assoc a). apply drop_app_le. rewrite length_app. simpl. lia. }
  destruct (index_of_occurs quoted_nodes x (c ++ 125%N :: d)) as (j & -> & Hj).
  rewrite (app_assoc x), drop_app_le by (rewrite length_app; simpl; lia).
  change (125%N :: d) with ([125%N] ++ d).
  rewrite (app_assoc _ c). apply includes_occurs.
Qed.

Section Prose.
Context {num : Type} `{JSNumber num}.

(** Past the opening brace of the payload, the loop cuts its first
    candidate exactly where the payload's braces close. *)
Lemma scan_closes raw body after i depth start p v :
  closes depth body = true -> (1 <= depth)%Z -> (0 <= start)%Z ->
  slice (Z.to_nat start) (i + length body) raw = p ->
  includes quoted_nodes p = true -> try_parse p = Some v ->
  scan (num:=num) raw (body ++ after) i depth start = Some v.
Proof.
  revert i depth. induction body as [|c body IH]; intros i depth; [discriminate|].
  cbn [closes app scan length]. intros Hc Hd Hs Hp Hq Hv.
  replace (i + S (length body)) with (i + 1 + length body) in Hp by lia.
  destruct (c =? 123)%N.
  { destruct (Z.eqb_spec depth 0); [lia|]. apply IH; (done || lia). }
  destruct (c =? 125)%N; [|by apply IH].
  destruct (Z.eqb_spec (depth - 1) 0) as [Hz|Hz].
  - destruct body; [|discriminate]. cbn [length] in Hp.
    rewrite Nat.add_0_r in Hp.
    destruct (Z.leb_spec 0 start); [|lia]. cbn [andb].
    by rewrite Hp, Hq, Hv.
  - cbn [andb]. apply IH; (done || lia).
Qed.

(** X8. A payload inside prose is recovered by the third strategy.  Let
    the text be a prefix without braces, then a payload that begins with an
    opening brace, contains the quoted word "nodes", ends with the closing
    brace that matches the opening one and decodes to an object with truthy
    [nodes] and [edges], then anything.  If the text has no fence and is
    not as a whole such an object, [extractJSON] returns the payload's
    object. *)
Theorem extractJSON_payload_in_prose (pre b c after : jsstring) (v : JV num) :
  let body := b ++ quoted_nodes ++ c ++ [125%N] in
  let raw := pre ++ 123%N :: body ++ after in
  Forall (fun x => x <> 123%N /\ x <> 125%N) pre ->
  closes 1 body = true ->
  try_parse (123%N :: body) = Some v ->
  try_parse (trim raw) = None ->
  includes fence raw = false ->
  extractJSON (JStr raw) = Some v.
Proof.
  intros body raw Hpre Hc Hv H1 Hf.
  rewrite extractJSON_text. unfold extract_text.
  rewrite H1, (fenceMatch_no_fence raw Hf). cbn [from_option].
  assert (braceMatch raw = true) as ->.
  { subst raw body. rewrite <- !app_assoc. apply braceMatch_occurs. }
  subst raw. rewrite scan_prefix by done.
  cbn [scan]. rewrite N.eqb_refl. cbn [Z.eqb].
  apply (scan_closes _ body after _ _ _ (123%N :: body) v);
    [exact Hc|lia|lia| | |exact Hv].
  - unfold slice. rewrite Nat2Z.id. cbn [Nat.add].
    rewrite drop_app_length.
    replace (length pre + 1 + length body - length pre) with (S (length body)) by lia.
    change (123%N :: body ++ after) with ((123%N :: body) ++ after).
    by rewrite take_app_length'.
  - subst body. change (123%N :: b ++ ?s) with ((123%N :: b) ++ s).
    change (c ++ [125%N]) with (c ++ [125%N] ++ []).
    apply includes_occurs.
Qed.
End Prose.

(** ** The local generator *)

Lemma ids_from_step i : i < 8 -> ids_from i = ids_at i ++ ids_from (i + 1).
Proof.
  intros Hi. unfold ids_from.
  replace (8 - i) with (S (8 - (i + 1))) by lia.
  cbn [seq fmap list_fmap concat]. by replace (S i) with (i + 1) by lia.
Qed.

Lemma ids_from_suffix i : ids_from (i + 1) `sublist_of` ids_from i.
Proof.
  destruct (decide (i < 8)) as [Hi|Hi].
  - rewrite (ids_from_step i Hi). by apply sublist_inserts_l.
  - unfold ids_from. replace (8 - (i + 1)) with 0 by lia. apply sublist_nil_l.
Qed.

Lemma ids_all_distinct : NoDup (lit "start" :: ids_from 1).
Proof. apply (bool_decide_unpack (NoDup _)). vm_compute. exact I. Qed.

Lemma budgets_step i :
  i < 8 ->
  4 + node_budget (i + 1 + 1) <= node_budget i
  /\ 1 + node_budget (i + 1) <= node_budget i
  /\ 5 + edge_budget (i + 1 + 1) <= edge_budget i
  /\ 1 + edge_budget (i + 1) <= edge_budget i.
Proof.
  intros Hi. do 8 (destruct i as [|i]; [cbn; lia|]). lia.
Qed.

Section MoreLocal.
Context {num : Type} `{JSNumber num}.
Implicit Types (g : AIGeneratedFlow num) (parts : list jsstring).

Lemma bound_le parts : bound parts <= 8.
Proof. unfold bound. lia. Qed.

Lemma steps_done fuel parts i y last g :
  bound parts <= i -> steps fuel parts i y last g = g.
Proof.
  intros Hi. destruct fuel; [done|]. rewrite steps_unfold.
  destruct (Nat.ltb_spec i (bound parts)); [lia|done].
Qed.

Lemma decision_nodes_ids parts i y :
  node_ids (decision_nodes (num:=num) parts i y) = ids_at i.
Proof.
  unfold ids_at, decision_nodes, node_ids, step_id, merge_id.
  cbn [fmap list_fmap n_id mk_node]. by rewrite <- !app_assoc.
Qed.

(** The ids the loop gives out, in order, are taken from the list of all
    ids of the turns still to come. *)
Lemma steps_ids fuel parts i y last g :
  exists extra,
    node_ids (nodes (steps fuel parts i y last g)) = node_ids (nodes g) ++ extra
    /\ extra `sublist_of` ids_from i.
Proof.
  revert i y last g. induction fuel as [|fuel IH]; intros i y last g.
  { exists []. split; [by rewrite app_nil_r|apply sublist_nil_l]. }
  rewrite steps_unfold. pose proof (bound_le parts).
  destruct (Nat.ltb_spec i (bound parts)) as [Hi|Hi].
  2:{ exists []. split; [by rewrite app_nil_r|apply sublist_nil_l]. }
  rewrite (ids_from_step i) by lia.
  destruct (fans_out parts i).
  - destruct (IH (i + 1 + 1) (y + 240)%Z (merge_id i)
                 {| nodes := nodes g ++ decision_nodes parts i y;
                    edges := edges g ++ decision_edges last i |})
      as (extra & -> & Hsub).
    cbn [nodes]. unfold node_ids at 1. rewrite fmap_app.
    fold (node_ids (nodes g)) (node_ids (decision_nodes (num:=num) parts i y)).
    rewrite decision_nodes_ids, <- app_assoc.
    eexists. split; [done|]. apply sublist_app; [done|].
    etrans; [exact Hsub|apply ids_from_suffix].
  - destruct (IH (i + 1) (y + 120)%Z (step_id i)
                 {| nodes := nodes g ++ [plain_node parts i y];
                    edges := edges g ++ [mk_edge last (step_id i) None] |})
      as (extra & -> & Hsub).
    cbn [nodes]. unfold node_ids at 1. rewrite fmap_app.
    fold (node_ids (nodes g)). rewrite <- app_assoc.
    eexists. split; [done|]. apply sublist_app; [|done].
    unfold ids_at. cbn. apply sublist_skip. apply sublist_nil_l.
Qed.

(** X9. Node ids are unique in every graph of the local generator. *)
Theorem generateLocalFlowchart_ids_unique (prompt t : jsstring) :
  NoDup (node_ids (nodes (generateLocalFlowchart (num:=num) prompt t))).
Proof.
  unfold generateLocalFlowchart.
  destruct (Nat.leb 3 (length (prompt_parts prompt))).
  - edestruct (steps_ids 8 (prompt_parts prompt) 1 120 (lit "start"))
      as (extra & -> & Hsub).
    eapply sublist_NoDup; [apply ids_all_distinct|].
    cbn [nodes node_ids fmap list_fmap app n_id mk_node].
    by apply sublist_skip.
  - apply (bool_decide_unpack (NoDup _)). vm_compute. exact I.
Qed.

(** The loop pushes no more than its budget, and no label longer than 25
    code units. *)
Lemma steps_size fuel parts i y last g :
  length (nodes (steps fuel parts i y last g)) <= length (nodes g) + node_budget i
  /\ length (edges (steps fuel parts i y last g)) <= length (edges g) + edge_budget i
  /\ (Forall (fun n => length (label (n_data n)) <= 25) (nodes g) ->
      Forall (fun n => length (label (n_data n)) <= 25)
             (nodes (steps fuel parts i y last g))).
Proof.
  revert i y last g. induction fuel as [|fuel IH]; intros i y last g.
  { cbn [steps]. repeat split; (lia || done). }
  rewrite steps_unfold. pose proof (bound_le parts).
  destruct (Nat.ltb_spec i (bound parts)) as [Hi|Hi]; [|repeat split; (lia || done)].
  destruct (budgets_step i) as (Hn2 & Hn1 & He2 & He1); [lia|].
  assert (forall s, length (slice0 25 s) <= 25) as Hslice.
  { intros s. unfold slice0. rewrite length_take. lia. }
  destruct (fans_out parts i).
  - destruct (IH (i + 1 + 1) (y + 240)%Z (merge_id i)
                 {| nodes := nodes g ++ decision_nodes parts i y;
                    edges := edges g ++ decision_edges last i |})
      as (Hn & He & Hl).
    cbn [nodes edges] in *. rewrite length_app in Hn, He.
    change (length (decision_nodes parts i y)) with 4 in Hn.
    change (length (decision_edges last i)) with 5 in He.
    split; [lia|]. split; [lia|].
    intros Hg. apply Hl. apply Forall_app. split; [done|].
    unfold decision_nodes.
    repeat (constructor; [cbn [n_data label mk_node]|]); try apply Hslice.
    + vm_compute. lia.
    + vm_compute. lia.
    + destruct (_ =? _)%Z; [vm_compute; lia|].
      unfold str_or. destruct (parts !! (i + 1)) as [p|];
        cbn [fmap option_fmap option_map default]; unfold id.
      * destruct (slice0 25 p) eqn:Hp; [vm_compute; lia|].
        rewrite <- Hp. apply Hslice.
      * vm_compute. lia.
    + constructor.
  - destruct (IH (i + 1) (y + 120)%Z (step_id i)
                 {| nodes := nodes g ++ [plain_node parts i y];
                    edges := edges g ++ [mk_edge last (step_id i) None] |})
      as (Hn & He & Hl).
    cbn [nodes edges] in *. rewrite length_app in Hn, He. cbn [length] in Hn, He.
    split; [lia|]. split; [lia|].
    intros Hg. apply Hl. apply Forall_app. split; [done|].
    constructor; [apply Hslice|constructor].
Qed.

(** X10. Whatever the prompt, the local generator returns between 3 and 17
    nodes and at most 20 edges, and no label longer than 25 code units. *)
Theorem generateLocalFlowchart_size (prompt t : jsstring) :
  3 <= length (nodes (generateLocalFlowchart (num:=num) prompt t)) <= 17
  /\ length (edges (generateLocalFlowchart (num:=num) prompt t)) <= 20
  /\ Forall (fun n => length (label (n_data n)) <= 25)
            (nodes (generateLocalFlowchart (num:=num) prompt t)).
Proof.
  unfold generateLocalFlowchart.
  destruct (Nat.leb_spec 3 (length (prompt_parts prompt))) as [Hlen|Hlen].
  - set (g0 := {| nodes := [_]; edges := [] |}).
    destruct (steps_size 8 (prompt_parts prompt) 1 120 (lit "start") g0)
      as (Hn & He & Hl).
    split; [split|split].
    + assert (1 < bound (prompt_parts prompt)) as Hb1 by (unfold bound; lia).
      assert (2 < bound (prompt_parts prompt)) as Hb2 by (unfold bound; lia).
      rewrite steps_unfold. destruct (Nat.ltb_spec 1 (bound (prompt_parts prompt))); [|lia].
      destruct (fans_out (prompt_parts prompt) 1).
      * edestruct (steps_extends 7 (prompt_parts prompt) (1 + 1 + 1))
          as (ns & es & -> & _).
        cbn [nodes]. rewrite !length_app. subst g0. cbn. lia.
      * rewrite steps_unfold.
        destruct (Nat.ltb_spec (1 + 1) (bound (prompt_parts prompt))); [|lia].
        destruct (fans_out (prompt_parts prompt) (1 + 1)).
        -- edestruct (steps_extends 6 (prompt_parts prompt) (1 + 1 + 1 + 1))
             as (ns & es & -> & _).
           cbn [nodes]. rewrite !length_app. subst g0. cbn. lia.
        -- edestruct (steps_extends 6 (prompt_parts prompt) (1 + 1 + 1))
             as (ns & es & -> & _).
           cbn [nodes]. rewrite !length_app. subst g0. cbn. lia.
    + change (length (nodes g0) + node_budget 1) with 17 in Hn. lia.
    + change (length (edges g0) + edge_budget 1) with 20 in He. lia.
    + apply Hl. subst g0. constructor; [|constructor].
      cbn [n_data label mk_node]. unfold slice0. rewrite length_take. lia.
  - cbn [nodes edges length]. split; [lia|]. split; [lia|].
    repeat (constructor; [cbn [n_data label mk_node]|]); try (vm_compute; lia).
    + unfold str_or. destruct (slice0 25 prompt) eqn:Hp; [vm_compute; lia|].
      rewrite <- Hp. unfold slice0. rewrite length_take. lia.
    + constructor.
Qed.

(** With at most eight segments the loop runs to the last segment, and the
    node it pushes last is a [startEnd] node. *)
Lemma steps_last fuel parts i y last_id g :
  length parts <= 8 -> i < length parts -> length parts - i <= fuel ->
  exists n, last (nodes (steps fuel parts i y last_id g)) = Some n
            /\ n_type n = startEnd.
Proof.
  intros Hlen. assert (bound parts = length parts) as Hb by (unfold bound; lia).
  revert i y last_id g.
  induction fuel as [|fuel IH]; intros i y last_id g Hi Hf; [lia|].
  rewrite steps_unfold, Hb. destruct (Nat.ltb_spec i (length parts)); [|lia].
  unfold fans_out.
  destruct (isDecision (nth i parts []) && _) eqn:Hfan.
  - apply andb_true_iff in Hfan as [_ Hnl%Z.ltb_lt].
    destruct (decide (i + 1 + 1 = length parts)) as [Heq|Hne].
    + rewrite steps_done by (rewrite Hb; lia). cbn [nodes].
      rewrite last_app. unfold decision_nodes. cbn [last].
      eexists. split; [done|]. cbn [n_type mk_node].
      destruct (Z.eqb_spec (Z.of_nat i) (Z.of_nat (length parts) - 2)); [done|lia].
    + apply IH; lia.
  - destruct (decide (i + 1 = length parts)) as [Heq|Hne].
    + rewrite steps_done by (rewrite Hb; lia). cbn [nodes].
      rewrite last_snoc. eexists. split; [done|].
      unfold plain_node. cbn [n_type mk_node].
      destruct (Z.eqb_spec (Z.of_nat i) (Z.of_nat (length parts) - 1)); [done|lia].
    + apply IH; lia.
Qed.

(** X11. A prompt of at most eight segments gives a graph whose last node
    is a [startEnd] node. *)
Theorem generateLocalFlowchart_ends_with_terminal (prompt t : jsstring) :
  length (prompt_parts prompt) <= 8 ->
  exists n, last (nodes (generateLocalFlowchart (num:=num) prompt t)) = Some n
            /\ n_type n = startEnd.
Proof.
  intros Hlen. unfold generateLocalFlowchart.
  destruct (Nat.leb_spec 3 (length (prompt_parts prompt))); [|by eexists].
  apply steps_last; lia.
Qed.

Lemma steps_reached fuel parts i y last g :
  reached g -> reached (steps fuel parts i y last g).
Proof.
  revert i y last g. induction fuel as [|fuel IH]; intros i y last g Hg; [done|].
  rewrite steps_unfold. destruct (Nat.ltb i (bound parts)); [|done].
  destruct (fans_out parts i); apply IH; intros id;
    unfold node_ids; cbn [nodes edges]; rewrite !fmap_app;
    intros [Hin|Hin]%elem_of_app.
  - destruct (Hg id Hin); [by left|right; set_solver].
  - right. apply elem_of_app. right.
    cbn [decision_nodes decision_edges fmap list_fmap n_id mk_node e_target mk_edge] in *.
    set_solver.
  - destruct (Hg id Hin); [by left|right; set_solver].
  - right. apply elem_of_app. right.
    cbn [plain_node fmap list_fmap n_id mk_node e_target mk_edge] in *.
    set_solver.
Qed.

(** X12. In every graph of the local generator each node other than
    [start] is the target of an edge. *)
Theorem generateLocalFlowchart_nodes_reached (prompt t : jsstring) :
  forall n, n ∈ nodes (generateLocalFlowchart (num:=num) prompt t) ->
            n_id n = lit "start"
            \/ exists e, e ∈ edges (generateLocalFlowchart (num:=num) prompt t)
                         /\ e_target e = n_id n.
Proof.
  assert (reached (generateLocalFlowchart (num:=num) prompt t)) as Hr.
  { unfold generateLocalFlowchart.
    destruct (Nat.leb 3 (length (prompt_parts prompt))).
    - apply steps_reached. intros id. cbn. set_solver.
    - intros id. cbn. set_solver. }
  intros n Hn. destruct (Hr (n_id n)) as [?|Hin]; [by apply list_elem_of_fmap_2|by left|].
  right. apply list_elem_of_fmap in Hin as (e & -> & He). eauto.
Qed.
End MoreLocal.

(** ** Splitting the prompt *)

Lemma trim_start_head s c s' : trim_start s = c :: s' -> is_space c = false.
Proof.
  induction s as [|x s IH]; simpl; [discriminate|].
  destruct (is_space x) eqn:Hx; [exact IH|]. by intros [= <- _].
Qed.

Lemma trim_end_cons c s : is_space c = false -> trim_end (c :: s) = c :: trim_end s.
Proof.
  intros Hc. unfold trim_end. simpl rev.
  rewrite (trim_start_app_keep (rev s) c []) by done.
  by rewrite rev_app_distr.
Qed.

Lemma trim_idem s : trim (trim s) = trim s.
Proof.
  unfold trim.
  assert (trim_start (trim_end (trim_start s)) = trim_end (trim_start s)) as ->.
  { destruct (trim_start s) as [|c a] eqn:Ha; [done|].
    pose proof (trim_start_head _ _ _ Ha) as Hc.
    rewrite (trim_end_cons _ _ Hc). simpl. by rewrite Hc. }
  unfold trim_end. by rewrite rev_involutive, trim_start_idem.
Qed.

Lemma trim_space_cons s : trim (32%N :: s) = trim s.
Proof. reflexivity. Qed.

Lemma starts_with_split pat s : starts_with pat s = true -> exists y, s = pat ++ y.
Proof.
  revert s. induction pat as [|p pat IH]; intros s; simpl; [eauto|].
  destruct s as [|c s]; [discriminate|].
  intros [->%N.eqb_eq [y ->]%IH]%andb_true_iff. eauto.
Qed.

Lemma includes_split pat s : includes pat s = true -> exists x y, s = x ++ pat ++ y.
Proof.
  unfold includes. induction s as [|c s IH].
  - simpl. destruct (starts_with pat []) eqn:Hs; [|discriminate].
    apply starts_with_split in Hs as [y Hy]. intros _. by exists [], y.
  - rewrite index_of_cons. destruct (starts_with pat (c :: s)) eqn:Hs.
    + apply starts_with_split in Hs as [y Hy]. intros _. by exists [], y.
    + destruct (index_of pat s); [|discriminate].
      intros _. destruct IH as (x & y & ->); [done|]. by exists (c :: x), y.
Qed.

Lemma includes_piece pat a b :
  piece_of a b -> includes pat a = true -> includes pat b = true.
Proof.
  intros (u & w & ->) (x & y & ->)%includes_split.
  rewrite <- !app_assoc, (app_assoc u x). apply includes_occurs.
Qed.

Lemma sep_free_piece a b : piece_of a b -> sep_free b -> sep_free a.
Proof.
  intros Hp (H1 & H2 & H3). repeat split.
  - intros Hin. apply H1. by eapply piece_of_In.
  - intros Hin. apply H2. by eapply piece_of_In.
  - destruct (includes [45; 62]%N a) eqn:Ha; [|done].
    by rewrite (includes_piece _ _ _ Hp Ha) in H3.
Qed.

Lemma split_prompt_cons c s :
  split_prompt (c :: s)
  = if ((c =? 8594) || (c =? 44))%N then [] :: split_prompt s
    else match s with
         | d :: s' =>
             if ((c =? 45) && (d =? 62))%N then [] :: split_prompt s'
             else push_char c (split_prompt s)
         | [] => push_char c (split_prompt s)
         end.
Proof. reflexivity. Qed.

Lemma split_prompt_head s :
  exists p ps, split_prompt s = p :: ps
               /\ (p = [] \/ exists c s' p', s = c :: s' /\ p = c :: p').
Proof.
  induction s as [s IH] using (induction_ltof1 _ (@length N)). unfold ltof in IH.
  destruct s as [|c s]; [by exists [], []; auto|].
  rewrite split_prompt_cons.
  destruct ((c =? 8594) || (c =? 44))%N; [eauto 6|].
  destruct (IH s) as (p & ps & Hs & _); [simpl; lia|].
  destruct s as [|d s']; [rewrite Hs; cbn; eauto 10|].
  destruct ((c =? 45) && (d =? 62))%N; [eauto 6|].
  rewrite Hs. cbn. eauto 10.
Qed.

Lemma sep_free_cons c p :
  c <> 44%N -> c <> 8594%N -> starts_with [45; 62]%N (c :: p) = false ->
  sep_free p -> sep_free (c :: p).
Proof.
  intros H1 H2 Hs (Hp1 & Hp2 & Hp3). repeat split.
  - intros [?|?]; [congruence|done].
  - intros [?|?]; [congruence|done].
  - unfold includes in *. rewrite index_of_cons, Hs.
    by destruct (index_of [45; 62]%N p).
Qed.

Lemma sep_free_tail c p : sep_free (c :: p) -> sep_free p.
Proof. apply sep_free_piece. exists [c], []. by rewrite app_nil_r. Qed.

Lemma sep_free_head c p :
  sep_free (c :: p) ->
  ((c =? 8594) || (c =? 44))%N = false
  /\ match p with d :: _ => ((c =? 45) && (d =? 62))%N = false | [] => True end.
Proof.
  intros (H1 & H2 & H3). split.
  - apply orb_false_iff. split; apply N.eqb_neq; intros ->; [apply H2|apply H1]; by left.
  - destruct p as [|d p]; [done|].
    apply includes_cons in H3 as [H3 _]. simpl in H3.
    rewrite andb_true_r in H3. by rewrite (N.eqb_sym c), (N.eqb_sym d).
Qed.

Lemma split_prompt_sep_free s : Forall sep_free (split_prompt s).
Proof.
  assert (sep_free []) as Hnil by (by repeat split; intros []).
  induction s as [s IH] using (induction_ltof1 _ (@length N)). unfold ltof in IH.
  destruct s as [|c s]; [constructor; [done|constructor]|].
  rewrite split_prompt_cons.
  destruct ((c =? 8594) || (c =? 44))%N eqn:Hsep.
  { constructor; [done|]. apply IH. simpl. lia. }
  apply orb_false_iff in Hsep as [Ha%N.eqb_neq Hc%N.eqb_neq].
  assert (Forall sep_free (split_prompt s)) as Hs by (apply IH; simpl; lia).
  destruct (split_prompt_head s) as (p & ps & Hsplit & Hhead).
  rewrite Hsplit in *. apply Forall_cons in Hs as [Hp Hps].
  assert (starts_with [45; 62]%N (c :: p) = false ->
          Forall sep_free (push_char c (p :: ps))) as Hpush.
  { intros Hsw. constructor; [|done]. by apply sep_free_cons. }
  destruct s as [|d s'].
  { apply Hpush. injection Hsplit as <- <-. simpl. by rewrite andb_false_r. }
  destruct ((c =? 45) && (d =? 62))%N eqn:Harrow.
  { constructor; [done|]. apply IH. simpl. lia. }
  apply Hpush. destruct Hhead as [->|(c' & s'' & p' & [= <- <-] & ->)].
  - simpl. by rewrite andb_false_r.
  - cbn [starts_with]. rewrite andb_true_r. by rewrite (N.eqb_sym 45), (N.eqb_sym 62).
Qed.

(** X13. Every segment of a prompt is non-empty, trimmed, and holds no
    comma, no arrow character and no "->". *)
Theorem prompt_parts_segments (prompt : jsstring) :
  Forall segment (prompt_parts prompt).
Proof.
  unfold prompt_parts. apply Forall_forall.
  intros q [Hin Hlen]%list_elem_of_In%List.filter_In.
  apply list_elem_of_In, list_elem_of_fmap in Hin as (p & -> & Hp).
  repeat split.
  - intros Hq. rewrite Hq in Hlen. discriminate.
  - apply trim_idem.
  - intros Hin. pose proof (split_prompt_sep_free prompt) as HF.
    rewrite Forall_forall in HF. destruct (HF p Hp) as (H1 & _).
    apply H1. eapply piece_of_In; [apply piece_of_trim|done].
  - intros Hin. pose proof (split_prompt_sep_free prompt) as HF.
    rewrite Forall_forall in HF. destruct (HF p Hp) as (_ & H2 & _).
    apply H2. eapply piece_of_In; [apply piece_of_trim|done].
  - pose proof (split_prompt_sep_free prompt) as HF.
    rewrite Forall_forall in HF.
    by destruct (sep_free_piece _ _ (piece_of_trim p) (HF p Hp)) as (_ & _ & ?).
Qed.

Lemma split_prompt_whole p : sep_free p -> split_prompt p = [p].
Proof.
  induction p as [|c p IH]; [done|]. intros Hp.
  destruct (sep_free_head _ _ Hp) as [Hsep Harrow].
  rewrite split_prompt_cons, Hsep, (IH (sep_free_tail _ _ Hp)).
  destruct p as [|d p]; [done|]. by rewrite Harrow.
Qed.

Lemma split_prompt_comma p rest :
  sep_free p -> split_prompt (p ++ 44%N :: rest) = p :: split_prompt rest.
Proof.
  induction p as [|c p IH]; [done|]. intros Hp.
  destruct (sep_free_head _ _ Hp) as [Hsep Harrow].
  change ((c :: p) ++ 44%N :: rest) with (c :: (p ++ 44%N :: rest)).
  rewrite split_prompt_cons, Hsep, (IH (sep_free_tail _ _ Hp)).
  destruct p as [|d p]; simpl app; cbv iota.
  - change (44 =? 62)%N with false. by rewrite andb_false_r.
  - by rewrite Harrow.
Qed.

Lemma split_prompt_space s :
  trim <$> split_prompt (32%N :: s) = trim <$> split_prompt s.
Proof.
  rewrite split_prompt_cons. cbn [N.eqb orb andb].
  destruct (split_prompt_head s) as (p & ps & Hs & _).
  assert (trim <$> push_char 32 (split_prompt s) = trim <$> split_prompt s) as Hpush
    by (by rewrite Hs).
  by destruct s.
Qed.

(** X14. Segments joined by a comma and a space are read back as they
    were: [prompt_parts] undoes [join_segments]. *)
Theorem prompt_parts_join (parts : list jsstring) :
  Forall segment parts -> prompt_parts (join_segments parts) = parts.
Proof.
  induction 1 as [|p parts (Hne & Htrim & Hfree) Hparts IH]; [done|].
  assert (Nat.ltb 0 (length p) = true) as Hlen by (by destruct p).
  destruct parts as [|q rest].
  - cbn [join_segments]. unfold prompt_parts.
    rewrite (split_prompt_whole p Hfree). change (trim <$> [p]) with [trim p].
    rewrite Htrim. cbn [List.filter]. by rewrite Hlen.
  - change (join_segments (p :: q :: rest))
      with (p ++ 44%N :: 32%N :: join_segments (q :: rest)).
    unfold prompt_parts in *.
    rewrite (split_prompt_comma p _ Hfree), fmap_cons, split_prompt_space.
    cbn [List.filter]. by rewrite Htrim, Hlen, IH.
Qed.

(** ** The handler and the page that calls it *)

Lemma trim_nonempty s : trim s <> [] -> s <> [].
Proof. by intros Ht ->. Qed.

Section MoreHandler.
Context {num : Type} `{JSNumber num}.
Variable fetchWithTimeout : ChatRequest -> FetchResult num.

Lemma flow_of_completion_inv (data : JV num) g :
  flow_of_completion data = Some g ->
  exists c extracted,
    extractJSON c = Some extracted /\ validateFlowchart extracted = Val (Some g).
Proof.
  unfold flow_of_completion.
  set (content := get_opt _ _). clearbody content.
  intros Hf.
  assert (match content with
          | Some c =>
              if truthy c then
                match extractJSON c with
                | Some extracted =>
                    match validateFlowchart extracted with
                    | Val (Some validated) => Some validated
                    | _ => None
                    end
                | None => None
                end
              else None
          | None => None
          end = Some g) as Hc.
  { destruct data; first [discriminate Hf | exact Hf]. }
  clear Hf. destruct content as [c|]; [|discriminate].
  destruct (truthy c); [|discriminate].
  destruct (extractJSON c) as [extracted|] eqn:He; [|discriminate].
  destruct (validateFlowchart extracted) as [[v|]|] eqn:Hv; try discriminate.
  injection Hc as ->. eauto.
Qed.

Lemma flow_of_fetch_invariants (r : FetchResult num) g :
  flow_of_fetch r = Some g -> graph_invariants g.
Proof.
  destruct r as [| |[data|]]; try discriminate. simpl.
  intros (c & extracted & _ & Hv)%flow_of_completion_inv.
  by apply validateFlowchart_sanitized in Hv as [? _].
Qed.

Lemma callNvidiaNIM_inv env p d m g :
  callNvidiaNIM fetchWithTimeout env p d m = Some g ->
  (exists key, NVIDIA_NIM_API_KEY env = Some key /\ key <> [])
  /\ graph_invariants g.
Proof.
  unfold callNvidiaNIM. destruct (NVIDIA_NIM_API_KEY env) as [[|c key]|]; try discriminate.
  intros Hf%flow_of_fetch_invariants. split; [|done]. by exists (c :: key).
Qed.

Lemma callKimi_inv env p d g :
  callKimi fetchWithTimeout env p d = Some g ->
  (exists key, KIMI_API_KEY env = Some key /\ key <> [])
  /\ graph_invariants g.
Proof.
  unfold callKimi. destruct (KIMI_API_KEY env) as [[|c key]|]; try discriminate.
  intros Hf%flow_of_fetch_invariants. split; [|done]. by exists (c :: key).
Qed.

(** The four ways in which the handler answers with a graph. *)
Lemma POST_inv env body flow r tag :
  POST fetchWithTimeout env body = Success flow r tag ->
  body = Some r /\ prompt r <> []
  /\ let nim := callNvidiaNIM fetchWithTimeout env (prompt r) (diagramType r) in
     let kimi := callKimi fetchWithTimeout env (prompt r) (diagramType r) in
     (nim (lit "z-ai/glm4.7") = Some flow /\ tag = lit "nvidia-nim")
     \/ (nim (lit "z-ai/glm4.7") = None
         /\ nim (lit "moonshotai/kimi-k2-instruct") = Some flow
         /\ tag = lit "kimi-via-nim")
     \/ (nim (lit "z-ai/glm4.7") = None
         /\ nim (lit "moonshotai/kimi-k2-instruct") = None
         /\ kimi = Some flow /\ tag = lit "kimi")
     \/ (nim (lit "z-ai/glm4.7") = None
         /\ nim (lit "moonshotai/kimi-k2-instruct") = None
         /\ kimi = None
         /\ flow = generateLocalFlowchart (prompt r) (diagramType r)
         /\ tag = lit "local").
Proof.
  unfold POST. destruct body as [req|]; [|discriminate].
  destruct (prompt req) as [|c p] eqn:Hp; [discriminate|]. rewrite <- Hp.
  assert (prompt req <> []) as Hne by (by rewrite Hp).
  destruct (callNvidiaNIM _ env (prompt req) (diagramType req) (lit "z-ai/glm4.7"))
    as [g1|] eqn:H1.
  { intros [= <- <- <-]. split; [done|]. split; [done|]. cbv zeta.
    left. split; [exact H1|reflexivity]. }
  destruct (callNvidiaNIM _ env (prompt req) (diagramType req)
                          (lit "moonshotai/kimi-k2-instruct")) as [g2|] eqn:H2.
  { intros [= <- <- <-]. split; [done|]. split; [done|]. cbv zeta.
    right; left. split; [exact H1|]. split; [exact H2|reflexivity]. }
  destruct (callKimi _ env (prompt req) (diagramType req)) as [g3|] eqn:H3.
  { intros [= <- <- <-]. split; [done|]. split; [done|]. cbv zeta.
    right; right; left. split; [exact H1|]. split; [exact H2|].
    split; [exact H3|reflexivity]. }
  intros [= <- <- <-]. split; [done|]. split; [done|]. cbv zeta.
  right; right; right. split; [exact H1|]. split; [exact H2|].
  split; [exact H3|]. split; reflexivity.
Qed.

(** X15. Whatever the remote services answer, a response with a graph
    echoes the request it was made for, whose prompt is not empty; the
    graph has a node, every edge between listed nodes and every edge
    animated; and a provider's tag is used only when that provider's
    credential is configured and not empty. *)
Theorem POST_success_sound env body flow r tag :
  POST fetchWithTimeout env body = Success flow r tag ->
  body = Some r /\ prompt r <> [] /\ graph_invariants flow
  /\ ((tag = lit "nvidia-nim" \/ tag = lit "kimi-via-nim")
      /\ (exists key, NVIDIA_NIM_API_KEY env = Some key /\ key <> [])
      \/ tag = lit "kimi"
         /\ (exists key, KIMI_API_KEY env = Some key /\ key <> [])
      \/ tag = lit "local"
         /\ flow = generateLocalFlowchart (prompt r) (diagramType r)).
Proof.
  intros (Hb & Hp & Hc)%POST_inv. split; [done|]. split; [done|].
  destruct Hc as [(H1 & ->)|[(_ & H2 & ->)|[(_ & _ & H3 & ->)|(_ & _ & _ & -> & ->)]]].
  - apply callNvidiaNIM_inv in H1 as [Hk Hg]. split; [done|]. left. split; [by left|done].
  - apply callNvidiaNIM_inv in H2 as [Hk Hg]. split; [done|]. left. split; [by right|done].
  - apply callKimi_inv in H3 as [Hk Hg]. split; [done|]. right; left. by split.
  - split; [apply generateLocalFlowchart_invariants|]. right; right. by split.
Qed.

Lemma POST_answers env req :
  prompt req <> [] ->
  exists flow tag,
    POST fetchWithTimeout env (Some req) = Success flow req tag
    /\ graph_invariants flow.
Proof.
  intros Hp. unfold POST. destruct (prompt req) as [|c p] eqn:Hreq; [done|].
  rewrite <- Hreq.
  destruct (callNvidiaNIM _ env (prompt req) (diagramType req) (lit "z-ai/glm4.7"))
    as [g1|] eqn:H1.
  { apply callNvidiaNIM_inv in H1 as [_ ?]. eauto. }
  destruct (callNvidiaNIM _ env (prompt req) (diagramType req)
                          (lit "moonshotai/kimi-k2-instruct")) as [g2|] eqn:H2.
  { apply callNvidiaNIM_inv in H2 as [_ ?]. eauto. }
  destruct (callKimi _ env (prompt req) (diagramType req)) as [g3|] eqn:H3.
  { apply callKimi_inv in H3 as [_ ?]. eauto. }
  eexists _, _. split; [done|]. apply generateLocalFlowchart_invariants.
Qed.

(** X16. A request that the builder page sends is never refused: the
    page sends nothing for a prompt that is empty once trimmed, and for
    the request it does send the handler answers with a graph that has a
    node and no dangling edge, whatever the remote services do. *)
Theorem handleGenerate_request_answered env p dt req :
  handleGenerate_request p dt = Some req ->
  trim p <> [] /\ prompt req = p /\ diagramType req = dt
  /\ exists flow tag,
       POST fetchWithTimeout env (Some req) = Success flow req tag
       /\ graph_invariants flow.
Proof.
  unfold handleGenerate_request. destruct (trim p) as [|c t] eqn:Ht; [discriminate|].
  intros [= <-]. split; [done|]. split; [done|]. split; [done|].
  apply POST_answers. cbn [prompt]. apply trim_nonempty. by rewrite Ht.
Qed.

(** X17. For every response with a graph the builder page shows a
    provenance line, and the line reads "Local engine" exactly when none
    of the three provider calls gave a graph. *)
Theorem provenance_badge_local env body flow r tag :
  POST fetchWithTimeout env body = Success flow r tag ->
  provenance_badge tag <> None
  /\ (provenance_badge tag = Some (lit "Local engine")
      <-> callNvidiaNIM fetchWithTimeout env (prompt r) (diagramType r)
                        (lit "z-ai/glm4.7") = None
          /\ callNvidiaNIM fetchWithTimeout env (prompt r) (diagramType r)
                           (lit "moonshotai/kimi-k2-instruct") = None
          /\ callKimi fetchWithTimeout env (prompt r) (diagramType r) = None).
Proof.
  intros (_ & _ & Hc)%POST_inv.
  assert (forall t : jsstring, t <> [] -> provenance_badge t <> None) as Hshown
    by (by intros [|? ?]).
  destruct Hc as [(H1 & ->)|[(H1 & H2 & ->)|[(H1 & H2 & H3 & ->)|(H1 & H2 & H3 & _ & ->)]]];
    (split; [by apply Hshown|]).
  - rewrite H1. split; [intros Hb; vm_compute in Hb; discriminate|by intros [? _]].
  - rewrite H1, H2. split; [intros Hb; vm_compute in Hb; discriminate|by intros (_ & ? & _)].
  - rewrite H1, H2, H3.
    split; [intros Hb; vm_compute in Hb; discriminate|by intros (_ & _ & ?)].
  - rewrite H1, H2, H3. split; [done|]. intros _. by vm_compute.
Qed.
End MoreHandler.

(** ** The shape of the local generator's graph *)

Lemma edge_ids_from_step i :
  i < 8 -> edge_ids_from i = edge_ids_at i ++ edge_ids_from (i + 1).
Proof.
  intros Hi. unfold edge_ids_from.
  replace (8 - i) with (S (8 - (i + 1))) by lia.
  cbn [seq fmap list_fmap concat]. by replace (S i) with (i + 1) by lia.
Qed.

Lemma edge_ids_from_suffix i : edge_ids_from (i + 1) `sublist_of` edge_ids_from i.
Proof.
  destruct (decide (i < 8)) as [Hi|Hi].
  - rewrite (edge_ids_from_step i Hi). by apply sublist_inserts_l.
  - unfold edge_ids_from. replace (8 - (i + 1)) with 0 by lia. apply sublist_nil_l.
Qed.

Lemma edge_ids_all_distinct : NoDup (edge_ids_from 1).
Proof. apply (bool_decide_unpack (NoDup _)). vm_compute. exact I. Qed.

Lemma sublist_singleton {A} (x : A) l : x ∈ l -> [x] `sublist_of` l.
Proof.
  induction 1 as [x l|x y l _ IH].
  - apply sublist_skip, sublist_nil_l.
  - by apply sublist_cons.
Qed.

Lemma lookup_app_add {A} (l l2 : list A) k : (l ++ l2) !! (length l + k) = l2 !! k.
Proof. rewrite lookup_app_r by lia. f_equal. lia. Qed.

Lemma path_mono es es' a b : es ⊆ es' -> path es a b -> path es' a b.
Proof.
  intros Hsub. induction 1 as [|e _ IH He]; [constructor|].
  apply path_step; [done|by apply Hsub].
Qed.

Lemma path_edge es a s t l :
  path es a s -> mk_edge s t l ∈ es -> path es a t.
Proof. intros Hp He. exact (path_step es a (mk_edge s t l) Hp He). Qed.

Section LocalShape.
Context {num : Type} `{JSNumber num}.
Implicit Types (g : AIGeneratedFlow num) (parts : list jsstring).

Lemma last_ids_decision i : merge_id i ∈ last_ids (i + 1 + 1).
Proof.
  unfold last_ids. replace (i + 1 + 1 - 2) with i by lia. set_solver.
Qed.

Lemma last_ids_plain i : step_id i ∈ last_ids (i + 1).
Proof.
  unfold last_ids. replace (i + 1 - 1) with i by lia. set_solver.
Qed.

(** The edge ids the loop gives out, in order, are taken from the list of
    all edge ids of the turns still to come. *)
Lemma steps_edge_ids fuel parts i y last g :
  last ∈ last_ids i ->
  exists extra,
    e_id <$> edges (steps fuel parts i y last g) = (e_id <$> edges g) ++ extra
    /\ extra `sublist_of` edge_ids_from i.
Proof.
  revert i y last g. induction fuel as [|fuel IH]; intros i y last g Hlast.
  { exists []. split; [by rewrite app_nil_r|apply sublist_nil_l]. }
  rewrite steps_unfold. pose proof (bound_le parts).
  destruct (Nat.ltb_spec i (bound parts)) as [Hi|Hi].
  2:{ exists []. split; [by rewrite app_nil_r|apply sublist_nil_l]. }
  rewrite (edge_ids_from_step i) by lia.
  assert ([e_id (mk_edge last (step_id i) None)]
            `sublist_of` (fun l => e_id (mk_edge l (step_id i) None)) <$> last_ids i)
    as Hfirst.
  { apply sublist_singleton.
    by apply (list_elem_of_fmap_2 (fun l => e_id (mk_edge l (step_id i) None))). }
  destruct (fans_out parts i).
  - destruct (IH (i + 1 + 1) (y + 240)%Z (merge_id i)
                 {| nodes := nodes g ++ decision_nodes parts i y;
                    edges := edges g ++ decision_edges last i |}
                 (last_ids_decision i))
      as (extra & -> & Hsub).
    cbn [edges]. rewrite fmap_app, <- app_assoc.
    eexists. split; [done|]. apply sublist_app.
    + change (e_id <$> decision_edges last i)
        with ([e_id (mk_edge last (step_id i) None)]
                ++ (e_id <$> drop 1 (decision_edges [] i))).
      unfold edge_ids_at. by apply sublist_app.
    + etrans; [exact Hsub|apply edge_ids_from_suffix].
  - destruct (IH (i + 1) (y + 120)%Z (step_id i)
                 {| nodes := nodes g ++ [plain_node parts i y];
                    edges := edges g ++ [mk_edge last (step_id i) None] |}
                 (last_ids_plain i))
      as (extra & -> & Hsub).
    cbn [edges]. rewrite fmap_app, <- app_assoc.
    eexists. split; [done|]. apply sublist_app; [|done].
    unfold edge_ids_at. change (e_id <$> [mk_edge last (step_id i) None])
      with ([e_id (mk_edge last (step_id i) None)]).
    by apply sublist_inserts_r.
Qed.

(** X18. Edge ids are unique in every graph of the local generator. *)
Theorem generateLocalFlowchart_edge_ids_unique (prompt t : jsstring) :
  NoDup (e_id <$> edges (generateLocalFlowchart (num:=num) prompt t)).
Proof.
  unfold generateLocalFlowchart.
  destruct (Nat.leb 3 (length (prompt_parts prompt))).
  - edestruct (steps_edge_ids 8 (prompt_parts prompt) 1 120 (lit "start"))
      as (extra & -> & Hsub); [unfold last_ids; set_solver|].
    eapply sublist_NoDup; [apply edge_ids_all_distinct|exact Hsub].
  - apply (bool_decide_unpack (NoDup _)). vm_compute. exact I.
Qed.

Lemma steps_connected fuel parts i y last g :
  connected g -> last ∈ node_ids (nodes g) ->
  connected (steps fuel parts i y last g).
Proof.
  revert i y last g. induction fuel as [|fuel IH]; intros i y last g Hg Hlast; [done|].
  rewrite steps_unfold. destruct (Nat.ltb i (bound parts)); [|done].
  destruct (fans_out parts i).
  - set (es := edges g ++ decision_edges last i).
    assert (forall id, id ∈ node_ids (nodes g) -> path es (lit "start") id) as Hold.
    { intros id Hid. eapply path_mono; [|by apply Hg]. subst es. set_solver. }
    assert (path es (lit "start") (step_id i)) as Hstep.
    { apply (path_edge _ _ last _ None); [by apply Hold|].
      subst es. unfold decision_edges. set_solver. }
    assert (path es (lit "start") (step_id i ++ lit "-yes")) as Hyes.
    { apply (path_edge _ _ (step_id i) _ (Some (lit "Yes"))); [done|].
      subst es. unfold decision_edges. set_solver. }
    apply IH.
    + intros id. unfold node_ids. cbn [nodes edges]. rewrite fmap_app.
      fold (node_ids (nodes g)) (node_ids (decision_nodes (num:=num) parts i y)).
      rewrite decision_nodes_ids. fold es.
      intros [Hin|Hin]%elem_of_app; [by apply Hold|].
      unfold ids_at in Hin. fold (step_id i) (merge_id i) in Hin.
      apply elem_of_cons in Hin as [->|Hin]; [done|].
      apply elem_of_cons in Hin as [->|Hin]; [done|].
      apply elem_of_cons in Hin as [->|Hin].
      { apply (path_edge _ _ (step_id i) _ (Some (lit "No"))); [done|].
        subst es. unfold decision_edges. set_solver. }
      apply elem_of_cons in Hin as [->|Hin]; [|by apply elem_of_nil in Hin].
      apply (path_edge _ _ (step_id i ++ lit "-yes") _ None); [done|].
      subst es. unfold decision_edges. set_solver.
    + unfold node_ids. cbn [nodes]. rewrite fmap_app.
      fold (node_ids (decision_nodes (num:=num) parts i y)).
      rewrite decision_nodes_ids. unfold ids_at. fold (merge_id i). set_solver.
  - set (es := edges g ++ [mk_edge last (step_id i) None]).
    assert (forall id, id ∈ node_ids (nodes g) -> path es (lit "start") id) as Hold.
    { intros id Hid. eapply path_mono; [|by apply Hg]. subst es. set_solver. }
    apply IH.
    + intros id. unfold node_ids. cbn [nodes edges]. rewrite fmap_app. fold es.
      intros [Hin|Hin]%elem_of_app; [by apply Hold|].
      cbn [fmap list_fmap plain_node n_id mk_node] in Hin.
      apply list_elem_of_singleton in Hin as ->.
      apply (path_edge _ _ last _ None); [by apply Hold|]. subst es. set_solver.
    + unfold node_ids. cbn [nodes]. rewrite fmap_app.
      cbn [fmap list_fmap plain_node n_id mk_node]. set_solver.
Qed.

(** X19. In every graph of the local generator each node can be reached
    from the node [start] along the edges. *)
Theorem generateLocalFlowchart_connected (prompt t : jsstring) :
  forall n, n ∈ nodes (generateLocalFlowchart (num:=num) prompt t) ->
            path (edges (generateLocalFlowchart (num:=num) prompt t))
                 (lit "start") (n_id n).
Proof.
  assert (connected (generateLocalFlowchart (num:=num) prompt t)) as Hc.
  { unfold generateLocalFlowchart.
    destruct (Nat.leb 3 (length (prompt_parts prompt))).
    - apply steps_connected; [|cbn; set_solver].
      intros id. cbn [nodes node_ids fmap list_fmap n_id mk_node].
      intros ->%list_elem_of_singleton. constructor.
    - intros id. cbn [nodes edges node_ids fmap list_fmap n_id mk_node].
      set (e1 := {| e_id := lit "e1" |}). set (e2 := {| e_id := lit "e2" |}).
      assert (path [e1; e2] (lit "start") (lit "process")) as Hp.
      { apply (path_step _ _ e1); [constructor|set_solver]. }
      intros Hin.
      apply elem_of_cons in Hin as [->|Hin]; [constructor|].
      apply elem_of_cons in Hin as [->|Hin]; [done|].
      apply list_elem_of_singleton in Hin as ->.
      apply (path_step _ _ e2); [done|set_solver]. }
  intros n Hn. apply Hc. by apply list_elem_of_fmap_2.
Qed.

Lemma steps_forward fuel parts i y last g :
  forward g -> last ∈ node_ids (nodes g) ->
  forward (steps fuel parts i y last g).
Proof.
  revert i y last g. induction fuel as [|fuel IH]; intros i y last g Hg Hlast; [done|].
  rewrite steps_unfold. destruct (Nat.ltb i (bound parts)); [|done].
  pose proof Hlast as [k Hk]%list_elem_of_lookup_1.
  pose proof (lookup_lt_Some _ _ _ Hk) as Hlt.
  destruct (fans_out parts i).
  - apply IH.
    + intros e. unfold node_ids. cbn [nodes edges]. rewrite fmap_app.
      fold (node_ids (nodes g)) (node_ids (decision_nodes (num:=num) parts i y)).
      rewrite decision_nodes_ids. unfold ids_at. fold (step_id i) (merge_id i).
      set (ids := node_ids (nodes g)) in *.
      intros [He|He]%elem_of_app.
      { destruct (Hg e He) as (a & b & Hab & Ha & Hb).
        exists a, b. split; [done|]. split; by apply lookup_app_l_Some. }
      unfold decision_edges in He.
      apply elem_of_cons in He as [->|He].
      { exists k, (length ids + 0). split; [lia|]. split.
        - by apply lookup_app_l_Some.
        - by rewrite lookup_app_add. }
      apply elem_of_cons in He as [->|He].
      { exists (length ids + 0), (length ids + 1). split; [lia|].
        by rewrite !lookup_app_add. }
      apply elem_of_cons in He as [->|He].
      { exists (length ids + 0), (length ids + 2). split; [lia|].
        by rewrite !lookup_app_add. }
      apply elem_of_cons in He as [->|He].
      { exists (length ids + 1), (length ids + 3). split; [lia|].
        by rewrite !lookup_app_add. }
      apply list_elem_of_singleton in He as ->.
      exists (length ids + 2), (length ids + 3). split; [lia|].
      by rewrite !lookup_app_add.
    + unfold node_ids. cbn [nodes]. rewrite fmap_app.
      fold (node_ids (decision_nodes (num:=num) parts i y)).
      rewrite decision_nodes_ids. unfold ids_at. fold (merge_id i). set_solver.
  - apply IH.
    + intros e. unfold node_ids. cbn [nodes edges]. rewrite fmap_app.
      fold (node_ids (nodes g)). set (ids := node_ids (nodes g)) in *.
      cbn [fmap list_fmap plain_node n_id mk_node].
      intros [He|He]%elem_of_app.
      { destruct (Hg e He) as (a & b & Hab & Ha & Hb).
        exists a, b. split; [done|]. split; by apply lookup_app_l_Some. }
      apply list_elem_of_singleton in He as ->.
      exists k, (length ids + 0). split; [lia|]. split.
      * by apply lookup_app_l_Some.
      * by rewrite lookup_app_add.
    + unfold node_ids. cbn [nodes]. rewrite fmap_app.
      cbn [fmap list_fmap plain_node n_id mk_node]. set_solver.
Qed.

(** X20. In every graph of the local generator each edge leads from a
    node to a node listed after it, so the edges form no cycle. *)
Theorem generateLocalFlowchart_forward (prompt t : jsstring) :
  forall e, e ∈ edges (generateLocalFlowchart (num:=num) prompt t) ->
    exists i j,
      i < j
      /\ node_ids (nodes (generateLocalFlowchart (num:=num) prompt t)) !! i
         = Some (e_source e)
      /\ node_ids (nodes (generateLocalFlowchart (num:=num) prompt t)) !! j
         = Some (e_target e).
Proof.
  change (forward (generateLocalFlowchart (num:=num) prompt t)).
  unfold generateLocalFlowchart.
  destruct (Nat.leb 3 (length (prompt_parts prompt))).
  - apply steps_forward; [|cbn; set_solver].
    intros e He. cbn in He. by apply elem_of_nil in He.
  - intros e. cbn [nodes edges node_ids fmap list_fmap n_id mk_node].
    intros He. apply elem_of_cons in He as [->|He].
    { exists 0, 1. split; [lia|done]. }
    apply list_elem_of_singleton in He as ->.
    exists 1, 2. split; [lia|done].
Qed.
End LocalShape.

(** ** The further properties on closed inputs *)

(** Refutes membership in a closed list of code units. *)
Ltac not_among :=
  let H := fresh "H" in
  intros H; vm_compute in H;
  repeat (destruct H as [H|H]; [discriminate H|]); exact H.

Ltac closed_segment :=
  split; [discriminate|];
  split; [vm_compute; reflexivity|];
  split; [not_among|]; split; [not_among|vm_compute; reflexivity].

Lemma validateFlowchart_output_shape_witness :
  nodes labelled_edges_graph <> []
  /\ Forall (fun e => e_animated e = Some true) (edges labelled_edges_graph)
  /\ Forall (fun n => length (label (n_data n)) <= 40) (nodes labelled_edges_graph)
  /\ exists raws es,
      get (lit "nodes") labelled_edges_input = Some (JArr raws)
      /\ get (lit "edges") labelled_edges_input = Some (JArr es)
      /\ length (nodes labelled_edges_graph) <= length raws
      /\ length (edges labelled_edges_graph) <= length es.
Proof.
  apply (validateFlowchart_output_shape labelled_edges_input labelled_edges_graph).
  vm_compute; reflexivity.
Defined.

Lemma validateFlowchart_edge_pass_witness :
  exists es,
    get (lit "edges") labelled_edges_input = Some (JArr es)
    /\ Forall2 edge_pass
         (List.filter (edge_survives (node_ids (nodes labelled_edges_graph))) es)
         (edges labelled_edges_graph).
Proof.
  apply (validateFlowchart_edge_pass labelled_edges_input labelled_edges_graph).
  vm_compute; reflexivity.
Defined.

Lemma validateFlowchart_null_iff_witness :
  validateFlowchart no_valid_node_input = Val None <->
  ~ exists raws es,
      get (lit "nodes") no_valid_node_input = Some (JArr raws)
      /\ get (lit "edges") no_valid_node_input = Some (JArr es)
      /\ List.filter node_survives raws <> [].
Proof.
  apply (validateFlowchart_null_iff no_valid_node_input).
Defined.

Lemma validateFlowchart_dropped_edge_is_inert_witness :
  validateFlowchart (graph_value three_raw_nodes ([edge_a_b] ++ [edge_b_a]))
  = Val (Some labelled_edges_graph).
Proof.
  apply (validateFlowchart_dropped_edge_is_inert
           three_raw_nodes [edge_a_b] edge_a_zz [edge_b_a] labelled_edges_graph).
  - vm_compute; reflexivity.
  - vm_compute; reflexivity.
Defined.

Lemma validateFlowchart_raises_only_on_toString_witness :
  exists r, validateFlowchart labelled_edges_input = Val r.
Proof.
  apply (validateFlowchart_raises_only_on_toString labelled_edges_input).
  vm_compute; reflexivity.
Defined.

Lemma extractJSON_sound_witness :
  graph_shaped plain_value = true
  /\ exists text, piece_of text prose_answer /\ JSON_parse text = Some plain_value.
Proof.
  apply (extractJSON_sound prose_answer plain_value).
  vm_compute; reflexivity.
Defined.

Lemma extractJSON_needs_brace_witness :
  extractJSON (num:=Z) (JStr (lit "I cannot draw that.")) = None.
Proof.
  apply (extractJSON_needs_brace (lit "I cannot draw that.")).
  not_among.
Defined.

Lemma extractJSON_payload_in_prose_witness :
  extractJSON
    (JStr (lit "Here you go: "
           ++ 123%N :: ([] ++ quoted_nodes ++ plain_payload_rest ++ [125%N])
           ++ lit " done"))
  = Some plain_value.
Proof.
  apply (extractJSON_payload_in_prose
           (lit "Here you go: ") [] plain_payload_rest (lit " done") plain_value).
  - vm_compute. repeat (constructor; [split; discriminate|]). constructor.
  - vm_compute; reflexivity.
  - vm_compute; reflexivity.
  - vm_compute; reflexivity.
  - vm_compute; reflexivity.
Defined.

Lemma generateLocalFlowchart_ends_with_terminal_witness :
  exists n,
    last (nodes (generateLocalFlowchart (num:=Z) visit_site_prompt (lit "process")))
    = Some n
    /\ n_type n = startEnd.
Proof.
  apply (generateLocalFlowchart_ends_with_terminal visit_site_prompt (lit "process")).
  vm_compute. lia.
Defined.

Lemma generateLocalFlowchart_nodes_reached_witness :
  n_id (mk_node (num:=Z) (lit "step-1-no") process 450 240 (lit "Handle")) = lit "start"
  \/ exists e,
       e ∈ edges (generateLocalFlowchart (num:=Z) visit_site_prompt (lit "process"))
       /\ e_target e
          = n_id (mk_node (num:=Z) (lit "step-1-no") process 450 240 (lit "Handle")).
Proof.
  apply (generateLocalFlowchart_nodes_reached visit_site_prompt (lit "process")).
  apply (list_elem_of_lookup_2 _ 3). vm_compute; reflexivity.
Defined.

Lemma prompt_parts_join_witness :
  prompt_parts (join_segments three_segments) = three_segments.
Proof.
  apply (prompt_parts_join three_segments).
  constructor; [closed_segment|].
  constructor; [closed_segment|].
  constructor; [closed_segment|]. constructor.
Defined.

Lemma POST_success_sound_witness :
  Some launch_request = Some launch_request
  /\ prompt launch_request <> []
  /\ graph_invariants plain_graph
  /\ ((lit "nvidia-nim" = lit "nvidia-nim" \/ lit "nvidia-nim" = lit "kimi-via-nim")
      /\ (exists key, NVIDIA_NIM_API_KEY nim_configured = Some key /\ key <> [])
      \/ lit "nvidia-nim" = lit "kimi"
         /\ (exists key, KIMI_API_KEY nim_configured = Some key /\ key <> [])
      \/ lit "nvidia-nim" = lit "local"
         /\ plain_graph
            = generateLocalFlowchart (prompt launch_request) (diagramType launch_request)).
Proof.
  apply (POST_success_sound answering nim_configured (Some launch_request)
           plain_graph launch_request (lit "nvidia-nim")).
  vm_compute; reflexivity.
Defined.

Lemma handleGenerate_request_answered_witness :
  trim launch_prompt <> []
  /\ prompt launch_request = launch_prompt
  /\ diagramType launch_request = lit "process"
  /\ exists flow tag,
       POST unreachable no_credentials (Some launch_request)
       = Success flow launch_request tag
       /\ graph_invariants flow.
Proof.
  apply (handleGenerate_request_answered unreachable no_credentials
           launch_prompt (lit "process") launch_request).
  vm_compute; reflexivity.
Defined.

Lemma provenance_badge_local_witness :
  provenance_badge (lit "nvidia-nim") <> None
  /\ (provenance_badge (lit "nvidia-nim") = Some (lit "Local engine")
      <-> callNvidiaNIM answering nim_configured (prompt launch_request)
                        (diagramType launch_request) (lit "z-ai/glm4.7") = None
          /\ callNvidiaNIM answering nim_configured (prompt launch_request)
                           (diagramType launch_request)
                           (lit "moonshotai/kimi-k2-instruct") = None
          /\ callKimi answering nim_configured (prompt launch_request)
                      (diagramType launch_request) = None).
Proof.
  apply (provenance_badge_local answering nim_configured (Some launch_request)
           plain_graph launch_request (lit "nvidia-nim")).
  vm_compute; reflexivity.
Defined.

Lemma generateLocalFlowchart_connected_witness :
  path (edges (generateLocalFlowchart (num:=Z) receive_order_prompt (lit "process")))
       (lit "start")
       (n_id (mk_node (num:=Z) (lit "merge-1") startEnd 250 360 (lit "End"))).
Proof.
  apply (generateLocalFlowchart_connected receive_order_prompt (lit "process")).
  apply (list_elem_of_lookup_2 _ 4). vm_compute; reflexivity.
Defined.

Lemma generateLocalFlowchart_forward_witness :
  exists i j,
    i < j
    /\ node_ids (nodes (generateLocalFlowchart (num:=Z) receive_order_prompt
                          (lit "process"))) !! i
       = Some (e_source (mk_edge (lit "step-1-yes") (lit "merge-1") None))
    /\ node_ids (nodes (generateLocalFlowchart (num:=Z) receive_order_prompt
                          (lit "process"))) !! j
       = Some (e_target (mk_edge (lit "step-1-yes") (lit "merge-1") None)).
Proof.
  apply (generateLocalFlowchart_forward receive_order_prompt (lit "process")).
  apply (list_elem_of_lookup_2 _ 3). vm_compute; reflexivity.
Defined.
